(** * dark/blast.py: hit aggregation and plot information

    A shallow embedding of [BlastRecords] and [BlastHits] from
    [dark/blast.py] (Python 2), with the properties of the two passes over
    the BLAST records: [BlastRecords.filterHits] (aggregation per subject
    title) and [BlastHits.computePlotInfo] (per-title plot items).

    Conventions of the embedding:
    - Python floats (e-values, converted e-values, plot offsets) are
      rationals [Qc]. The operations that round in floating point,
      [numpy.mean], [numpy.median] and [math.log10], are collaborators of
      which nothing is assumed.
    - A [dict] with string keys used as a map is a [gmap string _]; its
      (arbitrary but fixed) iteration order is that of [map_to_list].
    - A [dict] with a fixed set of keys is a record; a key that is deleted,
      not yet set, or set to [None] is an [option] field holding [None].
    - Hit-info dicts are shared between [BlastHits] instances, so they live
      in a store and are named by references.
    - An exception is a value of [Error]; a method that can raise or that
      mutates state runs in the monad [M]. *)

From Stdlib Require Import QArith Qcanon.
From stdpp Require Import gmap strings list fin_maps numbers sorting.

Close Scope Q_scope.
Close Scope Qc_scope.

(** ** Numbers *)

Definition qc (n : Z) (d : positive) : Qc := Q2Qc (n # d)%Q.
Definition Qc_of_nat (n : nat) : Qc := Qc_of_Z (Z.of_nat n).

(** Python 2 orders [None] before every number: [x > None] is [True] and
    [x < None] is [False] for a float [x]. *)
Definition gt_py2 (x : Qc) (y : option Qc) : bool :=
  match y with
  | None => true
  | Some y => bool_decide (y < x)%Qc
  end.

Definition lt_py2 (x : Qc) (y : option Qc) : bool :=
  match y with
  | None => false
  | Some y => bool_decide (x < y)%Qc
  end.

(** The order of [list.sort] on keys that are [None] or a number. *)
Definition key_le (x y : option Qc) : bool :=
  match x, y with
  | None, _ => true
  | Some _, None => false
  | Some x, Some y => bool_decide (x <= y)%Qc
  end.

(** ** Exceptions *)

Inductive Assertion :=
| MismatchedFiles (blastRecords fastaSequences : nat)
| InvalidHSP
| MaxXIsNone.

Inductive Error :=
| KeyError (key : string)
| AssertionError (a : Assertion)
| IndexError
| TypeError
| ValueError.

(** ** The state and exception monad *)

Definition M (S A : Type) : Type := S -> (Error + A) * S.

Definition ret {S A} (a : A) : M S A := fun s => (inr a, s).
Definition raise {S A} (e : Error) : M S A := fun s => (inl e, s).
Definition bind {S A B} (m : M S A) (k : A -> M S B) : M S B :=
  fun s => match m s with
           | (inr a, s') => k a s'
           | (inl e, s') => (inl e, s')
           end.
Definition get {S} : M S S := fun s => (inr s, s).
Definition put {S} (s : S) : M S unit := fun _ => (inr tt, s).
Definition modify {S} (f : S -> S) : M S unit := fun s => (inr tt, f s).
Definition lift {S A} (r : Error + A) : M S A := fun s => (r, s).

Notation "x <- m ;; k" := (bind m (fun x => k))
  (at level 100, m at next level, right associativity).
Notation "m ;;; k" := (bind m (fun _ => k))
  (at level 100, right associativity).

(** [for x in l: body(x)] *)
Fixpoint forM {S A} (l : list A) (body : A -> M S unit) : M S unit :=
  match l with
  | [] => ret tt
  | x :: l => body x ;;; forM l body
  end.

(** ** BLAST records *)

Record HSP := {
  expect : Qc;
  frame : Z * Z;
  query_start : Z;
  query_end : Z;
  sbjct_start : Z;
  sbjct_end : Z
}.

(** [record.alignments[i]] together with [record.descriptions[i].title]. *)
Record Alignment := {
  title : string;
  al_length : Z;
  hsps : list HSP
}.

Record BlastRecord := {
  alignments : list Alignment
}.

(** The dict returned by [normalizeHSP]. *)
Record NormalizedHSP := {
  queryStart : Qc;
  queryEnd : Qc;
  subjectStart : Qc;
  subjectEnd : Qc
}.

(** ** Collaborators: dark.filter, dark.intervals *)

Inductive TitleFilterResult := REJECT | WHITELIST_ACCEPT | DEFAULT_ACCEPT.

Global Instance TitleFilterResult_eq_dec : EqDecision TitleFilterResult.
Proof. solve_decision. Defined.

(** The keyword arguments of the two [filterHits] methods. *)
Record FilterParams := {
  whitelist : option (gset string);
  blacklist : option (gset string);
  minSequenceLen : option Z;
  maxSequenceLen : option Z;
  minMatchingReads : option nat;
  maxMeanEValue : option Qc;
  maxMedianEValue : option Qc;
  withEBetterThan : option Qc;
  titleRegex : option string;
  negativeTitleRegex : option string;
  truncateTitlesAfter : option string
}.

(** A [TitleFilter] instance: its constructor arguments and the titles it
    has been asked about so far, latest first (the filter is stateful). *)
Record TitleFilter := {
  tf_whitelist : option (gset string);
  tf_blacklist : option (gset string);
  positiveRegex : option string;
  negativeRegex : option string;
  truncateAfter : option string;
  tf_asked : list string
}.

(** A [HitInfoFilter] instance: its constructor arguments. *)
Record HitInfoFilter := {
  hf_minSequenceLen : option Z;
  hf_maxSequenceLen : option Z;
  hf_minMatchingReads : option nat;
  hf_maxMeanEValue : option Qc;
  hf_maxMedianEValue : option Qc;
  hf_withEBetterThan : option Qc
}.

Inductive IntervalType := EMPTY | COVERED.

Global Instance IntervalType_eq_dec : EqDecision IntervalType.
Proof. solve_decision. Defined.

(** A [ReadIntervals] instance: the length it was made for and the
    intervals added to it, latest first. *)
Record ReadIntervals := {
  ri_length : Z;
  ri_added : list (Qc * Qc)
}.

(** An [OffsetAdjuster] instance: its constructor arguments. *)
Record OffsetAdjuster := {
  oa_intervals : ReadIntervals;
  oa_base : Qc
}.

(** ** Hit information and plot information *)

Record Item := {
  convertedE : option Qc;
  hsp : NormalizedHSP;
  origHsp : HSP;
  queryLen : nat;
  readNum : nat;
  item_frame : Z * Z
}.

Record PlotInfo := {
  hspTotal : nat;
  items : list Item;
  maxE : option Qc;
  minE : option Qc;
  maxX : Qc;
  minX : Qc;
  zeroEValueFound : bool;
  readIntervals : option ReadIntervals;
  offsetAdjuster : option OffsetAdjuster;
  maxEIncludingRandoms : option Qc
}.

Record HitInfo := {
  eValues : option (list Qc);
  hi_length : Z;
  readCount : nat;
  readNums : gset nat;
  titleFilterResult : option TitleFilterResult;
  eMean : option Qc;
  eMedian : option Qc;
  eMin : option Qc;
  plotInfo : option PlotInfo
}.

(** The code outside [dark/blast.py] that the two classes call. *)
Class Env := {
  (** [dark.hsp.normalizeHSP(hsp, queryLen)]; [None] is its
      [AssertionError]. *)
  normalizeHSP : HSP -> nat -> option NormalizedHSP;
  (** [dark.intervals]: [ReadIntervals.walk], [OffsetAdjuster.adjustOffset]
      and [OffsetAdjuster.adjustNormalizedHSP]. *)
  walk : ReadIntervals -> list (IntervalType * (Qc * Qc));
  adjustOffset : OffsetAdjuster -> Qc -> Qc;
  adjustNormalizedHSP : OffsetAdjuster -> NormalizedHSP -> NormalizedHSP;
  (** [dark.filter]: [TitleFilter.accept] (by the state of the filter) and
      [HitInfoFilter.accept]. *)
  TitleFilter_decide : TitleFilter -> string -> TitleFilterResult;
  HitInfoFilter_accept : HitInfoFilter -> HitInfo -> bool;
  (** [math.log10]; [None] is its [ValueError]. *)
  log10 : Qc -> option Qc;
  (** [numpy.mean] and [numpy.median] of a list of floats, with whatever
      rounding they do. *)
  np_mean : list Qc -> Qc;
  np_median : list Qc -> Qc;
  (** [random.uniform(a, b)], by the number of draws made before it. *)
  uniform : nat -> Qc -> Qc -> Qc
}.

(** ** Summary statistics *)

(** A stable insertion sort, as [sorted] and [list.sort] are stable. *)
Section Sort.
Context {A : Type} (le : A -> A -> bool).

Fixpoint insert_sorted (x : A) (l : list A) : list A :=
  match l with
  | [] => [x]
  | y :: l' => if le x y then x :: l else y :: insert_sorted x l'
  end.

Fixpoint sort (l : list A) : list A :=
  match l with
  | [] => []
  | x :: l => insert_sorted x (sort l)
  end.
End Sort.

Definition Qc_leb (x y : Qc) : bool := bool_decide (x <= y)%Qc.

Definition sum_Qc (l : list Qc) : Qc := foldr Qcplus (Q2Qc 0) l.

(** The builtin [min] of a list; on an empty list it raises. *)
Fixpoint py_min (l : list Qc) : Error + Qc :=
  match l with
  | [] => inl ValueError
  | [x] => inr x
  | x :: l =>
      match py_min l with
      | inr m => inr (if bool_decide (m < x)%Qc then m else x)
      | inl e => inl e
      end
  end.

(** ** BlastRecords *)

(** The decoding of the BLAST file (by its file type) and of the FASTA
    file is outside this development: an instance holds what they contain.
    So an instance stands for a file whose name ends in [.xml] or [.json]
    and that decodes; for any other name [records] raises [ValueError]
    before it yields a record, and no instance stands for that. The limit
    is a number of records, not a negative integer. [blastParams] plays no
    part in the two passes and is left out. *)
Record BlastRecords := {
  (** The records decoded from [blastFilename]. *)
  blastFile : list BlastRecord;
  (** The sequences parsed from [fastaFilename]. *)
  fastaFile : list string;
  limit : option nat;
  _length : nat
}.

Definition set_length (n : nat) (self : BlastRecords) : BlastRecords :=
  {| blastFile := blastFile self; fastaFile := fastaFile self;
     limit := limit self; _length := n |}.

(** The second loop of [records]: yield until [count] exceeds the limit.
    Returns the records yielded and the final [count]. *)
Fixpoint records_upto (limit count : nat) (rs : list BlastRecord)
  : list BlastRecord * nat :=
  match rs with
  | [] => ([], count)
  | r :: rs =>
      let count := S count in
      if decide (limit < count) then ([], limit)
      else let '(ys, c) := records_upto limit count rs in (r :: ys, c)
  end.

(** [BlastRecords.records], run to its end: the records it yields, and
    [self] with [_length] set. *)
Definition BlastRecords_records (self : BlastRecords)
  : list BlastRecord * BlastRecords :=
  match limit self with
  | None => (blastFile self, set_length (length (blastFile self)) self)
  | Some lim =>
      let '(ys, count) := records_upto lim 0 (blastFile self) in
      (ys, set_length count self)
  end.

Definition enumerate {A} (l : list A) : list (nat * A) :=
  zip (seq 0 (length l)) l.

(** ** BlastHits: construction and [addHit] *)

Record PlotParams := {
  eCutoff : option Qc;
  logBase : Qc;
  logLinearXAxis : bool;
  maxHspsPerHit : option nat;
  maxStop : option Qc;
  minStart : option Qc;
  randomizeZeroEValues : bool;
  rankEValues : bool
}.

(** [titles] maps a title to a reference to its hit-info dict. *)
Record BlastHits := {
  records : BlastRecords;
  titles : gmap string nat;
  fasta : option (list string);
  plotParams : option PlotParams
}.

(** The store of hit-info dicts, and the number of random draws made. *)
Record World := {
  heap : gmap nat HitInfo;
  draws : nat
}.

Definition BlastHits_new (records : BlastRecords) : BlastHits :=
  {| records := records; titles := ∅; fasta := None; plotParams := None |}.

Definition set_titles (ts : gmap string nat) (self : BlastHits) : BlastHits :=
  {| records := records self; titles := ts;
     fasta := fasta self; plotParams := plotParams self |}.

Definition addHit (title : string) (hitInfo : nat) : M BlastHits unit :=
  self <- get ;;
  if decide (is_Some (titles self !! title))
  then raise (KeyError title)
  else put (set_titles (<[title := hitInfo]> (titles self)) self).

(** ** BlastRecords.filterHits *)

Definition TitleFilter_new (p : FilterParams) : TitleFilter :=
  {| tf_whitelist := whitelist p; tf_blacklist := blacklist p;
     positiveRegex := titleRegex p; negativeRegex := negativeTitleRegex p;
     truncateAfter := truncateTitlesAfter p; tf_asked := [] |}.

Definition TitleFilter_asked (title : string) (f : TitleFilter) : TitleFilter :=
  {| tf_whitelist := tf_whitelist f; tf_blacklist := tf_blacklist f;
     positiveRegex := positiveRegex f; negativeRegex := negativeRegex f;
     truncateAfter := truncateAfter f; tf_asked := title :: tf_asked f |}.

(** The state of the first loop of [BlastRecords.filterHits]: the local
    dict [result] and the title filter. The dicts held by [result] are
    local to the call until they are handed to [addHit]. *)
Record Aggregation := {
  result : gmap string HitInfo;
  titleFilter : TitleFilter
}.

Definition set_result (r : gmap string HitInfo) (st : Aggregation) : Aggregation :=
  {| result := r; titleFilter := titleFilter st |}.

(** The dict created for a title that is not yet in [result]. *)
Definition newHitInfo (sequenceLen : Z) (r : TitleFilterResult) : HitInfo :=
  {| eValues := Some []; hi_length := sequenceLen; readCount := 0;
     readNums := ∅; titleFilterResult := Some r;
     eMean := None; eMedian := None; eMin := None; plotInfo := None |}.

(** The three updates that record the best e-value of a read. *)
Definition recordHit (readNum : nat) (e : Qc) (evs : list Qc) (hitInfo : HitInfo)
  : HitInfo :=
  {| eValues := Some (evs ++ [e]); hi_length := hi_length hitInfo;
     readCount := S (readCount hitInfo);
     readNums := {[readNum]} ∪ readNums hitInfo;
     titleFilterResult := titleFilterResult hitInfo;
     eMean := eMean hitInfo; eMedian := eMedian hitInfo; eMin := eMin hitInfo;
     plotInfo := plotInfo hitInfo |}.

Definition lengthElided (p : FilterParams) (sequenceLen : Z) : bool :=
  match minSequenceLen p with
  | Some m => bool_decide (sequenceLen < m)%Z
  | None => false
  end
  || match maxSequenceLen p with
     | Some m => bool_decide (m < sequenceLen)%Z
     | None => false
     end.

Section Aggregate.
Context `{Env}.

Definition TitleFilter_accept (title : string) : M TitleFilter TitleFilterResult :=
  f <- get ;;
  put (TitleFilter_asked title f) ;;;
  ret (TitleFilter_decide f title).

(** The body of the inner loop, for one alignment of read [readNum]. *)
Definition addAlignment (p : FilterParams) (readNum : nat)
    (alignment : Alignment) : M Aggregation unit :=
  fun st =>
    let title := title alignment in
    let '(r, f) := TitleFilter_accept title (titleFilter st) in
    let st := {| result := result st; titleFilter := f |} in
    match r with
    | inl e => (inl e, st)
    | inr titleFilterResult =>
        if decide (titleFilterResult = REJECT) then (inr tt, st)
        else
          let found :=
            match result st !! title with
            | Some hitInfo => Some hitInfo
            | None =>
                let sequenceLen := al_length alignment in
                if lengthElided p sequenceLen then None
                else Some (newHitInfo sequenceLen titleFilterResult)
            end in
          match found with
          | None => (inr tt, st)
          | Some hitInfo =>
              let st := set_result (<[title := hitInfo]> (result st)) st in
              match hsps alignment, eValues hitInfo with
              | [], _ => (inl IndexError, st)
              | _ :: _, None => (inl (KeyError "eValues"), st)
              | best :: _, Some evs =>
                  (inr tt,
                   set_result
                     (<[title := recordHit readNum (expect best) evs hitInfo]>
                        (result st)) st)
              end
          end
    end.

(** The first loop: every alignment of every record. *)
Definition aggregate (p : FilterParams) (rs : list BlastRecord)
  : M Aggregation unit :=
  forM (enumerate rs) (fun '(readNum, record) =>
    forM (alignments record) (addAlignment p readNum)).

(** The summary statistics set on a hit-info dict. *)
Definition summarize (hitInfo : HitInfo) : Error + HitInfo :=
  match eValues hitInfo with
  | None => inl (KeyError "eValues")
  | Some evs =>
      match py_min evs with
      | inl e => inl e
      | inr m =>
          inr {| eValues := eValues hitInfo; hi_length := hi_length hitInfo;
                 readCount := readCount hitInfo; readNums := readNums hitInfo;
                 titleFilterResult := titleFilterResult hitInfo;
                 eMean := Some (np_mean evs);
                 eMedian := Some (np_median evs);
                 eMin := Some m;
                 plotInfo := plotInfo hitInfo |}
      end
  end.

(** [del hitInfo['eValues']; del hitInfo['titleFilterResult']] *)
Definition forget (hitInfo : HitInfo) : HitInfo :=
  {| eValues := None; hi_length := hi_length hitInfo;
     readCount := readCount hitInfo; readNums := readNums hitInfo;
     titleFilterResult := None;
     eMean := eMean hitInfo; eMedian := eMedian hitInfo; eMin := eMin hitInfo;
     plotInfo := plotInfo hitInfo |}.

Definition mkHitInfoFilter (withLengths : bool) (p : FilterParams) : HitInfoFilter :=
  {| hf_minSequenceLen := if withLengths then minSequenceLen p else None;
     hf_maxSequenceLen := if withLengths then maxSequenceLen p else None;
     hf_minMatchingReads := minMatchingReads p;
     hf_maxMeanEValue := maxMeanEValue p;
     hf_maxMedianEValue := maxMedianEValue p;
     hf_withEBetterThan := withEBetterThan p |}.

(** The hit-info dict enters the store when [addHit] receives it. *)
Definition alloc (hitInfo : HitInfo) : M World nat :=
  fun w =>
    let l := fresh (dom (heap w)) in
    (inr l, {| heap := <[l := hitInfo]> (heap w); draws := draws w |}).

(** The body of the second loop, for one title of [result]. *)
Definition finishTitle (hitInfoFilter : HitInfoFilter)
    (entry : string * HitInfo) : M (BlastHits * World) unit :=
  fun '(blastHits, w) =>
    let '(title, hitInfo) := entry in
    match summarize hitInfo with
    | inl e => (inl e, (blastHits, w))
    | inr hitInfo =>
        if bool_decide (titleFilterResult hitInfo = Some WHITELIST_ACCEPT)
           || HitInfoFilter_accept hitInfoFilter hitInfo
        then
          let '(l, w) := alloc (forget hitInfo) w in
          match l with
          | inl e => (inl e, (blastHits, w))
          | inr l =>
              let '(r, blastHits) := addHit title l blastHits in
              (r, (blastHits, w))
          end
        else (inr tt, (blastHits, w))
    end.

Definition BlastRecords_filterHits (p : FilterParams) (self : BlastRecords)
  : M World BlastHits :=
  fun w =>
    let '(rs, self) := BlastRecords_records self in
    match aggregate p rs {| result := ∅; titleFilter := TitleFilter_new p |} with
    | (inl e, _) => (inl e, w)
    | (inr _, st) =>
        let blastHits := BlastHits_new self in
        let hitInfoFilter := mkHitInfoFilter false p in
        match forM (map_to_list (result st)) (finishTitle hitInfoFilter)
                (blastHits, w) with
        | (inl e, (_, w)) => (inl e, w)
        | (inr _, (blastHits, w)) => (inr blastHits, w)
        end
    end.
End Aggregate.

(** ** BlastHits.filterHits *)

(** [self.titles[title]] is a reference; reading through it gives the dict.
    No run of the program holds a reference to a dict that is not in the
    store. *)
Definition deref (l : nat) : M World HitInfo :=
  fun w =>
    match heap w !! l with
    | Some hitInfo => (inr hitInfo, w)
    | None => (inl (KeyError "dangling reference"), w)
    end.

Section Refilter.
Context `{Env}.

(** The body of the loop of [BlastHits.filterHits], for one entry of
    [self.titles]; the state is the title filter and [result]. *)
Definition keepTitle (hitInfoFilter : HitInfoFilter) (w : World)
    (entry : string * nat) : M (TitleFilter * BlastHits) unit :=
  fun '(f, result) =>
    let '(title, hitInfo) := entry in
    let '(r, f) := TitleFilter_accept title f in
    match r with
    | inl e => (inl e, (f, result))
    | inr titleFilterResult =>
        let keep :=
          if decide (titleFilterResult = WHITELIST_ACCEPT) then inr true
          else if decide (titleFilterResult = DEFAULT_ACCEPT) then
            match deref hitInfo w with
            | (inr d, _) => inr (HitInfoFilter_accept hitInfoFilter d)
            | (inl e, _) => inl e
            end
          else inr false in
        match keep with
        | inl e => (inl e, (f, result))
        | inr true =>
            let '(r, result) := addHit title hitInfo result in
            (r, (f, result))
        | inr false => (inr tt, (f, result))
        end
    end.

Definition BlastHits_filterHits (p : FilterParams) (self : BlastHits)
  : M World BlastHits :=
  fun w =>
    let titleFilter := TitleFilter_new p in
    let hitInfoFilter := mkHitInfoFilter true p in
    let result := BlastHits_new (records self) in
    match forM (map_to_list (titles self)) (keepTitle hitInfoFilter w)
            (titleFilter, result) with
    | (inl e, _) => (inl e, w)
    | (inr _, (_, result)) => (inr result, w)
    end.
End Refilter.

(** ** BlastHits._getHsps, _convertEValuesToRanks, _readFASTA *)

(** The tuples that [_getHsps] yields when it is run to its end, and
    [self.records] afterwards. *)
Definition _getHsps (self : BlastHits)
  : list (string * nat * list HSP) * BlastRecords :=
  let '(rs, records) := BlastRecords_records (records self) in
  (flat_map (fun '(readNum, record) =>
     flat_map (fun alignment =>
       if decide (is_Some (titles self !! title alignment))
       then [(title alignment, readNum, hsps alignment)] else [])
       (alignments record))
     (enumerate rs),
   records).

Definition set_convertedE (e : option Qc) (item : Item) : Item :=
  {| convertedE := e; hsp := hsp item; origHsp := origHsp item;
     queryLen := queryLen item; readNum := readNum item;
     item_frame := item_frame item |}.

Definition set_hsp (h : NormalizedHSP) (item : Item) : Item :=
  {| convertedE := convertedE item; hsp := h; origHsp := origHsp item;
     queryLen := queryLen item; readNum := readNum item;
     item_frame := item_frame item |}.

(** [for rank, item in enumerate(items, start=rank): item['convertedE'] = rank] *)
Fixpoint assignRanks (rank : nat) (items : list Item) : list Item :=
  match items with
  | [] => []
  | item :: items =>
      set_convertedE (Some (Qc_of_nat rank)) item :: assignRanks (S rank) items
  end.

Definition item_le (a b : Item) : bool := key_le (convertedE a) (convertedE b).

Definition _convertEValuesToRanks (plotInfo : PlotInfo) : PlotInfo :=
  let items := assignRanks 1 (sort item_le (items plotInfo)) in
  {| hspTotal := hspTotal plotInfo;
     items := items;
     maxE := Some (Qc_of_nat (length items));
     minE := Some (Qc_of_nat 1);
     maxX := maxX plotInfo;
     minX := minX plotInfo;
     zeroEValueFound := false;
     readIntervals := readIntervals plotInfo;
     offsetAdjuster := offsetAdjuster plotInfo;
     maxEIncludingRandoms := Some (Qc_of_nat (length items)) |}.

Definition _readFASTA (self : BlastHits) : Error + list string :=
  let fasta := fastaFile (records self) in
  match limit (records self) with
  | None =>
      if decide (length fasta = _length (records self)) then inr fasta
      else inl (AssertionError
                  (MismatchedFiles (_length (records self)) (length fasta)))
  | Some lim =>
      if decide (_length (records self) <= length fasta) then inr (take lim fasta)
      else inl (AssertionError (MismatchedFiles lim (length fasta)))
  end.

(** ** BlastHits.computePlotInfo *)

Definition zeroEValueUpperRandomIncrement : Qc := qc 150 1.

(** [x or d] for an optional number [x]: [None] and zero are false. *)
Definition or_py (x : option Qc) (d : Qc) : Qc :=
  match x with
  | Some v => if decide (v = Q2Qc 0) then d else v
  | None => d
  end.

Definition plotInfoDict (p : PlotParams) (sequenceLen : Z) : PlotInfo :=
  {| hspTotal := 0;
     items := [];
     maxE := None;
     minE := None;
     maxX := or_py (maxStop p) (Qc_of_Z sequenceLen);
     minX := or_py (minStart p) (Q2Qc 0);
     zeroEValueFound := false;
     readIntervals :=
       if logLinearXAxis p
       then Some {| ri_length := sequenceLen; ri_added := [] |}
       else None;
     offsetAdjuster := None;
     maxEIncludingRandoms := None |}.

Definition set_hspTotal (n : nat) (pi : PlotInfo) : PlotInfo :=
  {| hspTotal := n; items := items pi; maxE := maxE pi; minE := minE pi;
     maxX := maxX pi; minX := minX pi; zeroEValueFound := zeroEValueFound pi;
     readIntervals := readIntervals pi; offsetAdjuster := offsetAdjuster pi;
     maxEIncludingRandoms := maxEIncludingRandoms pi |}.

Definition set_items (its : list Item) (pi : PlotInfo) : PlotInfo :=
  {| hspTotal := hspTotal pi; items := its; maxE := maxE pi; minE := minE pi;
     maxX := maxX pi; minX := minX pi; zeroEValueFound := zeroEValueFound pi;
     readIntervals := readIntervals pi; offsetAdjuster := offsetAdjuster pi;
     maxEIncludingRandoms := maxEIncludingRandoms pi |}.

Definition set_maxE (e : option Qc) (pi : PlotInfo) : PlotInfo :=
  {| hspTotal := hspTotal pi; items := items pi; maxE := e; minE := minE pi;
     maxX := maxX pi; minX := minX pi; zeroEValueFound := zeroEValueFound pi;
     readIntervals := readIntervals pi; offsetAdjuster := offsetAdjuster pi;
     maxEIncludingRandoms := maxEIncludingRandoms pi |}.

Definition set_minE (e : option Qc) (pi : PlotInfo) : PlotInfo :=
  {| hspTotal := hspTotal pi; items := items pi; maxE := maxE pi; minE := e;
     maxX := maxX pi; minX := minX pi; zeroEValueFound := zeroEValueFound pi;
     readIntervals := readIntervals pi; offsetAdjuster := offsetAdjuster pi;
     maxEIncludingRandoms := maxEIncludingRandoms pi |}.

Definition set_maxX (x : Qc) (pi : PlotInfo) : PlotInfo :=
  {| hspTotal := hspTotal pi; items := items pi; maxE := maxE pi; minE := minE pi;
     maxX := x; minX := minX pi; zeroEValueFound := zeroEValueFound pi;
     readIntervals := readIntervals pi; offsetAdjuster := offsetAdjuster pi;
     maxEIncludingRandoms := maxEIncludingRandoms pi |}.

Definition set_minX (x : Qc) (pi : PlotInfo) : PlotInfo :=
  {| hspTotal := hspTotal pi; items := items pi; maxE := maxE pi; minE := minE pi;
     maxX := maxX pi; minX := x; zeroEValueFound := zeroEValueFound pi;
     readIntervals := readIntervals pi; offsetAdjuster := offsetAdjuster pi;
     maxEIncludingRandoms := maxEIncludingRandoms pi |}.

Definition set_zeroEValueFound (b : bool) (pi : PlotInfo) : PlotInfo :=
  {| hspTotal := hspTotal pi; items := items pi; maxE := maxE pi; minE := minE pi;
     maxX := maxX pi; minX := minX pi; zeroEValueFound := b;
     readIntervals := readIntervals pi; offsetAdjuster := offsetAdjuster pi;
     maxEIncludingRandoms := maxEIncludingRandoms pi |}.

Definition set_readIntervals (r : option ReadIntervals) (pi : PlotInfo) : PlotInfo :=
  {| hspTotal := hspTotal pi; items := items pi; maxE := maxE pi; minE := minE pi;
     maxX := maxX pi; minX := minX pi; zeroEValueFound := zeroEValueFound pi;
     readIntervals := r; offsetAdjuster := offsetAdjuster pi;
     maxEIncludingRandoms := maxEIncludingRandoms pi |}.

Definition set_offsetAdjuster (a : option OffsetAdjuster) (pi : PlotInfo) : PlotInfo :=
  {| hspTotal := hspTotal pi; items := items pi; maxE := maxE pi; minE := minE pi;
     maxX := maxX pi; minX := minX pi; zeroEValueFound := zeroEValueFound pi;
     readIntervals := readIntervals pi; offsetAdjuster := a;
     maxEIncludingRandoms := maxEIncludingRandoms pi |}.

Definition set_maxEIncludingRandoms (e : option Qc) (pi : PlotInfo) : PlotInfo :=
  {| hspTotal := hspTotal pi; items := items pi; maxE := maxE pi; minE := minE pi;
     maxX := maxX pi; minX := minX pi; zeroEValueFound := zeroEValueFound pi;
     readIntervals := readIntervals pi; offsetAdjuster := offsetAdjuster pi;
     maxEIncludingRandoms := e |}.

Definition set_plotInfo (pi : option PlotInfo) (hitInfo : HitInfo) : HitInfo :=
  {| eValues := eValues hitInfo; hi_length := hi_length hitInfo;
     readCount := readCount hitInfo; readNums := readNums hitInfo;
     titleFilterResult := titleFilterResult hitInfo;
     eMean := eMean hitInfo; eMedian := eMedian hitInfo; eMin := eMin hitInfo;
     plotInfo := pi |}.

(** [hitInfo['plotInfo'] = pi] through the reference [l]. *)
Definition store_plotInfo (l : nat) (pi : option PlotInfo) (w : World) : World :=
  {| heap := alter (set_plotInfo pi) l (heap w); draws := draws w |}.

Definition set_fasta (f : option (list string)) (self : BlastHits) : BlastHits :=
  {| records := records self; titles := titles self;
     fasta := f; plotParams := plotParams self |}.

Definition set_plotParams (p : option PlotParams) (self : BlastHits) : BlastHits :=
  {| records := records self; titles := titles self;
     fasta := fasta self; plotParams := p |}.

Definition set_records (r : BlastRecords) (self : BlastHits) : BlastHits :=
  {| records := r; titles := titles self;
     fasta := fasta self; plotParams := plotParams self |}.

Section PlotInfo.
Context `{Env}.

(** The update of [maxE] and [minE] for a non-zero e-value. *)
Definition trackE (firstItem : bool) (convertedE : Qc) (pi : PlotInfo) : PlotInfo :=
  let pi := if firstItem || gt_py2 convertedE (maxE pi)
            then set_maxE (Some convertedE) pi else pi in
  if firstItem || lt_py2 convertedE (minE pi)
  then set_minE (Some convertedE) pi else pi.

Definition trackX (normalized : NormalizedHSP) (pi : PlotInfo) : PlotInfo :=
  let pi := if bool_decide (queryStart normalized < minX pi)%Qc
            then set_minX (queryStart normalized) pi else pi in
  if bool_decide (maxX pi < queryEnd normalized)%Qc
  then set_maxX (queryEnd normalized) pi else pi.

Definition addInterval (start stop : Qc) : M PlotInfo unit :=
  pi <- get ;;
  match readIntervals pi with
  | None => raise (KeyError "readIntervals")
  | Some r =>
      put (set_readIntervals
             (Some {| ri_length := ri_length r;
                      ri_added := (start, stop) :: ri_added r |}) pi)
  end.

(** The body of the loop over the HSPs of one alignment, after the test
    of [maxHspsPerHit]. *)
Definition addHsp (p : PlotParams) (firstItem : bool) (queryLen readNum : nat)
    (hsp : HSP) : M PlotInfo unit :=
  match normalizeHSP hsp queryLen with
  | None => raise (AssertionError InvalidHSP)
  | Some normalized =>
      if match minStart p with
         | Some m => bool_decide (queryStart normalized < m)%Qc
         | None => false
         end
         || match maxStop p with
            | Some m => bool_decide (m < queryEnd normalized)%Qc
            | None => false
            end
      then ret tt
      else
        (if logLinearXAxis p
         then addInterval (queryStart normalized) (queryEnd normalized)
         else ret tt) ;;;
        let e := expect hsp in
        if match eCutoff p with
           | Some c => bool_decide (c <= e)%Qc
           | None => false
           end
        then ret tt
        else
          convertedE <-
            (if decide (e = Q2Qc 0)
             then modify (set_zeroEValueFound true) ;;; ret None
             else match log10 e with
                  | None => raise ValueError
                  | Some l =>
                      let convertedE := (qc (-1) 1 * l)%Qc in
                      modify (trackE firstItem convertedE) ;;;
                      ret (Some convertedE)
                  end) ;;
          modify (trackX normalized) ;;;
          modify (fun pi =>
            set_items (items pi ++
              [{| convertedE := convertedE; hsp := normalized; origHsp := hsp;
                  queryLen := queryLen; readNum := readNum;
                  item_frame := frame hsp |}]) pi)
  end.

(** [for hspCount, hsp in enumerate(hsps, start=hspCount)] *)
Fixpoint addHsps (p : PlotParams) (firstItem : bool) (queryLen readNum : nat)
    (hspCount : nat) (hsps : list HSP) : M PlotInfo unit :=
  match hsps with
  | [] => ret tt
  | hsp :: hsps =>
      if match maxHspsPerHit p with
         | Some m => bool_decide (m < hspCount)
         | None => false
         end
      then ret tt
      else addHsp p firstItem queryLen readNum hsp ;;;
           addHsps p firstItem queryLen readNum (S hspCount) hsps
  end.

(** The body of the loop over the tuples of [_getHsps]. *)
Definition addGroup (p : PlotParams) (self : BlastHits) (fasta : list string)
    (group : string * nat * list HSP) : M World unit :=
  let '(title, readNum, hsps) := group in
  match titles self !! title with
  | None => raise (KeyError title)
  | Some l =>
      hitInfo <- deref l ;;
      let '(plotInfo, firstItem) :=
        match plotInfo hitInfo with
        | None => (plotInfoDict p (hi_length hitInfo), true)
        | Some plotInfo => (plotInfo, false)
        end in
      modify (store_plotInfo l (Some plotInfo)) ;;;
      match fasta !! readNum with
      | None => raise IndexError
      | Some read =>
          let queryLen := String.length read in
          let plotInfo := set_hspTotal (hspTotal plotInfo + length hsps) plotInfo in
          let '(r, plotInfo) := addHsps p firstItem queryLen readNum 1 hsps plotInfo in
          modify (store_plotInfo l (Some plotInfo)) ;;;
          lift r
      end
  end.
End PlotInfo.

Section PostProcess.
Context `{Env}.

(** [randomizeZeroEValues=False]: the items whose converted e-value is
    [None] get [maxEIncludingRandoms + 1], [+ 2], ... in list order.
    Returns the items and the final [maxEIncludingRandoms]. *)
Fixpoint numberZeros (maxEIncludingRandoms : option Qc) (items : list Item)
  : Error + list Item * option Qc :=
  match items with
  | [] => inr ([], maxEIncludingRandoms)
  | item :: items =>
      match convertedE item with
      | Some _ =>
          match numberZeros maxEIncludingRandoms items with
          | inr (items, m) => inr (item :: items, m)
          | inl e => inl e
          end
      | None =>
          match maxEIncludingRandoms with
          | None => inl TypeError
          | Some m =>
              let m := (m + qc 1 1)%Qc in
              match numberZeros (Some m) items with
              | inr (items, m') =>
                  inr (set_convertedE (Some m) item :: items, m')
              | inl e => inl e
              end
          end
      end
  end.

(** [randomizeZeroEValues=True]: the items whose converted e-value is
    [None] get [maxE + 2 + uniform(0, 150)]. Returns the items, the final
    [maxEIncludingRandoms] and the number of draws made. *)
Fixpoint randomizeZeros (maxE maxEIncludingRandoms : option Qc) (draws : nat)
    (items : list Item) : Error + list Item * option Qc * nat :=
  match items with
  | [] => inr ([], maxEIncludingRandoms, draws)
  | item :: items =>
      match convertedE item with
      | Some _ =>
          match randomizeZeros maxE maxEIncludingRandoms draws items with
          | inr (items, m, d) => inr (item :: items, m, d)
          | inl e => inl e
          end
      | None =>
          match maxE with
          | None => inl TypeError
          | Some mx =>
              let e := (mx + qc 2 1 +
                        uniform draws (Q2Qc 0) zeroEValueUpperRandomIncrement)%Qc in
              let m := if gt_py2 e maxEIncludingRandoms
                       then Some e else maxEIncludingRandoms in
              match randomizeZeros maxE m (S draws) items with
              | inr (items, m', d) =>
                  inr (set_convertedE (Some e) item :: items, m', d)
              | inl e => inl e
              end
          end
      end
  end.

(** The loop that adjusts the HSP of every item, with the running
    [minX] and [maxX]. *)
Fixpoint adjustItems (adjuster : OffsetAdjuster) (minX maxX : option Qc)
    (items : list Item) : list Item * option Qc * option Qc :=
  match items with
  | [] => ([], minX, maxX)
  | item :: items =>
      let adjusted := adjustNormalizedHSP adjuster (hsp item) in
      let minX := if match minX with None => true | Some _ => false end
                     || lt_py2 (queryStart adjusted) minX
                  then Some (queryStart adjusted) else minX in
      let maxX := if match maxX with None => true | Some _ => false end
                     || gt_py2 (queryEnd adjusted) maxX
                  then Some (queryEnd adjusted) else maxX in
      let '(items, minX, maxX) := adjustItems adjuster minX maxX items in
      (set_hsp adjusted item :: items, minX, maxX)
  end.

(** The block under [if logLinearXAxis]. *)
Definition adjustXAxis (p : PlotParams) (plotInfo : PlotInfo) : Error + PlotInfo :=
  match readIntervals plotInfo with
  | None => inl (KeyError "readIntervals")
  | Some intervals =>
      let adjuster := {| oa_intervals := intervals; oa_base := logBase p |} in
      let '(items, minX, maxX) := adjustItems adjuster None None (items plotInfo) in
      let plotInfo := set_items items plotInfo in
      let gaps := walk intervals in
      let minX :=
        match head gaps with
        | Some (EMPTY, (start, stop)) =>
            let adjustedStart := adjustOffset adjuster start in
            if lt_py2 adjustedStart minX then Some adjustedStart else minX
        | _ => minX
        end in
      let maxX :=
        match last gaps with
        | Some (EMPTY, (start, stop)) =>
            let adjustedStop := adjustOffset adjuster stop in
            if gt_py2 adjustedStop maxX then Some adjustedStop else maxX
        | _ => maxX
        end in
      match minX, maxX with
      | Some minX, Some maxX =>
          inr (set_offsetAdjuster (Some adjuster)
                 (set_maxX maxX (set_minX minX plotInfo)))
      | Some _, None => inl (AssertionError MaxXIsNone)
      | None, _ => inr (set_offsetAdjuster (Some adjuster) plotInfo)
      end
  end.

(** The body of the last loop of [computePlotInfo], for a title whose
    plot info is not [None]. Returns the plot info and the number of
    random draws made so far. *)
Definition finishPlotInfo (p : PlotParams) (draws : nat) (plotInfo : PlotInfo)
  : Error + PlotInfo * nat :=
  let plotInfo := if rankEValues p then _convertEValuesToRanks plotInfo
                  else plotInfo in
  let maxEIncludingRandoms := maxE plotInfo in
  let resolved :=
    if zeroEValueFound plotInfo then
      if randomizeZeroEValues p then
        randomizeZeros (maxE plotInfo) maxEIncludingRandoms draws (items plotInfo)
      else
        match numberZeros maxEIncludingRandoms (items plotInfo) with
        | inr (items, m) => inr (items, m, draws)
        | inl e => inl e
        end
    else inr (items plotInfo, maxEIncludingRandoms, draws) in
  match resolved with
  | inl e => inl e
  | inr (items, maxEIncludingRandoms, draws) =>
      let plotInfo :=
        set_maxEIncludingRandoms maxEIncludingRandoms (set_items items plotInfo) in
      if logLinearXAxis p then
        match adjustXAxis p plotInfo with
        | inr plotInfo => inr (plotInfo, draws)
        | inl e => inl e
        end
      else inr (plotInfo, draws)
  end.

Definition finishTitlePlot (p : PlotParams) (l : nat) : M World unit :=
  hitInfo <- deref l ;;
  match plotInfo hitInfo with
  | None => ret tt
  | Some plotInfo =>
      w <- get ;;
      match finishPlotInfo p (draws w) plotInfo with
      | inl e => raise e
      | inr (plotInfo, draws) =>
          put {| heap := alter (set_plotInfo (Some plotInfo)) l (heap w);
                 draws := draws |}
      end
  end.

(** [for title, hitInfo in self.titles.iteritems(): hitInfo['plotInfo'] = None] *)
Definition resetPlotInfo (self : BlastHits) : M World unit :=
  forM (map_to_list (titles self)) (fun '(title, l) =>
    modify (store_plotInfo l None)).

Definition computePlotInfo (p : PlotParams) : M (BlastHits * World) unit :=
  fun '(self, w) =>
    let '(_, w) := resetPlotInfo self w in
    let self := set_plotParams (Some p) self in
    let read :=
      match fasta self with
      | None => _readFASTA self
      | Some fasta => inr fasta
      end in
    match read with
    | inl e => (inl e, (self, w))
    | inr fasta =>
        let self := set_fasta (Some fasta) self in
        let '(groups, records) := _getHsps self in
        match forM groups (addGroup p self fasta) w with
        | (inl e, w) => (inl e, (self, w))
        | (inr _, w) =>
            let self := set_records records self in
            let '(r, w) :=
              forM (map_to_list (titles self)) (fun '(title, l) =>
                finishTitlePlot p l) w in
            (r, (self, w))
        end
    end.
End PostProcess.

(** ** The collaborators, from their contracts

    [dark/hsp.py], [dark/intervals.py] and [dark/filter.py] are not part of
    this development; the general theorems below hold for every [Env]. The
    definitions of this section give one [Env], on which the examples
    are run. *)

(** Modelled from the spec: [math.log10] is not rational-valued; this is
    its integer part, which is its exact value on the powers of ten that
    the examples use. A non-positive argument is the [ValueError]. *)
Fixpoint ilog10 (fuel : nat) (n : Z) : Z :=
  match fuel with
  | 0 => 0
  | S fuel => if (n <? 10)%Z then 0%Z else (1 + ilog10 fuel (n / 10))%Z
  end.

(** Modelled from the spec: the least power of ten that is not below [n],
    for the arguments of [math.log10] below one. *)
Fixpoint ilog10_up (fuel : nat) (n : Z) : Z :=
  match fuel with
  | 0 => 0
  | S fuel => if (n <=? 1)%Z then 0%Z else (1 + ilog10_up fuel ((n + 9) / 10))%Z
  end.

(** Modelled from the spec: [math.log10] on a positive rational, from the
    two functions above. *)
Definition log10_floor (q : Qc) : option Qc :=
  let n := Qnum q in
  let d := Z.pos (Qden q) in
  if (n <=? 0)%Z then None
  else if (d <=? n)%Z
       then Some (Qc_of_Z (ilog10 (S (Z.to_nat (Z.log2 n))) (n / d)))
       else Some (Qc_of_Z (- ilog10_up (S (Z.to_nat (Z.log2 d))) ((d + n - 1) / n))).

(** Modelled from the spec: the normalizer of section 4.3, which orders
    the offsets of each side and does not fail on these inputs. *)
Definition normalizeHSP_spec (hsp : HSP) (queryLen : nat) : option NormalizedHSP :=
  Some {| queryStart := Qc_of_Z (Z.min (query_start hsp) (query_end hsp));
          queryEnd := Qc_of_Z (Z.max (query_start hsp) (query_end hsp));
          subjectStart := Qc_of_Z (Z.min (sbjct_start hsp) (sbjct_end hsp));
          subjectEnd := Qc_of_Z (Z.max (sbjct_start hsp) (sbjct_end hsp)) |}.

(** Modelled from the spec: the walk of section 4.1 over the merged
    intervals, in ascending order and without zero-width segments. *)
Definition interval_le (a b : Qc * Qc) : bool := Qc_leb (fst a) (fst b).

(** Modelled from the spec: the merge of adjacent and overlapping
    intervals of [dark.intervals], on intervals in order of their start. *)
Fixpoint merge_into (cur : Qc * Qc) (l : list (Qc * Qc)) : list (Qc * Qc) :=
  match l with
  | [] => [cur]
  | b :: l =>
      if Qc_leb (fst b) (snd cur)
      then merge_into (fst cur, if Qc_leb (snd cur) (snd b) then snd b else snd cur) l
      else cur :: merge_into b l
  end.

(** Modelled from the spec: the merged intervals of a [ReadIntervals]. *)
Definition merge_intervals (l : list (Qc * Qc)) : list (Qc * Qc) :=
  match l with
  | [] => []
  | a :: l => merge_into a l
  end.

(** Modelled from the spec: the segments of [ReadIntervals.walk] from
    [pos] on, alternating between empty and covered. *)
Fixpoint walk_from (pos stop : Qc) (l : list (Qc * Qc))
  : list (IntervalType * (Qc * Qc)) :=
  match l with
  | [] => if bool_decide (pos < stop)%Qc then [(EMPTY, (pos, stop))] else []
  | (a, b) :: l =>
      (if bool_decide (pos < a)%Qc then [(EMPTY, (pos, a))] else [])
      ++ (if bool_decide (a < b)%Qc then [(COVERED, (a, b))] else [])
      ++ walk_from b stop l
  end.

(** Modelled from the spec: [ReadIntervals.walk]. *)
Definition walk_spec (r : ReadIntervals) : list (IntervalType * (Qc * Qc)) :=
  walk_from (Q2Qc 0) (Qc_of_Z (ri_length r))
    (merge_intervals (sort interval_le (ri_added r))).

(** Modelled from the spec: the adjuster of section 4.2 needs a logarithm
    to an arbitrary base; the examples take a linear axis and never call
    it, and this one leaves offsets as they are. *)
Definition adjustOffset_spec (a : OffsetAdjuster) (x : Qc) : Qc := x.

(** Modelled from the spec: [OffsetAdjuster.adjustNormalizedHSP], which
    adjusts the two query offsets. *)
Definition adjustNormalizedHSP_spec (a : OffsetAdjuster) (h : NormalizedHSP)
  : NormalizedHSP :=
  {| queryStart := adjustOffset_spec a (queryStart h);
     queryEnd := adjustOffset_spec a (queryEnd h);
     subjectStart := subjectStart h;
     subjectEnd := subjectEnd h |}.

(** Modelled from the spec: the title filter of section 4.4. A regular
    expression is taken literally: it matches the titles in which it
    occurs. *)
Definition occurs (pattern s : string) : bool :=
  match String.index 0 pattern s with
  | Some _ => true
  | None => false
  end.

(** Modelled from the spec: the title up to the first occurrence of the
    truncation marker of [dark.filter.TitleFilter]. *)
Definition truncated (marker : option string) (title : string) : string :=
  match marker with
  | None => title
  | Some m =>
      match String.index 0 m title with
      | Some i => String.substring 0 i title
      | None => title
      end
  end.

(** Modelled from the spec: membership of a title in the whitelist or the
    blacklist of [dark.filter.TitleFilter], when it is set. *)
Definition in_list (l : option (gset string)) (title : string) : bool :=
  match l with
  | Some s => bool_decide (title ∈ s)
  | None => false
  end.

(** Modelled from the spec: [TitleFilter.accept], in the order whitelist,
    blacklist, truncation, positive and negative expression. *)
Definition TitleFilter_decide_spec (f : TitleFilter) (title : string)
  : TitleFilterResult :=
  if in_list (tf_whitelist f) title then WHITELIST_ACCEPT
  else if in_list (tf_blacklist f) title then REJECT
  else if match truncateAfter f with
          | Some _ =>
              bool_decide
                (truncated (truncateAfter f) title ∈
                   (truncated (truncateAfter f) <$>
                      filter (fun t => in_list (tf_whitelist f) t = false
                                       ∧ in_list (tf_blacklist f) t = false)
                        (tf_asked f)))
          | None => false
          end
       then REJECT
       else if match positiveRegex f with
               | Some r => negb (occurs r title)
               | None => false
               end
            then REJECT
            else if match negativeRegex f with
                    | Some r => occurs r title
                    | None => false
                    end
                 then REJECT
                 else DEFAULT_ACCEPT.

(** Modelled from the spec: the hit-info filter of section 4.5, a
    conjunction of the thresholds that are set. *)
Definition within {A} (bound : option A) (test : A -> bool) : bool :=
  match bound with
  | Some b => test b
  | None => true
  end.

(** Modelled from the spec: the test of one statistic of a hit-info dict
    against a threshold of [dark.filter.HitInfoFilter]. *)
Definition at_most (x : option Qc) (bound : Qc) : bool :=
  match x with
  | Some x => Qc_leb x bound
  | None => false
  end.

(** Modelled from the spec: [HitInfoFilter.accept]. *)
Definition HitInfoFilter_accept_spec (f : HitInfoFilter) (hitInfo : HitInfo) : bool :=
  within (hf_minSequenceLen f) (fun m => bool_decide (m <= hi_length hitInfo)%Z)
  && within (hf_maxSequenceLen f) (fun m => bool_decide (hi_length hitInfo <= m)%Z)
  && within (hf_minMatchingReads f) (fun m => bool_decide (m <= readCount hitInfo))
  && within (hf_maxMeanEValue f) (at_most (eMean hitInfo))
  && within (hf_maxMedianEValue f) (at_most (eMedian hitInfo))
  && within (hf_withEBetterThan f) (at_most (eMin hitInfo)).

(** Modelled from the spec: the source of randomness of section 9, as a
    fixed sequence of draws from [[a, b)]. *)
Definition uniform_spec (n : nat) (a b : Qc) : Qc :=
  (a + (b - a) * Q2Qc (Z.of_nat (n mod 16) # 16)%Q)%Qc.

(** Modelled from the spec: the mean of the scores recorded for a title,
    taken exactly; [numpy.mean] gives the nearest it can reach in floating
    point. *)
Definition np_mean_spec (l : list Qc) : Qc :=
  (sum_Qc l / Qc_of_nat (length l))%Qc.

(** Modelled from the spec: the median of the scores recorded for a title,
    taken exactly: the middle element of the sorted list, or the mean of
    the two middle elements. *)
Definition np_median_spec (l : list Qc) : Qc :=
  let s := sort Qc_leb l in
  let n := length l in
  if Nat.even n
  then ((nth (n / 2 - 1) s (Q2Qc 0) + nth (n / 2) s (Q2Qc 0)) / qc 2 1)%Qc
  else nth (n / 2) s (Q2Qc 0).

(** Modelled from the spec: the collaborators of [dark/blast.py] that are
    not part of this development, together. *)
Definition specEnv : Env :=
  {| normalizeHSP := normalizeHSP_spec;
     walk := walk_spec;
     adjustOffset := adjustOffset_spec;
     adjustNormalizedHSP := adjustNormalizedHSP_spec;
     TitleFilter_decide := TitleFilter_decide_spec;
     HitInfoFilter_accept := HitInfoFilter_accept_spec;
     log10 := log10_floor;
     np_mean := np_mean_spec;
     np_median := np_median_spec;
     uniform := uniform_spec |}.

(** ** Inputs of the examples *)

Definition hspOf (e : Qc) : HSP :=
  {| expect := e; frame := (1, 1)%Z;
     query_start := 1; query_end := 10; sbjct_start := 1; sbjct_end := 10 |}.

Definition hit (t : string) (len : Z) (es : list Qc) : Alignment :=
  {| title := t; al_length := len; hsps := hspOf <$> es |}.

Definition noFilter : FilterParams :=
  {| whitelist := None; blacklist := None;
     minSequenceLen := None; maxSequenceLen := None;
     minMatchingReads := None; maxMeanEValue := None;
     maxMedianEValue := None; withEBetterThan := None;
     titleRegex := None; negativeTitleRegex := None;
     truncateTitlesAfter := None |}.

Definition plotDefaults : PlotParams :=
  {| eCutoff := None; logBase := qc 11 10; logLinearXAxis := false;
     maxHspsPerHit := None; maxStop := None; minStart := None;
     randomizeZeroEValues := false; rankEValues := false |}.

Definition blastOf (rs : list BlastRecord) (reads : list string)
    (lim : option nat) : BlastRecords :=
  {| blastFile := rs; fastaFile := reads; limit := lim; _length := 0 |}.

Definition emptyWorld : World := {| heap := ∅; draws := 0 |}.

(** Two reads hit the title T, with best e-values 0.01 and 0.0001. *)
Definition twoReads : BlastRecords :=
  blastOf [ {| alignments := [hit "T" 100 [qc 1 100]] |};
            {| alignments := [hit "T" 100 [qc 1 10000]] |} ]
          ["ACGTACGTAC"; "ACGTACGTACGT"] None.

(** One read of two requested, and a FASTA file of two sequences. *)
Definition oneOfTwo : BlastRecords :=
  blastOf [ {| alignments := [hit "T" 100 [qc 1 100]] |} ]
          ["ACGTACGTAC"; "ACGTACGTACGT"] (Some 2).

(** The same files, read without a limit. *)
Definition oneOfTwoNoLimit : BlastRecords :=
  blastOf (blastFile oneOfTwo) (fastaFile oneOfTwo) None.

(** Both passes, from an empty store: [filterHits] on the records, then
    [computePlotInfo] on its result. *)
Definition bothPasses `{Env} (p : FilterParams) (pp : PlotParams)
    (blast : BlastRecords) : (Error + unit) * (BlastHits * World) :=
  match BlastRecords_filterHits p blast emptyWorld with
  | (inr blastHits, w) => computePlotInfo pp (blastHits, w)
  | (inl e, w) => (inl e, (BlastHits_new blast, w))
  end.

(** The plot info of a title, read through [self.titles]. *)
Definition plotInfoOf (self : BlastHits) (w : World) (t : string)
  : option PlotInfo :=
  l ← titles self !! t; hitInfo ← heap w !! l; plotInfo hitInfo.

(** Every reference held by [self.titles] names a dict of the store. *)
Definition wellFormed (self : BlastHits) (w : World) : Prop :=
  ∀ t l, titles self !! t = Some l → is_Some (heap w !! l).

(** The first pass over [twoReads], from an empty store. *)
Definition firstPass : (Error + BlastHits) * World :=
  @BlastRecords_filterHits specEnv noFilter twoReads emptyWorld.

Definition hitsOfTwoReads : BlastHits :=
  match firstPass.1 with
  | inr blastHits => blastHits
  | inl _ => BlastHits_new twoReads
  end.

Definition worldOfTwoReads : World := firstPass.2.

(** ** Notions used by the statements *)

(** The test under which a summarized title is handed to [addHit]. *)
Definition retained `{Env} (hitInfoFilter : HitInfoFilter) (summary : HitInfo)
  : Prop :=
  titleFilterResult summary = Some WHITELIST_ACCEPT
  ∨ HitInfoFilter_accept hitInfoFilter summary = true.

(** The alignments in the order of the two nested loops of the first
    pass, each with the index of its read. *)
Definition alignmentsOf (rs : list BlastRecord) : list (nat * Alignment) :=
  flat_map (fun '(readNum, record) => pair readNum <$> alignments record)
    (enumerate rs).

Definition addAlignments `{Env} (p : FilterParams) (l : list (nat * Alignment))
  : M Aggregation unit :=
  forM l (fun '(readNum, alignment) => addAlignment p readNum alignment).

(** What holds of every dict of [result] during the first pass. *)
Definition accumulating (p : FilterParams) (r : gmap string HitInfo) : Prop :=
  ∀ t hitInfo, r !! t = Some hitInfo →
    ∃ evs, eValues hitInfo = Some evs
      ∧ evs ≠ []
      ∧ readCount hitInfo = length evs
      ∧ lengthElided p (hi_length hitInfo) = false
      ∧ is_Some (titleFilterResult hitInfo)
      ∧ plotInfo hitInfo = None.

(** The dict that the loop body works on: the one of [result], or a new
    one when the title is not in [result] and its length is within the
    bounds. *)
Definition found `{Env} (p : FilterParams) (st : Aggregation) (a : Alignment)
    (hitInfo : HitInfo) : Prop :=
  result st !! title a = Some hitInfo
  ∨ (result st !! title a = None
     ∧ lengthElided p (al_length a) = false
     ∧ hitInfo = newHitInfo (al_length a)
                   (TitleFilter_decide (titleFilter st) (title a))).

Definition startOf (p : FilterParams) : Aggregation :=
  {| result := ∅; titleFilter := TitleFilter_new p |}.

(** Two reads hit T; the first alignment reports a subject length of 5,
    the second a subject length of 50. *)
Definition lengthsDiffer : BlastRecords :=
  blastOf [ {| alignments := [hit "T" 5 [qc 1 100]] |};
            {| alignments := [hit "T" 50 [qc 1 10000]] |} ]
          ["ACGTACGTAC"; "ACGTACGTACGT"] None.

Definition atLeast10 : FilterParams :=
  {| whitelist := None; blacklist := None;
     minSequenceLen := Some 10%Z; maxSequenceLen := None;
     minMatchingReads := None; maxMeanEValue := None;
     maxMedianEValue := None; withEBetterThan := None;
     titleRegex := None; negativeTitleRegex := None;
     truncateTitlesAfter := None |}.

(** The dict stored for a title by a run of [filterHits]. *)
Definition storedFor (run : (Error + BlastHits) * World) (t : string)
  : option HitInfo :=
  match run.1 with
  | inr blastHits => l ← titles blastHits !! t; heap run.2 !! l
  | inl _ => None
  end.

Global Instance Assertion_eq_dec : EqDecision Assertion.
Proof. solve_decision. Defined.

Global Instance Error_eq_dec : EqDecision Error.
Proof. solve_decision. Defined.

(** One read hits T with two HSPs, of e-values 1e-10 and 1e-3. *)
Definition twoHsps : BlastRecords :=
  blastOf [ {| alignments := [hit "T" 100 [qc 1 10000000000; qc 1 1000]] |} ]
          ["ACGTACGTAC"] None.

(** Two reads hit T: the first with e-value 0.0, the second with 1e-3. *)
Definition zeroThenHit : BlastRecords :=
  blastOf [ {| alignments := [hit "T" 100 [Q2Qc 0]] |};
            {| alignments := [hit "T" 100 [qc 1 1000]] |} ]
          ["ACGTACGTAC"; "ACGTACGTACGT"] None.

(** One read hits T with a single HSP of e-value 0.0. *)
Definition onlyZero : BlastRecords :=
  blastOf [ {| alignments := [hit "T" 100 [Q2Qc 0]] |} ] ["ACGTACGTAC"] None.

(** Three reads hit T, with e-values 1e-3, 0.0 and 1e-10. *)
Definition threeReads : BlastRecords :=
  blastOf [ {| alignments := [hit "T" 100 [qc 1 1000]] |};
            {| alignments := [hit "T" 100 [Q2Qc 0]] |};
            {| alignments := [hit "T" 100 [qc 1 10000000000]] |} ]
          ["ACGTACGTAC"; "ACGTACGTACGT"; "ACGTACGTACGTAC"] None.

Definition plotRanked : PlotParams :=
  {| eCutoff := None; logBase := qc 11 10; logLinearXAxis := false;
     maxHspsPerHit := None; maxStop := None; minStart := None;
     randomizeZeroEValues := false; rankEValues := true |}.

Definition plotRandomized : PlotParams :=
  {| eCutoff := None; logBase := qc 11 10; logLinearXAxis := false;
     maxHspsPerHit := None; maxStop := None; minStart := None;
     randomizeZeroEValues := true; rankEValues := false |}.

(** The plot info of a title after a run of [computePlotInfo]. *)
Definition plotOf (run : (Error + unit) * (BlastHits * World)) (t : string)
  : option PlotInfo :=
  plotInfoOf run.2.1 run.2.2 t.

(** The converted e-values [1, ..., n], as ranks are stored. *)
Definition ranks (n : nat) : list (option Qc) :=
  (λ rank, Some (Qc_of_nat rank)) <$> seq 1 n.

(** What [_convertEValuesToRanks] establishes of a plot info. *)
Definition ranked (pi : PlotInfo) : Prop :=
  convertedE <$> items pi = ranks (length (items pi))
  ∧ minE pi = Some (Qc_of_nat 1)
  ∧ maxE pi = Some (Qc_of_nat (length (items pi)))
  ∧ maxEIncludingRandoms pi = Some (Qc_of_nat (length (items pi)))
  ∧ zeroEValueFound pi = false.

(** The number of items among the first [n] whose converted e-value is
    pending, that is [None]. *)
Fixpoint pendingAmong (n : nat) (items : list Item) : nat :=
  match n, items with
  | S n, item :: items =>
      match convertedE item with
      | None => S (pendingAmong n items)
      | Some _ => pendingAmong n items
      end
  | _, _ => 0
  end.

(** The first pass over [threeReads], and the second with ranks. *)
Definition passOfThreeReads : (Error + BlastHits) * World :=
  @BlastRecords_filterHits specEnv noFilter threeReads emptyWorld.

Definition hitsOfThreeReads : BlastHits :=
  match passOfThreeReads.1 with
  | inr blastHits => blastHits
  | inl _ => BlastHits_new threeReads
  end.

Definition rankedRun : (Error + unit) * (BlastHits * World) :=
  @computePlotInfo specEnv plotRanked (hitsOfThreeReads, passOfThreeReads.2).

(** Two runs of [computePlotInfo] in succession on the hits of
    [threeReads], with [randomizeZeroEValues=True]. *)
Definition randomRun1 : (Error + unit) * (BlastHits * World) :=
  @computePlotInfo specEnv plotRandomized (hitsOfThreeReads, passOfThreeReads.2).

Definition randomRun2 : (Error + unit) * (BlastHits * World) :=
  @computePlotInfo specEnv plotRandomized randomRun1.2.

(** Two runs in succession with the default parameters. *)
Definition plainRun1 : (Error + unit) * (BlastHits * World) :=
  @computePlotInfo specEnv plotDefaults (hitsOfThreeReads, passOfThreeReads.2).

(** The references that [self.titles] holds. *)
Definition refsOf (self : BlastHits) : list nat := (map_to_list (titles self)).*2.

(** [w'] is [w] but for the plot info of the dicts named by [L]. *)
Definition plotInfoOnly (L : list nat) (w w' : World) : Prop :=
  draws w' = draws w
  ∧ ∀ l, heap w' !! l = heap w !! l
         ∨ (l ∈ L
            ∧ set_plotInfo None <$> heap w' !! l
              = set_plotInfo None <$> heap w !! l).

(** ** The remaining methods of [dark/blast.py] *)

(** [BlastRecords.__len__] *)
Definition BlastRecords_len (self : BlastRecords) : nat := _length self.

(** [BlastHits.__len__] *)
Definition BlastHits_len (self : BlastHits) : nat := size (titles self).

(** The title filter after it has been asked about the titles [ts], in
    that order. *)
Definition askedAll (ts : list string) (f : TitleFilter) : TitleFilter :=
  foldl (λ f t, TitleFilter_asked t f) f ts.

(** [(v1, title1) <= (v2, title2)] on the keys that [sortTitles] makes for
    [eMin], [eMean] and [eMedian]; Python 2 compares [str] values by the
    codes of their characters. *)
Definition keyed_le (a b : Qc * string) : bool :=
  bool_decide (a.1 < b.1)%Qc
  || (bool_decide (a.1 = b.1) && String.leb a.2 b.2).

(** [compare(title1, title2) <= 0] for the function that [makeCmp] returns:
    in reverse on the attribute, then ascending on the title. *)
Definition makeCmp_le (a b : Z * string) : bool :=
  bool_decide (b.1 < a.1)%Z
  || (bool_decide (a.1 = b.1) && String.leb a.2 b.2).

(** [hitInfo[name]] for one of the summary statistics. *)
Definition statOf (name : string) (x : option Qc) : Error + Qc :=
  match x with
  | Some v => inr v
  | None => inl (KeyError name)
  end.

(** The titles of [entries], each with the attribute that it is sorted
    on, read from its dict. *)
Fixpoint decorate {K} (attr : HitInfo → Error + K) (w : World)
    (entries : list (string * nat)) : Error + list (K * string) :=
  match entries with
  | [] => inr []
  | (t, l) :: entries =>
      match deref l w with
      | (inl e, _) => inl e
      | (inr hitInfo, _) =>
          match attr hitInfo with
          | inl e => inl e
          | inr k =>
              match decorate attr w entries with
              | inl e => inl e
              | inr ks => inr ((k, t) :: ks)
              end
          end
      end
  end.

(** [sorted(self.titles.iterkeys(), ...)] on an attribute. *)
Definition sortedOn {K} (le : K * string → K * string → bool)
    (attr : HitInfo → Error + K) (self : BlastHits) (w : World)
  : Error + list string :=
  match decorate attr w (map_to_list (titles self)) with
  | inl e => inl e
  | inr ks => inr (sort le ks).*2
  end.

Definition sortTitles (by_ : string) (self : BlastHits) (w : World)
  : Error + list string :=
  if decide (by_ = "eMin")
  then sortedOn keyed_le (λ h, statOf "eMin" (eMin h)) self w
  else if decide (by_ = "eMean")
  then sortedOn keyed_le (λ h, statOf "eMean" (eMean h)) self w
  else if decide (by_ = "eMedian")
  then sortedOn keyed_le (λ h, statOf "eMedian" (eMedian h)) self w
  else if decide (by_ = "readCount")
  then sortedOn makeCmp_le (λ h, inr (Z.of_nat (readCount h))) self w
  else if decide (by_ = "length")
  then sortedOn makeCmp_le (λ h, inr (hi_length h)) self w
  else if decide (by_ = "title")
  then inr (sort String.leb (map_to_list (titles self)).*1)
  else inl ValueError.

(** The statistic that [sortTitles] sorts on, by its name. *)
Definition statNamed (name : string) (h : HitInfo) : option Qc :=
  if decide (name = "eMin") then eMin h
  else if decide (name = "eMean") then eMean h
  else if decide (name = "eMedian") then eMedian h
  else None.

(** The count that [sortTitles] sorts on, by its name. *)
Definition countNamed (name : string) (h : HitInfo) : Z :=
  if decide (name = "readCount") then Z.of_nat (readCount h) else hi_length h.

(** Read 0 hits B and A, read 1 hits B. *)
Definition twoTitles : BlastRecords :=
  blastOf [ {| alignments := [hit "B" 200 [qc 1 1000]; hit "A" 100 [qc 1 10000000000]] |};
            {| alignments := [hit "B" 200 [qc 1 100000]] |} ]
          ["ACGTACGTAC"; "ACGTACGTACGT"] None.

Definition passOfTwoTitles : (Error + BlastHits) * World :=
  @BlastRecords_filterHits specEnv noFilter twoTitles emptyWorld.

Definition hitsOfTwoTitles : BlastHits :=
  match passOfTwoTitles.1 with
  | inr blastHits => blastHits
  | inl _ => BlastHits_new twoTitles
  end.

(** What every dict of [result] holds about the alignments met so far in
    the first pass, [l] being those alignments with the index of their
    read. *)
Definition sourced (l : list (nat * Alignment)) (r : gmap string HitInfo) : Prop :=
  ∀ t h, r !! t = Some h →
    readNums h ≠ ∅
    ∧ size (readNums h) ≤ readCount h
    ∧ (∀ n, n ∈ readNums h → ∃ a, (n, a) ∈ l ∧ title a = t)
    ∧ (∃ n a, (n, a) ∈ l ∧ title a = t ∧ hi_length h = al_length a)
    ∧ (∀ evs e, eValues h = Some evs → e ∈ evs →
         ∃ n a best rest,
           (n, a) ∈ l ∧ title a = t ∧ hsps a = best :: rest ∧ e = expect best).

(** [P] holds of the plot info, if there is one, of the dict named by [l]. *)
Definition holds (P : PlotInfo → Prop) (w : World) (l : nat) : Prop :=
  ∀ hitInfo pi, heap w !! l = Some hitInfo → plotInfo hitInfo = Some pi → P pi.



(** ** Notions of the plot information *)

(** The converted e-value of an item whose e-value is not zero. *)
Definition scored `{Env} (item : Item) : Prop :=
  expect (origHsp item) ≠ Q2Qc 0 →
  ∃ l, log10 (expect (origHsp item)) = Some l
       ∧ convertedE item = Some (qc (-1) 1 * l)%Qc.

(** What an item holds of the HSP and of the read it was made from. *)
Definition fromRead `{Env} (p : PlotParams) (fa : list string) (item : Item)
  : Prop :=
  (∃ read, fa !! readNum item = Some read ∧ queryLen item = String.length read)
  ∧ item_frame item = frame (origHsp item)
  ∧ (∀ c, eCutoff p = Some c → (expect (origHsp item) < c)%Qc)
  ∧ ∃ normalized,
      normalizeHSP (origHsp item) (queryLen item) = Some normalized
      ∧ (∀ m, minStart p = Some m → (m <= queryStart normalized)%Qc)
      ∧ (∀ m, maxStop p = Some m → (queryEnd normalized <= m)%Qc)
      ∧ (logLinearXAxis p = false → hsp item = normalized).

(** The HSP of an item lies between [minX] and [maxX]. *)
Definition inExtent (pi : PlotInfo) (item : Item) : Prop :=
  (minX pi <= queryStart (hsp item))%Qc ∧ (queryEnd (hsp item) <= maxX pi)%Qc.

(** What holds of a plot info during the loop over the tuples of
    [_getHsps]. *)
Definition walkedItems `{Env} (p : PlotParams) (fa : list string) (pi : PlotInfo)
  : Prop :=
  Forall (fromRead p fa) (items pi)
  ∧ (rankEValues p = false → Forall scored (items pi))
  ∧ (zeroEValueFound pi = false →
     Forall (λ item, is_Some (convertedE item)) (items pi))
  ∧ (logLinearXAxis p = false → Forall (inExtent pi) (items pi)).

Definition walked `{Env} (p : PlotParams) (fa : list string) (pi : PlotInfo)
  : Prop :=
  walkedItems p fa pi ∧ length (items pi) ≤ hspTotal pi.

(** What holds of a plot info after the last loop. *)
Definition finished `{Env} (p : PlotParams) (fa : list string) (pi : PlotInfo)
  : Prop :=
  Forall (fromRead p fa) (items pi)
  ∧ (rankEValues p = false → Forall scored (items pi))
  ∧ Forall (λ item, is_Some (convertedE item)) (items pi)
  ∧ Forall (inExtent pi) (items pi)
  ∧ length (items pi) ≤ hspTotal pi.

(** An item after the zero e-values are given a value: as it was, or with
    the value that replaces [None]. *)
Definition resolves (a b : Item) : Prop :=
  (is_Some (convertedE a) ∧ b = a)
  ∨ (convertedE a = None ∧ ∃ c, b = set_convertedE (Some c) a).

(** A run with a log-linear X axis, an e-value cutoff and at most one HSP
    per hit. *)
Definition plotLogLinear : PlotParams :=
  {| eCutoff := Some (qc 1 100); logBase := qc 11 10; logLinearXAxis := true;
     maxHspsPerHit := Some 1; maxStop := None; minStart := None;
     randomizeZeroEValues := false; rankEValues := false |}.

Definition logLinearRun : (Error + unit) * (BlastHits * World) :=
  @computePlotInfo specEnv plotLogLinear (hitsOfThreeReads, passOfThreeReads.2).

(** The plot info of a title after a run, an empty one if there is none. *)
Definition plotInfoAfter (run : (Error + unit) * (BlastHits * World))
    (t : string) : PlotInfo :=
  default (plotInfoDict plotDefaults 0) (plotOf run t).


(** The dict named by [l] has a plot info. *)
Definition plotted (w : World) (l : nat) : Prop :=
  ∃ hitInfo pi, heap w !! l = Some hitInfo ∧ plotInfo hitInfo = Some pi.

(** The number of HSPs in the tuples of [_getHsps] whose title names the
    dict [l]. *)
Fixpoint hspsFor (self : BlastHits) (l : nat)
    (gs : list (string * nat * list HSP)) : nat :=
  match gs with
  | [] => 0
  | (t, _, hs) :: gs =>
      (if decide (titles self !! t = Some l) then length hs else 0)
      + hspsFor self l gs
  end.

(** An item as the loop over the HSPs leaves it: pending for the e-value
    0.0, and with the score [-1.0 * log10(e)] otherwise. *)
Definition pendingOrScored `{Env} (item : Item) : Prop :=
  match convertedE item with
  | None => expect (origHsp item) = Q2Qc 0
  | Some c =>
      expect (origHsp item) ≠ Q2Qc 0
      ∧ ∃ l, log10 (expect (origHsp item)) = Some l ∧ c = (qc (-1) 1 * l)%Qc
  end.

(** The e-value of [a] is 0.0, or neither e-value is and the score
    [-1.0 * log10(e)] of [a] is at most that of [b]. *)
Definition rankedBefore `{Env} (a b : Item) : Prop :=
  expect (origHsp a) = Q2Qc 0
  ∨ (expect (origHsp a) ≠ Q2Qc 0 ∧ expect (origHsp b) ≠ Q2Qc 0
     ∧ ∃ la lb,
         log10 (expect (origHsp a)) = Some la
         ∧ log10 (expect (origHsp b)) = Some lb
         ∧ (qc (-1) 1 * la <= qc (-1) 1 * lb)%Qc).

(** The items carry their ranks and are in the order of their ranks. *)
Definition rankOrdered `{Env} (pi : PlotInfo) : Prop :=
  (∀ i a, items pi !! i = Some a → convertedE a = Some (Qc_of_nat (S i)))
  ∧ ∀ i j a b, i < j → items pi !! i = Some a → items pi !! j = Some b →
      rankedBefore a b.

(** * Properties *)

(** ** addHit *)

(** C9: for a title already present, [addHit] raises [KeyError] naming the
    title and leaves the instance as it was; for a title not present it
    stores the reference under the title and changes nothing else. *)
Theorem addHit_present_or_stored (self : BlastHits) (t : string) (hitInfo : nat) :
  (is_Some (titles self !! t) →
     addHit t hitInfo self = (inl (KeyError t), self))
  ∧ (titles self !! t = None →
     ∃ self', addHit t hitInfo self = (inr tt, self')
       ∧ titles self' !! t = Some hitInfo
       ∧ (∀ t', t' ≠ t → titles self' !! t' = titles self !! t')
       ∧ records self' = records self
       ∧ fasta self' = fasta self
       ∧ plotParams self' = plotParams self).
Proof.
  unfold addHit, bind, get, raise, put. split.
  - intros Hin. destruct (decide (is_Some (titles self !! t))); [done | contradiction].
  - intros Hnone.
    destruct (decide (is_Some (titles self !! t))) as [[x Hx] | _]; [congruence |].
    eexists. split; [reflexivity |]. simpl.
    split; [apply lookup_insert_eq |].
    split; [| done].
    intros t' Hne. by apply lookup_insert_ne.
Qed.

Lemma addHit_present_or_stored_witness :
  addHit "T" 7 (set_titles {[ "T" := 3 ]} (BlastHits_new twoReads))
    = (inl (KeyError "T"), set_titles {[ "T" := 3 ]} (BlastHits_new twoReads))
  ∧ ∃ self', addHit "T" 7 (BlastHits_new twoReads) = (inr tt, self')
      ∧ titles self' !! "T" = Some 7.
Proof.
  split.
  - apply (addHit_present_or_stored
             (set_titles {[ "T" := 3 ]} (BlastHits_new twoReads)) "T" 7).
    simpl. rewrite lookup_singleton_eq. by eexists.
  - destruct (addHit_present_or_stored (BlastHits_new twoReads) "T" 7)
      as [_ Hstore].
    destruct Hstore as (self' & Hrun & Hlook & _); [apply lookup_empty |].
    exists self'. by split.
Defined.

(** ** _readFASTA *)

Lemma records_upto_count (lim count : nat) (rs : list BlastRecord) :
  count <= lim →
  records_upto lim count rs
    = (take (lim - count) rs, Nat.min lim (count + length rs)).
Proof.
  revert count. induction rs as [| r rs IH]; intros count Hle; simpl.
  - f_equal; [by rewrite take_nil | lia].
  - destruct (decide (lim < S count)) as [Hlt | Hge].
    + replace (lim - count) with 0 by lia. simpl. f_equal. lia.
    + rewrite IH by lia.
      replace (lim - count) with (S (lim - S count)) by lia. simpl.
      f_equal. lia.
Qed.

(** The count that the first pass leaves in [_length]. *)
Lemma BlastRecords_records_length (self : BlastRecords) :
  _length (BlastRecords_records self).2
    = match limit self with
      | None => length (blastFile self)
      | Some lim => Nat.min lim (length (blastFile self))
      end.
Proof.
  unfold BlastRecords_records. destruct (limit self) as [lim |]; [| done].
  rewrite records_upto_count by lia. done.
Qed.

(** C8 (as stated, refuted): with a limit of two records, a BLAST file of
    one record and a FASTA file of two sequences, both passes succeed and
    the second pass goes on with two sequences for one record. Without the
    limit, the same two files fail the check. *)
Lemma readFASTA_proceeds_with_longer_fasta :
  (let '(r, (self, w)) := @bothPasses specEnv noFilter plotDefaults oneOfTwo in
   r = inr tt
   ∧ limit (records self) = Some 2
   ∧ _length (records self) = 1
   ∧ length <$> fasta self = Some 2)
  ∧ (@bothPasses specEnv noFilter plotDefaults oneOfTwoNoLimit).1
    = inl (AssertionError (MismatchedFiles 1 2)).
Proof. vm_compute. repeat split; reflexivity. Qed.

(** C8 (amended): without a limit, [_readFASTA] fails with an assertion
    that names both counts when the number of FASTA sequences differs from
    [_length], and returns the sequences otherwise; with a limit, it fails
    when there are fewer sequences than [_length], and otherwise returns the
    first [limit] sequences, however many that is. A failure is the
    failure of [computePlotInfo], which leaves [fasta] unset. *)
Theorem readFASTA_fails_closed `{Env} (self : BlastHits) :
  let counted := _length (records self) in
  let file := fastaFile (records self) in
  (limit (records self) = None → length file ≠ counted →
     _readFASTA self
       = inl (AssertionError (MismatchedFiles counted (length file))))
  ∧ (limit (records self) = None → length file = counted →
     _readFASTA self = inr file)
  ∧ (∀ lim, limit (records self) = Some lim → length file < counted →
     _readFASTA self = inl (AssertionError (MismatchedFiles lim (length file))))
  ∧ (∀ lim, limit (records self) = Some lim → counted <= length file →
     _readFASTA self = inr (take lim file))
  ∧ (∀ p w e, fasta self = None → _readFASTA self = inl e →
     ∃ st, computePlotInfo p (self, w) = (inl e, st) ∧ fasta st.1 = None).
Proof.
  intros counted file. unfold _readFASTA. fold counted file.
  repeat split.
  - intros -> Hne. destruct (decide (length file = counted)); [contradiction | done].
  - intros -> Heq. destruct (decide (length file = counted)); [done | contradiction].
  - intros lim -> Hlt. destruct (decide (counted <= length file)); [lia | done].
  - intros lim -> Hle. destruct (decide (counted <= length file)); [done | lia].
  - intros p w e Hnone Hfail. unfold computePlotInfo.
    destruct (resetPlotInfo self w) as [r w'] eqn:Hreset. simpl.
    rewrite Hnone.
    change (_readFASTA (set_plotParams (Some p) self)) with (_readFASTA self).
    unfold _readFASTA. fold counted file. rewrite Hfail.
    eexists. split; [reflexivity | done].
Qed.

Lemma readFASTA_fails_closed_witness :
  _readFASTA (BlastHits_new (set_length 3 twoReads))
    = inl (AssertionError (MismatchedFiles 3 2))
  ∧ _readFASTA (BlastHits_new (set_length 1 oneOfTwo))
    = inr ["ACGTACGTAC"; "ACGTACGTACGT"].
Proof.
  pose proof (@readFASTA_fails_closed specEnv
                (BlastHits_new (set_length 3 twoReads))) as (H1 & _).
  pose proof (@readFASTA_fails_closed specEnv
                (BlastHits_new (set_length 1 oneOfTwo))) as (_ & _ & _ & H4 & _).
  split.
  - apply H1; [reflexivity | simpl; lia].
  - apply (H4 2); [reflexivity | simpl; lia].
Defined.

(** ** BlastHits.filterHits *)

Section RefilterFacts.
Context `{Env}.

(** The loop of [BlastHits.filterHits] never raises on distinct titles
    whose references are in the store, and it only adds entries that it
    is given. *)
Lemma keepTitle_loop (hitInfoFilter : HitInfoFilter) (w : World)
    (entries : list (string * nat)) :
  NoDup entries.*1 →
  (∀ t l, (t, l) ∈ entries → is_Some (heap w !! l)) →
  ∀ (f : TitleFilter) (result : BlastHits),
    (∀ t, is_Some (titles result !! t) → t ∉ entries.*1) →
    ∃ f' result',
      forM entries (keepTitle hitInfoFilter w) (f, result) = (inr tt, (f', result'))
      ∧ (∀ t l, titles result' !! t = Some l →
           titles result !! t = Some l ∨ (t, l) ∈ entries)
      ∧ records result' = records result.
Proof.
  induction entries as [| [t l] entries IH]; intros Hnodup Hstore f result Hfresh.
  - exists f, result. split; [done |]. split; [by left | done].
  - simpl in Hnodup. apply NoDup_cons in Hnodup as [Hnotin Hnodup].
    assert (Hrest : ∀ t' l', (t', l') ∈ entries → is_Some (heap w !! l')).
    { intros t' l' Hin. apply (Hstore t' l'). by right. }
    assert (Hl : is_Some (heap w !! l)) by (apply (Hstore t l); left).
    destruct Hl as [d Hd].
    assert (Hnew : titles result !! t = None).
    { destruct (titles result !! t) eqn:Ht; [| done].
      exfalso. apply (Hfresh t); [by eexists | simpl; left]. }
    simpl. unfold bind.
    unfold keepTitle at 1. unfold TitleFilter_accept, bind, get, put, ret.
    set (f1 := TitleFilter_asked t f).
    set (kept := set_titles (<[t := l]> (titles result)) result).
    assert (Hkept : ∀ t', is_Some (titles kept !! t') → t' ∉ entries.*1).
    { intros t' [x Hx]. unfold kept in Hx. simpl in Hx.
      destruct (decide (t = t')) as [<- | Hne]; [done |].
      rewrite lookup_insert_ne in Hx by done.
      intros Hin. apply (Hfresh t'); [by eexists | simpl; by right]. }
    assert (Hskip : ∀ t', is_Some (titles result !! t') → t' ∉ entries.*1).
    { intros t' Hsome Hin. apply (Hfresh t' Hsome). simpl. by right. }
    assert (Hadd : addHit t l result = (inr tt, kept)).
    { unfold addHit, bind, get, put, raise.
      destruct (decide (is_Some (titles result !! t))) as [[x Hx] | _];
        [congruence | done]. }
    destruct (decide (TitleFilter_decide f t = WHITELIST_ACCEPT)) as [Hw | Hw].
    { rewrite Hadd.
      destruct (IH Hnodup Hrest f1 kept Hkept) as (f' & result' & Hrun & Hsub & Hrec).
      exists f', result'. split; [done |]. split; [| done].
      intros t' l' Hlook. destruct (Hsub t' l' Hlook) as [Hin | Hin]; [| right; by right].
      unfold kept in Hin. simpl in Hin.
      destruct (decide (t = t')) as [<- | Hne].
      - rewrite lookup_insert_eq in Hin. inversion Hin; subst. right; left.
      - rewrite lookup_insert_ne in Hin by done. by left. }
    destruct (decide (TitleFilter_decide f t = DEFAULT_ACCEPT)) as [Hd' | Hd'].
    { unfold deref. rewrite Hd.
      destruct (HitInfoFilter_accept hitInfoFilter d).
      - rewrite Hadd.
        destruct (IH Hnodup Hrest f1 kept Hkept) as (f' & result' & Hrun & Hsub & Hrec).
        exists f', result'. split; [done |]. split; [| done].
        intros t' l' Hlook. destruct (Hsub t' l' Hlook) as [Hin | Hin]; [| right; by right].
        unfold kept in Hin. simpl in Hin.
        destruct (decide (t = t')) as [<- | Hne].
        + rewrite lookup_insert_eq in Hin. inversion Hin; subst. right; left.
        + rewrite lookup_insert_ne in Hin by done. by left.
      - destruct (IH Hnodup Hrest f1 result Hskip) as (f' & result' & Hrun & Hsub & Hrec).
        exists f', result'. split; [done |]. split; [| done].
        intros t' l' Hlook. destruct (Hsub t' l' Hlook); [by left | right; by right]. }
    destruct (IH Hnodup Hrest f1 result Hskip) as (f' & result' & Hrun & Hsub & Hrec).
    exists f', result'. split; [done |]. split; [| done].
    intros t' l' Hlook. destruct (Hsub t' l' Hlook); [by left | right; by right].
Qed.

End RefilterFacts.

(** C7: [BlastHits.filterHits] returns a new instance whose entries are
    references held by [self] under the same titles, so the hit-info dicts
    are shared and not copied; the store and [self] are as before the
    call. *)
Theorem BlastHits_filterHits_shares `{Env} (p : FilterParams)
    (self : BlastHits) (w : World) :
  wellFormed self w →
  ∃ result,
    BlastHits_filterHits p self w = (inr result, w)
    ∧ (∀ t l, titles result !! t = Some l → titles self !! t = Some l)
    ∧ records result = records self.
Proof.
  intros Hwf. unfold BlastHits_filterHits.
  destruct (keepTitle_loop (mkHitInfoFilter true p) w (map_to_list (titles self)))
    with (f := TitleFilter_new p) (result := BlastHits_new (records self))
    as (f' & result' & Hrun & Hsub & Hrec).
  - apply NoDup_fst_map_to_list.
  - intros t l Hin. apply elem_of_map_to_list in Hin. by apply (Hwf t l).
  - intros t [x Hx]. simpl in Hx. by rewrite lookup_empty in Hx.
  - rewrite Hrun. exists result'. split; [done |]. split; [| done].
    intros t l Hlook. destruct (Hsub t l Hlook) as [Hin | Hin].
    + simpl in Hin. by rewrite lookup_empty in Hin.
    + by apply elem_of_map_to_list in Hin.
Qed.

Lemma BlastHits_filterHits_shares_witness :
  ∃ result,
    @BlastHits_filterHits specEnv noFilter hitsOfTwoReads worldOfTwoReads
      = (inr result, worldOfTwoReads)
    ∧ (∀ t l, titles result !! t = Some l → titles hitsOfTwoReads !! t = Some l)
    ∧ records result = records hitsOfTwoReads.
Proof.
  apply (@BlastHits_filterHits_shares specEnv noFilter hitsOfTwoReads worldOfTwoReads).
  assert (Htitles : titles hitsOfTwoReads = {[ "T" := 0 ]})
    by (vm_compute; reflexivity).
  intros t l Hl. rewrite Htitles in Hl.
  apply lookup_singleton_Some in Hl as [<- <-].
  vm_compute. eexists. reflexivity.
Defined.

(** The dict that [self] holds for T is the one the filtered instance
    holds: plot info computed on the filtered instance is seen through
    [self]. *)
Example filtered_instance_shares_dicts :
  match @BlastHits_filterHits specEnv noFilter hitsOfTwoReads worldOfTwoReads with
  | (inr result, w) =>
      match @computePlotInfo specEnv plotDefaults (result, w) with
      | (r, (result, w)) =>
          r = inr tt
          ∧ plotInfoOf hitsOfTwoReads worldOfTwoReads "T" = None
          ∧ length ∘ items <$> plotInfoOf hitsOfTwoReads w "T" = Some 2
      end
  | (inl _, _) => False
  end.
Proof. vm_compute. repeat split; reflexivity. Qed.

(** ** BlastRecords.filterHits: the second loop *)

Lemma forM_app {S A} (l1 l2 : list A) (body : A → M S unit) (s : S) :
  forM (l1 ++ l2) body s
    = match forM l1 body s with
      | (inr _, s') => forM l2 body s'
      | (inl e, s') => (inl e, s')
      end.
Proof.
  revert s. induction l1 as [| x l1 IH]; intros s; simpl; [done |].
  unfold bind. destruct (body x s) as [[e | []] s']; [done |]. apply IH.
Qed.

Section FinishFacts.
Context `{Env}.

Lemma retained_test (hitInfoFilter : HitInfoFilter) (summary : HitInfo) :
  bool_decide (titleFilterResult summary = Some WHITELIST_ACCEPT)
  || HitInfoFilter_accept hitInfoFilter summary = true
  ↔ retained hitInfoFilter summary.
Proof.
  unfold retained. rewrite orb_true_iff, bool_decide_eq_true. done.
Qed.

Lemma finishTitle_loop (hitInfoFilter : HitInfoFilter)
    (entries : list (string * HitInfo)) :
  NoDup entries.*1 →
  (∀ t hitInfo, (t, hitInfo) ∈ entries → is_Some (eValues hitInfo ≫= λ evs,
      match py_min evs with inr m => Some m | inl _ => None end)) →
  ∀ (blastHits : BlastHits) (w : World),
    (∀ t, is_Some (titles blastHits !! t) → t ∉ entries.*1) →
    ∃ blastHits' w',
      forM entries (finishTitle hitInfoFilter) (blastHits, w)
        = (inr tt, (blastHits', w'))
      ∧ heap w ⊆ heap w'
      ∧ draws w' = draws w
      ∧ records blastHits' = records blastHits
      ∧ fasta blastHits' = fasta blastHits
      ∧ plotParams blastHits' = plotParams blastHits
      ∧ (∀ t l, titles blastHits !! t = Some l → titles blastHits' !! t = Some l)
      ∧ (∀ t l, titles blastHits' !! t = Some l →
           titles blastHits !! t = Some l
           ∨ ∃ hitInfo summary,
               (t, hitInfo) ∈ entries
               ∧ summarize hitInfo = inr summary
               ∧ retained hitInfoFilter summary
               ∧ heap w' !! l = Some (forget summary)
               ∧ heap w !! l = None)
      ∧ (∀ t hitInfo summary,
           (t, hitInfo) ∈ entries → summarize hitInfo = inr summary →
           retained hitInfoFilter summary → is_Some (titles blastHits' !! t)).
Proof.
  induction entries as [| [t hitInfo] entries IH];
    intros Hnodup Hsum blastHits w Hfresh.
  - exists blastHits, w. split; [done |]. repeat split; try done.
    + intros t l Hl. by left.
    + intros t hitInfo summary Hin. by apply elem_of_nil in Hin.
  - simpl in Hnodup. apply NoDup_cons in Hnodup as [Hnotin Hnodup].
    assert (Hrest : ∀ t' h', (t', h') ∈ entries → is_Some (eValues h' ≫= λ evs,
              match py_min evs with inr m => Some m | inl _ => None end)).
    { intros t' h' Hin. apply (Hsum t' h'). by right. }
    destruct (Hsum t hitInfo) as [m Hm]; [left |].
    destruct (eValues hitInfo) as [evs |] eqn:Hevs; [| done]. simpl in Hm.
    destruct (py_min evs) as [e | m'] eqn:Hmin; [done |]. inversion Hm; subst m'.
    assert (Hsummary : ∃ summary, summarize hitInfo = inr summary).
    { unfold summarize. rewrite Hevs, Hmin. by eexists. }
    destruct Hsummary as [summary Hsummary].
    assert (Hnew : titles blastHits !! t = None).
    { destruct (titles blastHits !! t) eqn:Ht; [| done].
      exfalso. apply (Hfresh t); [by eexists | simpl; left]. }
    simpl. unfold bind. unfold finishTitle at 1. rewrite Hsummary.
    destruct (bool_decide (titleFilterResult summary = Some WHITELIST_ACCEPT)
              || HitInfoFilter_accept hitInfoFilter summary) eqn:Hkeep.
    + apply retained_test in Hkeep.
      unfold alloc. set (l := fresh (dom (heap w))).
      assert (Hl : heap w !! l = None).
      { apply not_elem_of_dom. apply is_fresh. }
      set (w1 := {| heap := <[l := forget summary]> (heap w); draws := draws w |}).
      set (kept := set_titles (<[t := l]> (titles blastHits)) blastHits).
      assert (Hadd : addHit t l blastHits = (inr tt, kept)).
      { unfold addHit, bind, get, put, raise.
        destruct (decide (is_Some (titles blastHits !! t))) as [[x Hx] | _];
          [congruence | done]. }
      rewrite Hadd.
      destruct (IH Hnodup Hrest kept w1)
        as (bh' & w' & Hrun & Hsub & Hdraws & Hrec & Hfa & Hpp & Hmono & Hback & Hforth).
      { intros t' [x Hx]. unfold kept in Hx. simpl in Hx.
        destruct (decide (t = t')) as [<- | Hne]; [done |].
        rewrite lookup_insert_ne in Hx by done.
        intros Hin. apply (Hfresh t'); [by eexists | simpl; by right]. }
      exists bh', w'. split; [done |].
      assert (Hw1 : heap w ⊆ heap w1) by (by apply insert_subseteq).
      split; [by etrans |]. repeat split; try done.
      * intros t' l' Hl'. apply Hmono. unfold kept. simpl.
        destruct (decide (t = t')) as [<- | Hne]; [congruence |].
        by rewrite lookup_insert_ne.
      * intros t' l' Hl'. destruct (Hback t' l' Hl') as [Hin | Hin].
        -- unfold kept in Hin. simpl in Hin.
           destruct (decide (t = t')) as [<- | Hne].
           ++ rewrite lookup_insert_eq in Hin. inversion Hin; subst l'.
              right. exists hitInfo, summary. split; [left |].
              split; [done |]. split; [done |]. split; [| done].
              eapply lookup_weaken; [| exact Hsub].
              unfold w1. simpl. apply lookup_insert_eq.
           ++ rewrite lookup_insert_ne in Hin by done. by left.
        -- destruct Hin as (h' & s' & Hin & Hs' & Hret & Hst & Hnone).
           right. exists h', s'. split; [by right |].
           split; [done |]. split; [done |]. split; [done |].
           destruct (heap w !! l') eqn:Hwl; [| done].
           eapply lookup_weaken in Hwl; [| exact Hw1]. congruence.
      * intros t' h' s' Hin Hs' Hret.
        apply elem_of_cons in Hin as [Heq | Hin].
        -- inversion Heq; subst. exists l. apply Hmono. unfold kept. simpl.
           apply lookup_insert_eq.
        -- by apply (Hforth t' h' s').
    + assert (Hnot : ¬ retained hitInfoFilter summary).
      { intros Hret. apply retained_test in Hret. congruence. }
      destruct (IH Hnodup Hrest blastHits w)
        as (bh' & w' & Hrun & Hsub & Hdraws & Hrec & Hfa & Hpp & Hmono & Hback & Hforth).
      { intros t' Hsome Hin. apply (Hfresh t' Hsome). simpl. by right. }
      exists bh', w'. split; [done |]. repeat split; try done.
      * intros t' l' Hl'. destruct (Hback t' l' Hl') as [Hin | Hin]; [by left |].
        destruct Hin as (h' & s' & Hin & Hrest').
        right. exists h', s'. split; [by right | done].
      * intros t' h' s' Hin Hs' Hret.
        apply elem_of_cons in Hin as [Heq | Hin].
        -- inversion Heq; subst. congruence.
        -- by apply (Hforth t' h' s').
Qed.

End FinishFacts.

(** ** BlastRecords.filterHits: the first loop *)

Lemma forM_fmap {S A B} (f : A → B) (l : list A) (body : B → M S unit) (s : S) :
  forM (f <$> l) body s = forM l (λ x, body (f x)) s.
Proof.
  revert s. induction l as [| x l IH]; intros s; simpl; [done |].
  unfold bind. destruct (body (f x) s) as [[e | []] s']; [done |]. apply IH.
Qed.

Section AggregateFacts.
Context `{Env}.

Lemma aggregate_alignmentsOf (p : FilterParams) (rs : list BlastRecord)
    (st : Aggregation) :
  aggregate p rs st = addAlignments p (alignmentsOf rs) st.
Proof.
  unfold aggregate, addAlignments, alignmentsOf.
  generalize (enumerate rs). intros l. revert st.
  induction l as [| [n r] l IH]; intros st; simpl; [done |].
  rewrite forM_app, forM_fmap. unfold bind.
  change (λ x : Alignment, addAlignment p n x) with (addAlignment p n).
  destruct (forM (alignments r) (addAlignment p n) st) as [[e | []] st']; [done |].
  apply IH.
Qed.

Lemma addAlignment_rejected (p : FilterParams) (n : nat) (a : Alignment)
    (st : Aggregation) :
  TitleFilter_decide (titleFilter st) (title a) = REJECT →
  addAlignment p n a st
    = (inr tt, {| result := result st;
                  titleFilter := TitleFilter_asked (title a) (titleFilter st) |}).
Proof.
  intros Hr. unfold addAlignment, TitleFilter_accept, bind, get, put, ret. simpl.
  rewrite Hr. done.
Qed.

Lemma addAlignment_elided (p : FilterParams) (n : nat) (a : Alignment)
    (st : Aggregation) :
  result st !! title a = None →
  lengthElided p (al_length a) = true →
  addAlignment p n a st
    = (inr tt, {| result := result st;
                  titleFilter := TitleFilter_asked (title a) (titleFilter st) |}).
Proof.
  intros Hnone Hel. unfold addAlignment, TitleFilter_accept, bind, get, put, ret.
  simpl. rewrite Hnone, Hel.
  by destruct (decide (TitleFilter_decide (titleFilter st) (title a) = REJECT)).
Qed.

Lemma addAlignment_recorded (p : FilterParams) (n : nat) (a : Alignment)
    (st : Aggregation) (hitInfo : HitInfo) (best : HSP) (rest : list HSP)
    (evs : list Qc) :
  TitleFilter_decide (titleFilter st) (title a) ≠ REJECT →
  found p st a hitInfo →
  hsps a = best :: rest →
  eValues hitInfo = Some evs →
  addAlignment p n a st
    = (inr tt,
       {| result := <[title a := recordHit n (expect best) evs hitInfo]> (result st);
          titleFilter := TitleFilter_asked (title a) (titleFilter st) |}).
Proof.
  intros Hr Hfound Hhsps Hevs.
  unfold addAlignment, TitleFilter_accept, bind, get, put, ret. simpl.
  destruct (decide (TitleFilter_decide (titleFilter st) (title a) = REJECT));
    [contradiction |].
  destruct Hfound as [Hin | (Hnone & Hel & ->)].
  - rewrite Hin, Hhsps, Hevs. unfold set_result. simpl.
    by rewrite insert_insert_eq.
  - rewrite Hnone, Hel, Hhsps. simpl in Hevs. inversion Hevs; subst evs.
    simpl. unfold set_result. simpl. by rewrite insert_insert_eq.
Qed.

(** Every run of the body that does not raise is one of the three above. *)
Lemma addAlignment_inr (p : FilterParams) (n : nat) (a : Alignment)
    (st st' : Aggregation) :
  addAlignment p n a st = (inr tt, st') →
  titleFilter st' = TitleFilter_asked (title a) (titleFilter st)
  ∧ ((result st' = result st
      ∧ (TitleFilter_decide (titleFilter st) (title a) = REJECT
         ∨ (result st !! title a = None
            ∧ lengthElided p (al_length a) = true)))
     ∨ (TitleFilter_decide (titleFilter st) (title a) ≠ REJECT
        ∧ ∃ hitInfo best rest evs,
            found p st a hitInfo
            ∧ hsps a = best :: rest
            ∧ eValues hitInfo = Some evs
            ∧ result st'
              = <[title a := recordHit n (expect best) evs hitInfo]> (result st))).
Proof.
  intros Hrun.
  destruct (decide (TitleFilter_decide (titleFilter st) (title a) = REJECT))
    as [Hr | Hr].
  { rewrite addAlignment_rejected in Hrun by done. inversion Hrun; subst st'.
    split; [done |]. left. split; [done | by left]. }
  destruct (result st !! title a) as [hitInfo |] eqn:Hlook.
  - destruct (hsps a) as [| best rest] eqn:Hhsps.
    { unfold addAlignment, TitleFilter_accept, bind, get, put, ret in Hrun.
      simpl in Hrun. rewrite Hlook, Hhsps in Hrun.
      destruct (decide (TitleFilter_decide (titleFilter st) (title a) = REJECT));
        [contradiction | discriminate]. }
    destruct (eValues hitInfo) as [evs |] eqn:Hevs.
    + rewrite (addAlignment_recorded p n a st hitInfo best rest evs) in Hrun;
        [| done | by left | done | done].
      inversion Hrun; subst st'. split; [done |]. right. split; [done |].
      exists hitInfo, best, rest, evs. split; [by left | done].
    + unfold addAlignment, TitleFilter_accept, bind, get, put, ret in Hrun.
      simpl in Hrun. rewrite Hlook, Hhsps, Hevs in Hrun.
      destruct (decide (TitleFilter_decide (titleFilter st) (title a) = REJECT));
        [contradiction | discriminate].
  - destruct (lengthElided p (al_length a)) eqn:Hel.
    { rewrite addAlignment_elided in Hrun by done. inversion Hrun; subst st'.
      split; [done |]. left. split; [done | by right]. }
    destruct (hsps a) as [| best rest] eqn:Hhsps.
    { unfold addAlignment, TitleFilter_accept, bind, get, put, ret in Hrun.
      simpl in Hrun. rewrite Hlook, Hel, Hhsps in Hrun.
      destruct (decide (TitleFilter_decide (titleFilter st) (title a) = REJECT));
        [contradiction | discriminate]. }
    rewrite (addAlignment_recorded p n a st
               (newHitInfo (al_length a)
                  (TitleFilter_decide (titleFilter st) (title a)))
               best rest []) in Hrun;
      [| done | right; done | done | done].
    inversion Hrun; subst st'. split; [done |]. right. split; [done |].
    eexists _, best, rest, []. split; [by right | done].
Qed.

Lemma accumulating_step (p : FilterParams) (n : nat) (a : Alignment)
    (st st' : Aggregation) :
  accumulating p (result st) →
  addAlignment p n a st = (inr tt, st') →
  accumulating p (result st').
Proof.
  intros Hinv Hrun.
  destruct (addAlignment_inr p n a st st' Hrun) as [_ [[-> _] | [Hr Hrec]]]; [done |].
  destruct Hrec as (hitInfo & best & rest & evs & Hfound & Hhsps & Hevs & ->).
  intros t h Hlook.
  destruct (decide (title a = t)) as [<- | Hne].
  - rewrite lookup_insert_eq in Hlook. inversion Hlook; subst h. clear Hlook.
    exists (evs ++ [expect best]). simpl. split; [done |].
    split; [by destruct evs |].
    destruct Hfound as [Hin | (Hnone & Hel & ->)].
    + destruct (Hinv _ _ Hin) as (evs' & Hevs' & _ & Hcount & Hlen & Htfr & Hpi).
      rewrite Hevs in Hevs'. inversion Hevs'; subst evs'.
      rewrite length_app. simpl. repeat split; [lia | done | done | done].
    + simpl in Hevs. inversion Hevs; subst evs. simpl.
      repeat split; [done | by eexists].
  - rewrite lookup_insert_ne in Hlook by done. by apply (Hinv t h).
Qed.

Lemma accumulating_pass (p : FilterParams) (l : list (nat * Alignment))
    (st st' : Aggregation) :
  accumulating p (result st) →
  addAlignments p l st = (inr tt, st') →
  accumulating p (result st').
Proof.
  revert st. induction l as [| [n a] l IH]; intros st Hinv Hrun.
  - unfold addAlignments in Hrun. simpl in Hrun. by inversion Hrun; subst.
  - unfold addAlignments in Hrun. simpl in Hrun. unfold bind in Hrun.
    destruct (addAlignment p n a st) as [[e | []] st1] eqn:Hstep; [done |].
    apply (IH st1); [| done]. by apply (accumulating_step p n a st).
Qed.

Lemma accumulating_start (p : FilterParams) : accumulating p (result (startOf p)).
Proof. intros t h Hlook. simpl in Hlook. by rewrite lookup_empty in Hlook. Qed.

End AggregateFacts.

(** ** Sorting and the summary statistics *)

Section SortFacts.
Context {A : Type} (le : A → A → bool).
Hypothesis le_total : ∀ x y, le x y = false → le y x = true.

Lemma insert_sorted_Permutation (x : A) (l : list A) :
  insert_sorted le x l ≡ₚ x :: l.
Proof.
  induction l as [| y l IH]; simpl; [done |].
  destruct (le x y); [done |]. rewrite IH. apply Permutation_swap.
Qed.

Lemma sort_Permutation (l : list A) : sort le l ≡ₚ l.
Proof.
  induction l as [| x l IH]; simpl; [done |].
  rewrite insert_sorted_Permutation. by rewrite IH.
Qed.

Lemma sort_length (l : list A) : length (sort le l) = length l.
Proof. apply Permutation_length, sort_Permutation. Qed.

Lemma insert_sorted_Sorted (x : A) (l : list A) :
  Sorted (λ a b, le a b = true) l →
  Sorted (λ a b, le a b = true) (insert_sorted le x l).
Proof.
  induction l as [| y l IH]; intros Hs; simpl.
  - by repeat constructor.
  - destruct (le x y) eqn:Hxy.
    + constructor; [done |]. by constructor.
    + apply Sorted_inv in Hs as [Hs Hhd].
      constructor; [by apply IH |].
      destruct l as [| z l]; simpl.
      * constructor. by apply le_total.
      * destruct (le x z).
        -- constructor. by apply le_total.
        -- constructor. by inversion Hhd.
Qed.

Lemma sort_Sorted (l : list A) : Sorted (λ a b, le a b = true) (sort le l).
Proof.
  induction l as [| x l IH]; simpl; [constructor |].
  by apply insert_sorted_Sorted.
Qed.

End SortFacts.

Lemma Qc_leb_total (x y : Qc) : Qc_leb x y = false → Qc_leb y x = true.
Proof.
  unfold Qc_leb. rewrite bool_decide_eq_false, bool_decide_eq_true.
  intros Hnle. apply Qclt_le_weak. by apply Qcnot_le_lt.
Qed.

Lemma key_le_total (x y : option Qc) : key_le x y = false → key_le y x = true.
Proof.
  destruct x as [x |], y as [y |]; simpl; try done.
  rewrite bool_decide_eq_false, bool_decide_eq_true.
  intros Hnle. apply Qclt_le_weak. by apply Qcnot_le_lt.
Qed.

Lemma py_min_least (evs : list Qc) (m : Qc) :
  py_min evs = inr m → m ∈ evs ∧ ∀ x, x ∈ evs → (m <= x)%Qc.
Proof.
  revert m. induction evs as [| x evs IH]; intros m Hmin; [done |].
  destruct evs as [| y evs].
  - simpl in Hmin. inversion Hmin; subst. split; [left |].
    intros z Hz. apply list_elem_of_singleton in Hz as ->. apply Qcle_refl.
  - change (py_min (x :: y :: evs))
      with (match py_min (y :: evs) with
            | inr m => inr (if bool_decide (m < x)%Qc then m else x)
            | inl e => inl e
            end) in Hmin.
    destruct (py_min (y :: evs)) as [e | m'] eqn:Hrest; [done |].
    destruct (IH m' eq_refl) as [Hin Hle].
    inversion Hmin; subst m. clear Hmin.
    destruct (bool_decide (m' < x)%Qc) eqn:Hlt.
    + apply bool_decide_eq_true in Hlt. split; [by right |].
      intros z Hz. apply elem_of_cons in Hz as [-> | Hz].
      * by apply Qclt_le_weak.
      * by apply Hle.
    + apply bool_decide_eq_false in Hlt. apply Qcnot_lt_le in Hlt.
      split; [left |].
      intros z Hz. apply elem_of_cons in Hz as [-> | Hz].
      * apply Qcle_refl.
      * eapply Qcle_trans; [exact Hlt | by apply Hle].
Qed.

Lemma py_min_nonempty (evs : list Qc) : evs ≠ [] → ∃ m, py_min evs = inr m.
Proof.
  induction evs as [| x evs IH]; intros Hne; [done |].
  destruct evs as [| y evs]; [by eexists |].
  destruct IH as [m Hm]; [done |].
  change (py_min (x :: y :: evs))
    with (match py_min (y :: evs) with
          | inr m => inr (if bool_decide (m < x)%Qc then m else x)
          | inl e => inl e
          end).
  rewrite Hm. by eexists.
Qed.

(** ** BlastRecords.filterHits: both loops *)

(** Equalities between closed terms, by evaluating their decision. *)
Ltac by_evaluation :=
  match goal with
  | |- ?P => apply (bool_decide_eq_true_1 P); vm_compute; reflexivity
  end.

Section FilterHitsFacts.
Context `{Env}.

Lemma summarize_accumulating (p : FilterParams) (r : gmap string HitInfo)
    (t : string) (hitInfo : HitInfo) :
  accumulating p r → r !! t = Some hitInfo →
  ∃ evs m,
    eValues hitInfo = Some evs ∧ evs ≠ [] ∧ py_min evs = inr m
    ∧ readCount hitInfo = length evs
    ∧ lengthElided p (hi_length hitInfo) = false
    ∧ plotInfo hitInfo = None
    ∧ summarize hitInfo
      = inr {| eValues := Some evs; hi_length := hi_length hitInfo;
               readCount := readCount hitInfo; readNums := readNums hitInfo;
               titleFilterResult := titleFilterResult hitInfo;
               eMean := Some (np_mean evs); eMedian := Some (np_median evs);
               eMin := Some m; plotInfo := None |}.
Proof.
  intros Hinv Hlook.
  destruct (Hinv t hitInfo Hlook) as (evs & Hevs & Hne & Hcount & Hel & _ & Hpi).
  destruct (py_min_nonempty evs Hne) as [m Hm].
  exists evs, m. repeat split; try done.
  unfold summarize. by rewrite Hevs, Hm, Hpi.
Qed.

(** When the first loop does not raise, neither does the second, and the
    titles of the result are the retained titles of [result], each with a
    new dict in the store. *)
Lemma BlastRecords_filterHits_run (p : FilterParams) (self : BlastRecords)
    (w : World) (st : Aggregation) :
  aggregate p (BlastRecords_records self).1 (startOf p) = (inr tt, st) →
  ∃ blastHits w',
    BlastRecords_filterHits p self w = (inr blastHits, w')
    ∧ accumulating p (result st)
    ∧ heap w ⊆ heap w'
    ∧ records blastHits = (BlastRecords_records self).2
    ∧ (∀ t l, titles blastHits !! t = Some l →
         ∃ hitInfo summary,
           result st !! t = Some hitInfo
           ∧ summarize hitInfo = inr summary
           ∧ retained (mkHitInfoFilter false p) summary
           ∧ heap w' !! l = Some (forget summary)
           ∧ heap w !! l = None)
    ∧ (∀ t hitInfo summary,
         result st !! t = Some hitInfo → summarize hitInfo = inr summary →
         retained (mkHitInfoFilter false p) summary →
         is_Some (titles blastHits !! t)).
Proof.
  intros Hagg.
  assert (Hinv : accumulating p (result st)).
  { rewrite aggregate_alignmentsOf in Hagg.
    eapply accumulating_pass; [apply accumulating_start | exact Hagg]. }
  unfold BlastRecords_filterHits.
  destruct (BlastRecords_records self) as [rs self'] eqn:Hrecs. simpl in Hagg.
  unfold startOf in Hagg. rewrite Hagg.
  destruct (finishTitle_loop (mkHitInfoFilter false p) (map_to_list (result st)))
    with (blastHits := BlastHits_new self') (w := w)
    as (bh' & w' & Hrun & Hsub & Hdraws & Hrec & Hfa & Hpp & Hmono & Hback & Hforth).
  - apply NoDup_fst_map_to_list.
  - intros t hitInfo Hin. apply elem_of_map_to_list in Hin.
    destruct (summarize_accumulating p _ t hitInfo Hinv Hin)
      as (evs & m & Hevs & _ & Hm & _).
    rewrite Hevs. simpl. rewrite Hm. by eexists.
  - intros t [x Hx]. simpl in Hx. by rewrite lookup_empty in Hx.
  - rewrite Hrun. exists bh', w'. split; [done |]. split; [done |].
    split; [done |]. split; [done |]. split.
    + intros t l Hl. destruct (Hback t l Hl) as [Hin | Hin].
      * simpl in Hin. by rewrite lookup_empty in Hin.
      * destruct Hin as (h & s & Hin & Hrest). exists h, s.
        split; [by apply elem_of_map_to_list | done].
    + intros t h s Hin Hs Hret. apply (Hforth t h s); [| done | done].
      by apply elem_of_map_to_list.
Qed.

End FilterHitsFacts.



(** C5 (as stated, refuted): an alignment that the title filter does not
    reject can be left out of the e-values. With a minimum length of 10,
    the first alignment of T gets [DEFAULT_ACCEPT] and has length 5: the
    loop body leaves [result] without an entry for T, and after the pass
    the dict of T has a read count of 1 and the minimum 0.0001 of the
    second alignment, though two alignments of T passed the title filter,
    with best e-values 0.01 and 0.0001. *)
Lemma skipped_alignment_adds_nothing :
  @TitleFilter_decide specEnv (titleFilter (startOf atLeast10)) "T" = DEFAULT_ACCEPT
  ∧ result (@addAlignment specEnv atLeast10 0 (hit "T" 5 [qc 1 100])
              (startOf atLeast10)).2 !! "T" = None
  ∧ @TitleFilter_decide specEnv
      (titleFilter (@addAlignment specEnv atLeast10 0 (hit "T" 5 [qc 1 100])
                      (startOf atLeast10)).2) "T" = DEFAULT_ACCEPT
  ∧ (λ stored, (readCount stored, eMin stored)) <$>
      storedFor (@BlastRecords_filterHits specEnv atLeast10 lengthsDiffer emptyWorld) "T"
    = Some (1, Some (qc 1 10000)).
Proof. repeat split; by_evaluation. Qed.

(** C5 (amended): an alignment that the title filter does not reject
    appends the e-value of its first HSP to the e-values of its title, adds
    one to the read count and adds the read number, and leaves the other
    titles alone, when its title is in [result] or its length is within the
    bounds; when its title is not in [result] and its length is outside the
    bounds, it changes nothing in [result]. And when the pass completes, for
    every returned title the read count is the number of e-values
    accumulated, the stored [eMin] is the least of them, and the stored
    [eMean] and [eMedian] are what [numpy.mean] and [numpy.median] return
    for them. *)
Theorem filterHits_records_best_evalue `{Env} (p : FilterParams) :
  (∀ n a st hitInfo best rest evs,
     TitleFilter_decide (titleFilter st) (title a) ≠ REJECT →
     found p st a hitInfo →
     hsps a = best :: rest →
     eValues hitInfo = Some evs →
     ∃ st' hitInfo',
       addAlignment p n a st = (inr tt, st')
       ∧ result st' !! title a = Some hitInfo'
       ∧ eValues hitInfo' = Some (evs ++ [expect best])
       ∧ readCount hitInfo' = S (readCount hitInfo)
       ∧ readNums hitInfo' = {[n]} ∪ readNums hitInfo
       ∧ hi_length hitInfo' = hi_length hitInfo
       ∧ (∀ t, t ≠ title a → result st' !! t = result st !! t))
  ∧ (∀ n a st,
       TitleFilter_decide (titleFilter st) (title a) ≠ REJECT →
       result st !! title a = None →
       lengthElided p (al_length a) = true →
       ∃ st', addAlignment p n a st = (inr tt, st') ∧ result st' = result st)
  ∧ (∀ self w st,
       aggregate p (BlastRecords_records self).1 (startOf p) = (inr tt, st) →
       ∃ blastHits w',
         BlastRecords_filterHits p self w = (inr blastHits, w')
         ∧ ∀ t l, titles blastHits !! t = Some l →
             ∃ hitInfo evs stored,
               result st !! t = Some hitInfo
               ∧ eValues hitInfo = Some evs
               ∧ evs ≠ []
               ∧ heap w' !! l = Some stored
               ∧ readCount stored = length evs
               ∧ (∃ m, eMin stored = Some m
                    ∧ m ∈ evs ∧ ∀ x, x ∈ evs → (m <= x)%Qc)
               ∧ eMean stored = Some (np_mean evs)
               ∧ eMedian stored = Some (np_median evs)).
Proof.
  split; [| split].
  - intros n a st hitInfo best rest evs Hr Hfound Hhsps Hevs.
    eexists _, _. split; [by apply (addAlignment_recorded p n a st hitInfo best rest evs) |].
    simpl. split; [apply lookup_insert_eq |]. repeat split.
    intros t Hne. by apply lookup_insert_ne.
  - intros n a st _ Hnone Hel. eexists.
    split; [by apply addAlignment_elided | done].
  - intros self w st Hagg.
    destruct (BlastRecords_filterHits_run p self w st Hagg)
      as (bh & w' & Hrun & Hinv & Hsub & Hrec & Hback & Hforth).
    exists bh, w'. split; [done |].
    intros t l Hl. destruct (Hback t l Hl) as (h & s & Hin & Hs & _ & Hst & _).
    destruct (summarize_accumulating p _ t h Hinv Hin)
      as (evs & m & Hevs & Hne & Hm & Hcount & _ & _ & Hsum).
    rewrite Hsum in Hs. inversion Hs; subst s.
    exists h, evs. eexists. split; [done |]. split; [done |]. split; [done |].
    split; [exact Hst |]. simpl. split; [done |].
    destruct (py_min_least evs m Hm) as [Hmin Hleast].
    split; [by exists m |]. done.
Qed.

(** Two records hit T with best e-values 0.01 and 0.0001: the aggregate
    for T has minimum 0.0001 and read count 2, and the mean 0.00505 when
    the mean is taken exactly. *)
Lemma filterHits_records_best_evalue_witness :
  (∃ st' hitInfo',
     @addAlignment specEnv noFilter 1 (hit "T" 100 [qc 1 10000])
         (@aggregate specEnv noFilter [ {| alignments := [hit "T" 100 [qc 1 100]] |} ]
            (startOf noFilter)).2
       = (inr tt, st')
     ∧ result st' !! "T" = Some hitInfo'
     ∧ eValues hitInfo' = Some [qc 1 100; qc 1 10000]
     ∧ readCount hitInfo' = 2)
  ∧ (stored ← (l ← titles hitsOfTwoReads !! "T"; heap worldOfTwoReads !! l);
     Some (eMin stored, eMean stored, readCount stored))
    = Some (Some (qc 1 10000), Some (qc 505 100000), 2).
Proof.
  split.
  - destruct (@filterHits_records_best_evalue specEnv noFilter) as [Hstep _].
    destruct (Hstep 1 (hit "T" 100 [qc 1 10000])
                (@aggregate specEnv noFilter
                   [ {| alignments := [hit "T" 100 [qc 1 100]] |} ]
                   (startOf noFilter)).2
                (recordHit 0 (qc 1 100) [] (newHitInfo 100 DEFAULT_ACCEPT))
                (hspOf (qc 1 10000)) [] [qc 1 100])
      as (st' & h' & Hrun & Hlook & Hevs & Hcount & _).
    + vm_compute. discriminate.
    + left. vm_compute. reflexivity.
    + reflexivity.
    + reflexivity.
    + exists st', h'. split; [exact Hrun |]. split; [exact Hlook |].
      split; [exact Hevs | exact Hcount].
  - by_evaluation.
Defined.

(** ** The length test of the first loop *)

Section LengthFacts.
Context `{Env}.

Lemma addAlignments_cons (p : FilterParams) (n : nat) (a : Alignment)
    (l : list (nat * Alignment)) (st : Aggregation) :
  addAlignments p ((n, a) :: l) st
    = match addAlignment p n a st with
      | (inr _, st') => addAlignments p l st'
      | (inl e, st') => (inl e, st')
      end.
Proof. done. Qed.

(** A dict of [result] is there from the start, or was created by an
    alignment of its title that passed both tests when the title was not
    in [result]; it has the length of that alignment. *)
Lemma created_in_pass (p : FilterParams) (l : list (nat * Alignment)) :
  ∀ st0 st, addAlignments p l st0 = (inr tt, st) →
  ∀ t hitInfo, result st !! t = Some hitInfo →
    (∃ hitInfo0, result st0 !! t = Some hitInfo0
       ∧ hi_length hitInfo0 = hi_length hitInfo)
    ∨ (∃ l1 n a l2 st1,
         l = l1 ++ (n, a) :: l2
         ∧ addAlignments p l1 st0 = (inr tt, st1)
         ∧ result st1 !! t = None
         ∧ title a = t
         ∧ TitleFilter_decide (titleFilter st1) t ≠ REJECT
         ∧ lengthElided p (al_length a) = false
         ∧ al_length a = hi_length hitInfo).
Proof.
  induction l as [| [n0 a0] l IH]; intros st0 st Hrun t hitInfo Hlook.
  - inversion Hrun; subst st. left. by exists hitInfo.
  - rewrite addAlignments_cons in Hrun.
    destruct (addAlignment p n0 a0 st0) as [[e | []] st0'] eqn:Hstep; [done |].
    destruct (IH st0' st Hrun t hitInfo Hlook) as [Hold | Hnew].
    + destruct Hold as (h0' & Hlook0' & Hlen).
      destruct (addAlignment_inr p n0 a0 st0 st0' Hstep)
        as [_ [[Hsame _] | [Hr Hrec]]].
      { left. exists h0'. by rewrite <- Hsame. }
      destruct Hrec as (h & best & rest & evs & Hfound & Hhsps & Hevs & Hres).
      rewrite Hres in Hlook0'.
      destruct (decide (title a0 = t)) as [Heq | Hne].
      * subst t. rewrite lookup_insert_eq in Hlook0'.
        inversion Hlook0'; subst h0'. simpl in Hlen.
        destruct Hfound as [Hin | (Hnone & Hel & Hh)].
        -- left. by exists h.
        -- right. exists [], n0, a0, l, st0. subst h. simpl in Hlen.
           repeat split; done.
      * rewrite lookup_insert_ne in Hlook0' by done. left. by exists h0'.
    + destruct Hnew as (l1 & n & a & l2 & st1 & -> & Hrun1 & Hrest).
      right. exists ((n0, a0) :: l1), n, a, l2, st1. split; [done |].
      split; [| done]. rewrite addAlignments_cons. by rewrite Hstep.
Qed.

Lemma addAlignment_keeps_length (p : FilterParams) (n : nat) (a : Alignment)
    (st st' : Aggregation) (r : Error + unit) (hitInfo : HitInfo) :
  result st !! title a = Some hitInfo →
  addAlignment p n a st = (r, st') →
  ∃ hitInfo', result st' !! title a = Some hitInfo'
    ∧ hi_length hitInfo' = hi_length hitInfo.
Proof.
  intros Hlook Hrun.
  unfold addAlignment, TitleFilter_accept, bind, get, put, ret in Hrun.
  simpl in Hrun. rewrite Hlook in Hrun.
  destruct (decide (TitleFilter_decide (titleFilter st) (title a) = REJECT)).
  { inversion Hrun; subst. by exists hitInfo. }
  destruct (hsps a) as [| best rest].
  { inversion Hrun; subst. simpl. rewrite lookup_insert_eq. by eexists. }
  destruct (eValues hitInfo) as [evs |].
  - inversion Hrun; subst. simpl. rewrite lookup_insert_eq. by eexists.
  - inversion Hrun; subst. simpl. rewrite lookup_insert_eq. by eexists.
Qed.

End LengthFacts.

(** C10 (as stated, refuted): with a minimum length of 10, the first
    alignment of T is not rejected by the title filter and has length 5;
    T is accumulated all the same, by the second alignment, and its stored
    length is 50. *)
Lemma length_test_is_repeated :
  head (alignmentsOf (BlastRecords_records lengthsDiffer).1)
    = Some (0, hit "T" 5 [qc 1 100])
  ∧ @TitleFilter_decide specEnv (TitleFilter_new atLeast10) "T" = DEFAULT_ACCEPT
  ∧ lengthElided atLeast10 5 = true
  ∧ hi_length <$>
      storedFor (@BlastRecords_filterHits specEnv atLeast10 lengthsDiffer emptyWorld) "T"
    = Some 50%Z.
Proof. vm_compute. repeat split; reflexivity. Qed.

(** C10 (amended): the length test comes before the retention of
    whitelisted titles and is made for every alignment whose title is not
    yet in [result]: such an alignment with a length outside the bounds is
    skipped whatever the title filter said, and an alignment whose title is
    in [result] leaves the stored length as it is. So the length stored for
    a returned title is within the bounds and is that of the alignment that
    created its dict, the first of that title to pass both tests; and a
    title whose alignments all have lengths outside the bounds is not
    returned. *)
Theorem length_test_before_retention `{Env} (p : FilterParams) :
  (∀ n a st,
     result st !! title a = None → lengthElided p (al_length a) = true →
     addAlignment p n a st
       = (inr tt, {| result := result st;
                     titleFilter := TitleFilter_asked (title a) (titleFilter st) |}))
  ∧ (∀ n a st st' r hitInfo,
       result st !! title a = Some hitInfo →
       addAlignment p n a st = (r, st') →
       ∃ hitInfo', result st' !! title a = Some hitInfo'
         ∧ hi_length hitInfo' = hi_length hitInfo)
  ∧ (∀ self w st,
       aggregate p (BlastRecords_records self).1 (startOf p) = (inr tt, st) →
       ∃ blastHits w',
         BlastRecords_filterHits p self w = (inr blastHits, w')
         ∧ (∀ t l, titles blastHits !! t = Some l →
              ∃ stored l1 n a l2 st1,
                heap w' !! l = Some stored
                ∧ lengthElided p (hi_length stored) = false
                ∧ alignmentsOf (BlastRecords_records self).1 = l1 ++ (n, a) :: l2
                ∧ addAlignments p l1 (startOf p) = (inr tt, st1)
                ∧ result st1 !! t = None
                ∧ title a = t
                ∧ TitleFilter_decide (titleFilter st1) t ≠ REJECT
                ∧ al_length a = hi_length stored)
         ∧ (∀ t,
              (∀ n a, (n, a) ∈ alignmentsOf (BlastRecords_records self).1 →
                 title a = t → lengthElided p (al_length a) = true) →
              titles blastHits !! t = None)).
Proof.
  split; [intros n a st; apply addAlignment_elided |].
  split; [intros n a st st' r hitInfo; apply addAlignment_keeps_length |].
  intros self w st Hagg.
  destruct (BlastRecords_filterHits_run p self w st Hagg)
    as (bh & w' & Hrun & Hinv & Hsub & Hrec & Hback & Hforth).
  exists bh, w'. split; [done |].
  rewrite aggregate_alignmentsOf in Hagg.
  assert (Hcreated : ∀ t l, titles bh !! t = Some l →
            ∃ stored l1 n a l2 st1,
              heap w' !! l = Some stored
              ∧ lengthElided p (hi_length stored) = false
              ∧ alignmentsOf (BlastRecords_records self).1 = l1 ++ (n, a) :: l2
              ∧ addAlignments p l1 (startOf p) = (inr tt, st1)
              ∧ result st1 !! t = None
              ∧ title a = t
              ∧ TitleFilter_decide (titleFilter st1) t ≠ REJECT
              ∧ al_length a = hi_length stored).
  { intros t l Hl. destruct (Hback t l Hl) as (h & s & Hin & Hs & _ & Hst & _).
    destruct (summarize_accumulating p _ t h Hinv Hin)
      as (evs & m & _ & _ & _ & _ & Hel & _ & Hsum).
    rewrite Hsum in Hs. inversion Hs; subst s. clear Hs.
    destruct (created_in_pass p _ _ _ Hagg t h Hin) as [Hold | Hnew].
    { destruct Hold as (h0 & Hh0 & _). simpl in Hh0.
      by rewrite lookup_empty in Hh0. }
    destruct Hnew as (l1 & n & a & l2 & st1 & Hsplit & Hrun1 & Hnone & Ht & Hr & _ & Hlen).
    eexists _, l1, n, a, l2, st1. split; [exact Hst |]. simpl.
    repeat split; done. }
  split; [exact Hcreated |].
  intros t Hall. destruct (titles bh !! t) as [l |] eqn:Hl; [| done].
  destruct (Hcreated t l Hl)
    as (stored & l1 & n & a & l2 & st1 & _ & Hel & Hsplit & _ & _ & Ht & _ & Hlen).
  assert (Helided : lengthElided p (al_length a) = true).
  { apply (Hall n a); [| done]. rewrite Hsplit. apply elem_of_app. right. left. }
  congruence.
Qed.

Lemma length_test_before_retention_witness :
  @addAlignment specEnv atLeast10 0 (hit "T" 5 [qc 1 100]) (startOf atLeast10)
    = (inr tt, {| result := ∅;
                  titleFilter := TitleFilter_asked "T" (TitleFilter_new atLeast10) |})
  ∧ ∃ blastHits w',
      @BlastRecords_filterHits specEnv atLeast10 lengthsDiffer emptyWorld
        = (inr blastHits, w')
      ∧ titles blastHits !! "no such title" = None.
Proof.
  destruct (@length_test_before_retention specEnv atLeast10) as (H1 & _ & H3).
  split.
  - apply (H1 0 (hit "T" 5 [qc 1 100]) (startOf atLeast10)); reflexivity.
  - destruct (H3 lengthsDiffer emptyWorld
                (@aggregate specEnv atLeast10 (BlastRecords_records lengthsDiffer).1
                   (startOf atLeast10)).2)
      as (bh & w' & Hrun & _ & Hnever).
    + vm_compute. reflexivity.
    + exists bh, w'. split; [exact Hrun |]. apply Hnever.
      intros n a Hin Ht. vm_compute in Hin.
      apply elem_of_cons in Hin as [Heq | Hin].
      * inversion Heq; subst. simpl in Ht. discriminate.
      * apply elem_of_cons in Hin as [Heq | Hin].
        -- inversion Heq; subst. simpl in Ht. discriminate.
        -- by apply elem_of_nil in Hin.
Defined.

(** ** computePlotInfo: converted e-values, [maxE] and [minE] *)

Section WalkFacts.
Context `{Env}.

(** While [firstItem] is true, a non-zero e-value overwrites both [maxE]
    and [minE]. *)
Lemma trackE_firstItem (convertedE : Qc) (pi : PlotInfo) :
  maxE (trackE true convertedE pi) = Some convertedE
  ∧ minE (trackE true convertedE pi) = Some convertedE.
Proof. done. Qed.

Lemma trackE_items (firstItem : bool) (c : Qc) (pi : PlotInfo) :
  items (trackE firstItem c pi) = items pi.
Proof.
  unfold trackE.
  by repeat match goal with
            | |- context [if ?b then _ else _] => destruct b
            end.
Qed.

Lemma trackX_items (normalized : NormalizedHSP) (pi : PlotInfo) :
  items (trackX normalized pi) = items pi.
Proof.
  unfold trackX.
  by repeat match goal with
            | |- context [if ?b then _ else _] => destruct b
            end.
Qed.

(** An HSP that is not skipped adds one item, whose converted e-value is
    [None] for the e-value 0.0 and [-1.0 * log10(e)] otherwise. *)
Lemma addHsp_item (p : PlotParams) (firstItem : bool) (queryLen readNum : nat)
    (hsp : HSP) (pi pi' : PlotInfo) :
  addHsp p firstItem queryLen readNum hsp pi = (inr tt, pi') →
  items pi' = items pi
  ∨ ∃ item,
      items pi' = items pi ++ [item]
      ∧ origHsp item = hsp
      ∧ match convertedE item with
        | None => expect hsp = Q2Qc 0
        | Some c =>
            expect hsp ≠ Q2Qc 0
            ∧ ∃ l, log10 (expect hsp) = Some l ∧ c = (qc (-1) 1 * l)%Qc
        end.
Proof.
  unfold addHsp. destruct (normalizeHSP hsp queryLen) as [normalized |]; [| done].
  destruct (_ || _).
  { intros Hrun. inversion Hrun; subst. by left. }
  unfold bind at 1.
  destruct ((if logLinearXAxis p then _ else ret tt) pi) as [[e | []] pi1] eqn:Hadd;
    [done |].
  assert (Hitems : items pi1 = items pi).
  { destruct (logLinearXAxis p).
    - unfold addInterval, bind, get, put, raise in Hadd.
      destruct (readIntervals pi); inversion Hadd; by subst.
    - by inversion Hadd; subst. }
  destruct (match eCutoff p with Some c => _ | None => false end).
  { intros Hrun. inversion Hrun; subst. by left. }
  unfold bind, modify, ret, raise.
  destruct (decide (expect hsp = Q2Qc 0)) as [Hzero | Hnz].
  - intros Hrun. inversion Hrun; subst pi'. right. eexists.
    split; [simpl; rewrite trackX_items; simpl; by rewrite Hitems | done].
  - destruct (log10 (expect hsp)) as [l |] eqn:Hlog; [| done].
    intros Hrun. inversion Hrun; subst pi'. right. eexists.
    split; [simpl; rewrite trackX_items, trackE_items; by rewrite Hitems |].
    split; [done |]. simpl. split; [done |]. by exists l.
Qed.

End WalkFacts.

(** C1 (the code on two inputs): the converted e-values of the items are
    [-log10] of the e-values, but [firstItem] stays true for every HSP of
    the first alignment of a title, so each of them overwrites both [maxE]
    and [minE]: with HSPs of e-values 1e-10 and 1e-3, [maxE] and [minE]
    are both 3, not 10 and 3. And when the first alignment of a title adds
    no non-zero item, [minE] stays [None]: with e-values 0.0 and then 1e-3,
    [maxE] is 3 and [minE] is [None]. *)
Theorem maxE_minE_follow_first_alignment :
  (@bothPasses specEnv noFilter plotDefaults twoHsps).1 = inr tt
  ∧ (λ pi, (convertedE <$> items pi, maxE pi, minE pi))
      <$> plotOf (@bothPasses specEnv noFilter plotDefaults twoHsps) "T"
    = Some ([Some (qc 10 1); Some (qc 3 1)], Some (qc 3 1), Some (qc 3 1))
  ∧ (@bothPasses specEnv noFilter plotDefaults zeroThenHit).1 = inr tt
  ∧ (λ pi, (maxE pi, minE pi))
      <$> plotOf (@bothPasses specEnv noFilter plotDefaults zeroThenHit) "T"
    = Some (Some (qc 3 1), None).
Proof. repeat split; by_evaluation. Qed.

(** ** computePlotInfo: zero e-values *)

Lemma Qc_of_nat_S (n : nat) : Qc_of_nat (S n) = (Qc_of_nat n + qc 1 1)%Qc.
Proof.
  unfold Qc_of_nat. rewrite Nat2Z.inj_succ, <- Z.add_1_r, Z2Qc_inj_add.
  f_equal.
Qed.

Lemma Qc_plus_of_nat_0 (m : Qc) : (m + Qc_of_nat 0)%Qc = m.
Proof.
  unfold Qc_of_nat. change (Z.of_nat 0) with 0%Z.
  rewrite Z2Qc_inj_0. apply Qcplus_0_r.
Qed.

(** With a number as [maxEIncludingRandoms], the pending items get the
    successive values above it, in list order, and no other item
    changes. *)
Lemma numberZeros_successive `{Env} (items : list Item) :
  ∀ m : Qc, ∃ items',
    numberZeros (Some m) items
      = inr (items', Some (m + Qc_of_nat (pendingAmong (length items) items))%Qc)
    ∧ length items' = length items
    ∧ ∀ i item, items !! i = Some item →
        items' !! i
          = Some match convertedE item with
                 | Some _ => item
                 | None =>
                     set_convertedE
                       (Some (m + Qc_of_nat (pendingAmong (S i) items))%Qc) item
                 end.
Proof.
  induction items as [| item items IH]; intros m.
  - exists []. split; [| done].
    change (pendingAmong (length []) []) with 0. by rewrite Qc_plus_of_nat_0.
  - cbn [numberZeros length pendingAmong].
    destruct (convertedE item) as [c |] eqn:Hc.
    + destruct (IH m) as (items' & Hrun & Hlen & Hat). rewrite Hrun.
      exists (item :: items'). split; [done |]. split; [simpl; by rewrite Hlen |].
      intros [| i] it Hit; simpl in Hit.
      * inversion Hit; subst it. by rewrite Hc.
      * exact (Hat i it Hit).
    + destruct (IH (m + qc 1 1)%Qc) as (items' & Hrun & Hlen & Hat). rewrite Hrun.
      assert (Hshift : ∀ k, (m + qc 1 1 + Qc_of_nat k)%Qc = (m + Qc_of_nat (S k))%Qc).
      { intros k. rewrite Qc_of_nat_S. ring. }
      exists (set_convertedE (Some (m + qc 1 1)%Qc) item :: items').
      split; [by rewrite Hshift |]. split; [simpl; by rewrite Hlen |].
      intros [| i] it Hit; simpl in Hit.
      * inversion Hit; subst it. rewrite Hc.
        change (pendingAmong 0 items) with 0.
        by rewrite <- Hshift, Qc_plus_of_nat_0.
      * change ((set_convertedE (Some (m + qc 1 1)%Qc) item :: items') !! S i)
          with (items' !! i).
        rewrite (Hat i it Hit).
        destruct (convertedE it); [done |]. by rewrite Hshift.
Qed.

(** C2 (the code on one input): a title whose only item has e-value 0.0
    has [None] as [maxE], and [maxEIncludingRandoms += 1] raises
    [TypeError]; the item is left pending. The same holds with
    [randomizeZeroEValues=True]. *)
Theorem only_zero_evalue_raises_TypeError :
  (@bothPasses specEnv noFilter plotDefaults onlyZero).1 = inl TypeError
  ∧ (λ pi, (convertedE <$> items pi, maxE pi, zeroEValueFound pi))
      <$> plotOf (@bothPasses specEnv noFilter plotDefaults onlyZero) "T"
    = Some ([None], None, true)
  ∧ (@bothPasses specEnv noFilter plotRandomized onlyZero).1 = inl TypeError.
Proof. repeat split; by_evaluation. Qed.

(** ** computePlotInfo: ranks *)

Lemma assignRanks_convertedE (rank : nat) (its : list Item) :
  convertedE <$> assignRanks rank its
    = (λ r, Some (Qc_of_nat r)) <$> seq rank (length its).
Proof.
  revert rank. induction its as [| item its IH]; intros rank; [done |].
  cbn [assignRanks length seq fmap list_fmap]. f_equal. apply IH.
Qed.

Lemma assignRanks_length (rank : nat) (its : list Item) :
  length (assignRanks rank its) = length its.
Proof.
  revert rank. induction its as [| item its IH]; intros rank; [done |].
  simpl. by rewrite IH.
Qed.

Lemma assignRanks_lookup (rank i : nat) (its : list Item) (item : Item) :
  its !! i = Some item →
  assignRanks rank its !! i
    = Some (set_convertedE (Some (Qc_of_nat (rank + i))) item).
Proof.
  revert rank i. induction its as [| x its IH]; intros rank [| i] Hi; try done.
  - simpl in Hi. inversion Hi; subst. simpl. by rewrite Nat.add_0_r.
  - simpl in Hi. simpl. rewrite (IH (S rank) i Hi). do 4 f_equal. lia.
Qed.

Lemma convertEValuesToRanks_ranked (pi : PlotInfo) :
  ranked (_convertEValuesToRanks pi).
Proof.
  unfold ranked, _convertEValuesToRanks, ranks. simpl.
  split; [| done]. by rewrite assignRanks_convertedE, assignRanks_length.
Qed.

Section RankFacts.
Context `{Env}.

Lemma adjustItems_convertedE (adjuster : OffsetAdjuster) (its : list Item) :
  ∀ minX maxX,
    convertedE <$> (adjustItems adjuster minX maxX its).1.1 = convertedE <$> its.
Proof.
  induction its as [| item its IH]; intros minX maxX; [done |].
  cbn [adjustItems].
  match goal with
  | |- context [adjustItems adjuster ?a ?b its] =>
      specialize (IH a b); destruct (adjustItems adjuster a b its) as [[its' mn] mx]
  end.
  simpl in IH. simpl. f_equal. exact IH.
Qed.

Lemma ranked_same_scores (pi pi' : PlotInfo) :
  convertedE <$> items pi' = convertedE <$> items pi →
  minE pi' = minE pi → maxE pi' = maxE pi →
  maxEIncludingRandoms pi' = maxEIncludingRandoms pi →
  zeroEValueFound pi' = zeroEValueFound pi →
  ranked pi → ranked pi'.
Proof.
  intros Hits Hmin Hmax Hinc Hzero (Hr & H1 & H2 & H3 & H4).
  assert (Hlen : length (items pi') = length (items pi)).
  { rewrite <- (length_fmap convertedE (items pi')), Hits. apply length_fmap. }
  unfold ranked. rewrite Hits, Hmin, Hmax, Hinc, Hzero, Hlen. done.
Qed.

Lemma adjustXAxis_ranked (p : PlotParams) (pi pi' : PlotInfo) :
  adjustXAxis p pi = inr pi' → ranked pi → ranked pi'.
Proof.
  unfold adjustXAxis. intros Hadj.
  destruct (readIntervals pi) as [intervals |]; [| done].
  pose proof (adjustItems_convertedE
                {| oa_intervals := intervals; oa_base := logBase p |}
                (items pi) None None) as Hconv.
  destruct (adjustItems _ None None (items pi)) as [[its mn] mx]. simpl in Hconv.
  repeat match type of Hadj with
         | context [match ?x with _ => _ end] => destruct x
         end;
    inversion Hadj; subst pi'; apply ranked_same_scores; done.
Qed.

Lemma finishPlotInfo_ranked (p : PlotParams) (draws draws' : nat)
    (pi pi' : PlotInfo) :
  rankEValues p = true →
  finishPlotInfo p draws pi = inr (pi', draws') →
  ranked pi'.
Proof.
  intros Hrank. unfold finishPlotInfo. rewrite Hrank.
  pose proof (convertEValuesToRanks_ranked pi) as Hranked.
  set (pi1 := _convertEValuesToRanks pi) in *.
  assert (Hzero : zeroEValueFound pi1 = false) by done.
  rewrite Hzero. intros Hfin.
  assert (Hranked2 : ranked (set_maxEIncludingRandoms (maxE pi1)
                              (set_items (items pi1) pi1))).
  { by apply (ranked_same_scores pi1). }
  destruct (logLinearXAxis p).
  - destruct (adjustXAxis p _) as [e | pi2] eqn:Hadj; [done |].
    inversion Hfin; subst. by apply (adjustXAxis_ranked p _ _ Hadj).
  - by inversion Hfin; subst.
Qed.

(** One round of the last loop changes the dict of its title only. *)
Lemma finishTitlePlot_step (p : PlotParams) (l : nat) (w w' : World) :
  finishTitlePlot p l w = (inr tt, w') →
  (∀ l0, l0 ≠ l → heap w' !! l0 = heap w !! l0)
  ∧ (rankEValues p = true →
     ∀ hitInfo pi, heap w' !! l = Some hitInfo → plotInfo hitInfo = Some pi →
       ranked pi).
Proof.
  unfold finishTitlePlot, bind, deref, get, put, raise, ret. intros Hrun.
  destruct (heap w !! l) as [hitInfo |] eqn:Hl; [| done].
  destruct (plotInfo hitInfo) as [pi0 |] eqn:Hpi.
  - destruct (finishPlotInfo p (draws w) pi0) as [e | [pi1 d]] eqn:Hfin; [done |].
    inversion Hrun; subst w'. simpl. split.
    + intros l0 Hne. by apply lookup_alter_ne.
    + intros Hrank h pi Hh Hp. rewrite lookup_alter_eq, Hl in Hh.
      simpl in Hh. inversion Hh; subst h. simpl in Hp. inversion Hp; subst pi.
      by apply (finishPlotInfo_ranked p _ _ _ _ Hrank Hfin).
  - inversion Hrun; subst w'. split; [done |].
    intros _ h pi Hh Hp. congruence.
Qed.

Lemma finishTitlePlot_loop (p : PlotParams) (entries : list (string * nat)) :
  rankEValues p = true →
  ∀ w w',
    forM entries (λ '(title, l), finishTitlePlot p l) w = (inr tt, w') →
    ∀ l0,
      ((∀ hitInfo pi, heap w !! l0 = Some hitInfo → plotInfo hitInfo = Some pi →
          ranked pi)
       ∨ l0 ∈ entries.*2) →
      ∀ hitInfo pi, heap w' !! l0 = Some hitInfo → plotInfo hitInfo = Some pi →
        ranked pi.
Proof.
  intros Hrank. induction entries as [| [t l] entries IH]; intros w w' Hrun l0 Hl0.
  - inversion Hrun; subst w'. destruct Hl0 as [Hok | Hin]; [done |].
    by apply elem_of_nil in Hin.
  - simpl in Hrun. unfold bind in Hrun.
    destruct (finishTitlePlot p l w) as [[e | []] w1] eqn:Hstep; [done |].
    destruct (finishTitlePlot_step p l w w1 Hstep) as [Hframe Hnow].
    apply (IH w1 w' Hrun l0).
    destruct (decide (l0 = l)) as [-> | Hne].
    + left. by apply Hnow.
    + destruct Hl0 as [Hok | Hin].
      * left. by rewrite Hframe.
      * right. simpl in Hin. apply elem_of_cons in Hin as [-> | Hin]; done.
Qed.

End RankFacts.

(** C3 (the code on an input): three reads hit T with e-values 1e-3, 0.0
    and 1e-10. With [rankEValues=True] the items come out in the order 0.0,
    1e-3, 1e-10 with the converted e-values 1, 2, 3: the pending item of
    e-value 0.0 is ranked like the others, and as [None] sorts before every
    number it gets rank 1, below the worst hit. Without ranks the same item
    gets 11, above the scores 3 and 10 of the others. *)
Theorem zero_evalue_gets_lowest_rank :
  rankedRun.1 = inr tt
  ∧ (λ pi, (λ item, (expect (origHsp item), convertedE item)) <$> items pi)
      <$> plotOf rankedRun "T"
    = Some [ (Q2Qc 0, Some (qc 1 1));
             (qc 1 1000, Some (qc 2 1));
             (qc 1 10000000000, Some (qc 3 1)) ]
  ∧ plainRun1.1 = inr tt
  ∧ (λ pi, (λ item, (expect (origHsp item), convertedE item)) <$> items pi)
      <$> plotOf plainRun1 "T"
    = Some [ (qc 1 1000, Some (qc 3 1));
             (Q2Qc 0, Some (qc 11 1));
             (qc 1 10000000000, Some (qc 10 1)) ].
Proof. repeat split; by_evaluation. Qed.

(** ** computePlotInfo: running it again *)

(** C6 (as stated, refuted): with [randomizeZeroEValues=True], two runs in
    succession with the same parameters on the same instance give the item
    of e-value 0.0 the converted e-value 12 and then 171/8, as the random
    draws differ. *)
Lemma randomized_runs_differ :
  randomRun1.1 = inr tt
  ∧ randomRun2.1 = inr tt
  ∧ (λ pi, convertedE <$> items pi) <$> plotOf randomRun1 "T"
    = Some [Some (qc 3 1); Some (qc 12 1); Some (qc 10 1)]
  ∧ (λ pi, convertedE <$> items pi) <$> plotOf randomRun2 "T"
    = Some [Some (qc 3 1); Some (qc 171 8); Some (qc 10 1)].
Proof. repeat split; by_evaluation. Qed.

Lemma plotInfoOnly_refl (L : list nat) (w : World) : plotInfoOnly L w w.
Proof. split; [done |]. intros l. by left. Qed.

Lemma plotInfoOnly_trans (L : list nat) (w1 w2 w3 : World) :
  plotInfoOnly L w1 w2 → plotInfoOnly L w2 w3 → plotInfoOnly L w1 w3.
Proof.
  intros [Hd1 H1] [Hd2 H2]. split; [congruence |].
  intros l. destruct (H1 l) as [E1 | [Hin E1]], (H2 l) as [E2 | [Hin' E2]].
  - left. congruence.
  - right. split; [done |]. by rewrite E2, E1.
  - right. split; [done |]. by rewrite E2.
  - right. split; [done |]. by rewrite E2.
Qed.

Lemma plotInfoOnly_store (L : list nat) (l : nat) (pi : option PlotInfo)
    (w : World) :
  l ∈ L → plotInfoOnly L w (store_plotInfo l pi w).
Proof.
  intros Hin. split; [done |]. intros l0. simpl.
  destruct (decide (l = l0)) as [<- | Hne].
  - right. split; [done |]. rewrite lookup_alter_eq.
    by destruct (heap w !! l).
  - left. by apply lookup_alter_ne.
Qed.

Section AgainFacts.
Context `{Env}.

Lemma refsOf_lookup (self : BlastHits) (t : string) (l : nat) :
  titles self !! t = Some l → l ∈ refsOf self.
Proof.
  intros Ht. unfold refsOf. apply list_elem_of_fmap. exists (t, l).
  split; [done |]. by apply elem_of_map_to_list.
Qed.

Lemma addGroup_plotInfoOnly (p : PlotParams) (self : BlastHits)
    (fa : list string) (g : string * nat * list HSP) (w w' : World) :
  addGroup p self fa g w = (inr tt, w') →
  plotInfoOnly (refsOf self) w w'.
Proof.
  destruct g as [[t n] hs]. unfold addGroup.
  destruct (titles self !! t) as [l |] eqn:Ht; [| done].
  apply refsOf_lookup in Ht.
  unfold bind, deref, modify, raise, lift.
  destruct (heap w !! l) as [hitInfo |]; [| done].
  destruct (match plotInfo hitInfo with
            | Some plotInfo => (plotInfo, false)
            | None => (plotInfoDict p (hi_length hitInfo), true)
            end) as [pi firstItem].
  destruct (fa !! n) as [read |]; [| done].
  destruct (addHsps p firstItem (String.length read) n 1 hs
              (set_hspTotal (hspTotal pi + length hs) pi)) as [r pi'].
  intros Hrun. inversion Hrun; subst.
  eapply plotInfoOnly_trans; by apply plotInfoOnly_store.
Qed.

Lemma addGroups_plotInfoOnly (p : PlotParams) (self : BlastHits)
    (fa : list string) (gs : list (string * nat * list HSP)) :
  ∀ w w', forM gs (addGroup p self fa) w = (inr tt, w') →
          plotInfoOnly (refsOf self) w w'.
Proof.
  induction gs as [| g gs IH]; intros w w' Hrun.
  - inversion Hrun; subst. apply plotInfoOnly_refl.
  - simpl in Hrun. unfold bind in Hrun.
    destruct (addGroup p self fa g w) as [[e | []] w1] eqn:Hstep; [done |].
    eapply plotInfoOnly_trans;
      [by apply (addGroup_plotInfoOnly p self fa g) | by apply IH].
Qed.

Lemma finishPlotInfo_draws (p : PlotParams) (d d' : nat) (pi pi' : PlotInfo) :
  randomizeZeroEValues p = false ∨ rankEValues p = true →
  finishPlotInfo p d pi = inr (pi', d') → d' = d.
Proof.
  intros Hmode. unfold finishPlotInfo.
  set (pi1 := if rankEValues p then _convertEValuesToRanks pi else pi).
  assert (Hcases : zeroEValueFound pi1 = false ∨ randomizeZeroEValues p = false).
  { destruct Hmode as [Hr | Hr]; [by right |]. left. unfold pi1. by rewrite Hr. }
  intros Hfin.
  assert (Hres : ∀ its m d0,
            (if zeroEValueFound pi1
             then if randomizeZeroEValues p
                  then randomizeZeros (maxE pi1) (maxE pi1) d (items pi1)
                  else match numberZeros (maxE pi1) (items pi1) with
                       | inl e => inl e
                       | inr (items, m) => inr (items, m, d)
                       end
             else inr (items pi1, maxE pi1, d)) = inr (its, m, d0) → d0 = d).
  { intros its m d0. destruct Hcases as [-> | ->].
    - intros Heq. by inversion Heq.
    - destruct (zeroEValueFound pi1).
      + destruct (numberZeros (maxE pi1) (items pi1)) as [e | [its' m']]; [done |].
        intros Heq. by inversion Heq.
      + intros Heq. by inversion Heq. }
  destruct (if zeroEValueFound pi1 then _ else _) as [e | [[its m] d0]] eqn:Hresolved;
    [done |].
  pose proof (Hres its m d0 eq_refl) as ->.
  destruct (logLinearXAxis p).
  - destruct (adjustXAxis p _) as [e | pi2]; [done |]. by inversion Hfin.
  - by inversion Hfin.
Qed.

Lemma finishTitlePlots_plotInfoOnly (p : PlotParams) (L : list nat)
    (entries : list (string * nat)) :
  randomizeZeroEValues p = false ∨ rankEValues p = true →
  (∀ l, l ∈ entries.*2 → l ∈ L) →
  ∀ w w', forM entries (λ '(title, l), finishTitlePlot p l) w = (inr tt, w') →
          plotInfoOnly L w w'.
Proof.
  intros Hmode. induction entries as [| [t l] entries IH]; intros Hsub w w' Hrun.
  - inversion Hrun; subst. apply plotInfoOnly_refl.
  - simpl in Hrun. unfold bind in Hrun.
    destruct (finishTitlePlot p l w) as [[e | []] w1] eqn:Hstep; [done |].
    eapply plotInfoOnly_trans; [| apply IH; [| exact Hrun]].
    + unfold finishTitlePlot, bind, deref, get, put, raise, ret in Hstep.
      destruct (heap w !! l) as [hitInfo |]; [| done].
      destruct (plotInfo hitInfo) as [pi0 |].
      * destruct (finishPlotInfo p (draws w) pi0) as [e | [pi1 d]] eqn:Hfin; [done |].
        apply (finishPlotInfo_draws p _ _ _ _ Hmode) in Hfin. subst d.
        inversion Hstep; subst w1.
        apply (plotInfoOnly_store L l (Some pi1) w). apply Hsub. simpl. left.
      * inversion Hstep; subst. apply plotInfoOnly_refl.
    + intros l0 Hl0. apply Hsub. simpl. by right.
Qed.

(** The first loop of [computePlotInfo] sets the plot info of the dicts
    named by [self.titles] to [None] and does nothing else. *)
Lemma resetPlotInfo_lookup (entries : list (string * nat)) :
  ∀ w, ∃ w',
    forM entries (λ '(title, l), modify (store_plotInfo l None)) w = (inr tt, w')
    ∧ draws w' = draws w
    ∧ ∀ l, heap w' !! l
           = if decide (l ∈ entries.*2)
             then set_plotInfo None <$> heap w !! l
             else heap w !! l.
Proof.
  induction entries as [| [t l] entries IH]; intros w.
  - exists w. split; [done |]. split; [done |]. intros l.
    destruct (decide (l ∈ ([] : list (string * nat)).*2)) as [Hin | _]; [| done].
    by apply elem_of_nil in Hin.
  - destruct (IH (store_plotInfo l None w)) as (w' & Hrun & Hdraws & Hheap).
    exists w'. split; [exact Hrun |]. split; [done |].
    intros l0. rewrite Hheap. unfold store_plotInfo. cbn [heap].
    change (((t, l) :: entries).*2) with (l :: entries.*2).
    destruct (decide (l = l0)) as [<- | Hne].
    + rewrite lookup_alter_eq.
      destruct (decide (l ∈ l :: entries.*2)) as [_ | Hn];
        [| exfalso; apply Hn; left].
      destruct (decide (l ∈ entries.*2)); by destruct (heap w !! l).
    + rewrite lookup_alter_ne by done.
      destruct (decide (l0 ∈ entries.*2)) as [Hin | Hnin],
               (decide (l0 ∈ l :: entries.*2)) as [Hin' | Hnin']; try done.
      * exfalso. apply Hnin'. by right.
      * exfalso. apply elem_of_cons in Hin' as [-> | Hin']; done.
Qed.

Lemma BlastRecords_records_again (r : BlastRecords) :
  BlastRecords_records (BlastRecords_records r).2 = BlastRecords_records r.
Proof.
  unfold BlastRecords_records. destruct (limit r) as [lim |] eqn:Hlim.
  - destruct (records_upto lim 0 (blastFile r)) as [ys count] eqn:Hup.
    simpl. rewrite Hlim, Hup. done.
  - simpl. rewrite Hlim. done.
Qed.

End AgainFacts.

Lemma forM_ext {S A} (l : list A) (f g : A → M S unit) :
  (∀ x s, f x s = g x s) → ∀ s, forM l f s = forM l g s.
Proof.
  intros Hext. induction l as [| x l IH]; intros s; simpl; [done |].
  unfold bind. rewrite Hext. destruct (g x s) as [[e | []] s']; [done |]. apply IH.
Qed.

Lemma addGroup_titles `{Env} (p : PlotParams) (self self' : BlastHits)
    (fa : list string) (g : string * nat * list HSP) (w : World) :
  titles self' = titles self →
  addGroup p self' fa g w = addGroup p self fa g w.
Proof. intros Ht. destruct g as [[t n] hs]. unfold addGroup. by rewrite Ht. Qed.

Lemma getHsps_again (self self' : BlastHits) :
  titles self' = titles self →
  records self' = (_getHsps self).2 →
  _getHsps self' = _getHsps self.
Proof.
  intros Ht Hr. unfold _getHsps in *. rewrite Ht, Hr.
  destruct (BlastRecords_records (records self)) as [rs recs] eqn:Hrecs.
  simpl.
  pose proof (BlastRecords_records_again (records self)) as Hagain.
  rewrite Hrecs in Hagain. simpl in Hagain. by rewrite Hagain.
Qed.

Lemma World_eq (w w' : World) :
  draws w = draws w' → (∀ l, heap w !! l = heap w' !! l) → w = w'.
Proof.
  destruct w as [h d], w' as [h' d']. simpl. intros -> Hh. f_equal.
  by apply map_eq.
Qed.

(** C6 (amended): when no random draw is made, that is with
    [randomizeZeroEValues=False] or with [rankEValues=True], a second run
    of [computePlotInfo] with the same parameters, right after a first run
    that returned, returns too and leaves the instance and the store as the
    first run left them: so the plot info of every title is the same.
    Every run starts by setting the plot info of every title to [None]. *)
Theorem computePlotInfo_again `{Env} (p : PlotParams)
    (self self1 : BlastHits) (w w1 : World) :
  randomizeZeroEValues p = false ∨ rankEValues p = true →
  computePlotInfo p (self, w) = (inr tt, (self1, w1)) →
  computePlotInfo p (self1, w1) = (inr tt, (self1, w1))
  ∧ (∀ t, plotInfoOf self1 (resetPlotInfo self1 w1).2 t = None).
Proof.
  intros Hmode Hrun.
  assert (Hnone : ∀ (s : BlastHits) (v : World) t,
            plotInfoOf s (resetPlotInfo s v).2 t = None).
  { intros s v t. unfold resetPlotInfo, plotInfoOf.
    destruct (resetPlotInfo_lookup (map_to_list (titles s)) v)
      as (v0 & Hreset & _ & Hheap).
    rewrite Hreset. simpl.
    destruct (titles s !! t) as [l |] eqn:Ht; [| done]. simpl.
    rewrite Hheap.
    destruct (decide (l ∈ (map_to_list (titles s)).*2)) as [_ | Hn].
    - by destruct (heap v !! l).
    - exfalso. apply Hn. by apply (refsOf_lookup s t l). }
  split; [| apply Hnone].
  unfold computePlotInfo in Hrun.
  destruct (resetPlotInfo_lookup (map_to_list (titles self)) w)
    as (w0 & Hreset & Hd0 & Hh0).
  unfold resetPlotInfo in Hrun. rewrite Hreset in Hrun.
  set (selfP := set_plotParams (Some p) self) in *.
  destruct (match fasta selfP with
            | Some fasta => inr fasta
            | None => _readFASTA selfP
            end) as [e | fa] eqn:Hread; [done |].
  set (selfF := set_fasta (Some fa) selfP) in *.
  destruct (_getHsps selfF) as [groups recs] eqn:Hgroups.
  destruct (forM groups (addGroup p selfF fa) w0) as [[e | []] wa] eqn:Hwalk;
    [done |].
  destruct (forM (map_to_list (titles (set_records recs selfF)))
              (λ '(_, l), finishTitlePlot p l) wa) as [r wb] eqn:Hfinish.
  inversion Hrun; subst r self1 w1. clear Hrun.
  (* the second run *)
  assert (Hwalked : plotInfoOnly (refsOf self) w0 wa).
  { by apply (addGroups_plotInfoOnly p selfF fa groups). }
  assert (Hfinished : plotInfoOnly (refsOf self) wa wb).
  { apply (finishTitlePlots_plotInfoOnly p (refsOf self)
             (map_to_list (titles self)) Hmode); [done | exact Hfinish]. }
  destruct (plotInfoOnly_trans _ _ _ _ Hwalked Hfinished) as [Hdb Hhb].
  destruct (resetPlotInfo_lookup (map_to_list (titles self)) wb)
    as (w0' & Hreset' & Hd0' & Hh0').
  assert (Hsame : w0' = w0).
  { apply World_eq; [congruence |]. intros l. rewrite Hh0', Hh0.
    destruct (decide (l ∈ (map_to_list (titles self)).*2)) as [Hin | Hnin].
    - destruct (Hhb l) as [E | [_ E]].
      + rewrite E, Hh0.
        destruct (decide (l ∈ (map_to_list (titles self)).*2)); [| done].
        by destruct (heap w !! l).
      + rewrite E, Hh0.
        destruct (decide (l ∈ (map_to_list (titles self)).*2)); [| done].
        by destruct (heap w !! l).
    - destruct (Hhb l) as [E | [Hin _]]; [| done].
      rewrite E, Hh0.
      by destruct (decide (l ∈ (map_to_list (titles self)).*2)). }
  subst w0'.
  unfold computePlotInfo, resetPlotInfo.
  change (titles (set_records recs selfF)) with (titles self) in *.
  rewrite Hreset'.
  change (fasta (set_plotParams (Some p) (set_records recs selfF)))
    with (Some fa).
  cbv iota.
  set (selfF' := set_fasta (Some fa) (set_plotParams (Some p) (set_records recs selfF))).
  assert (Hgroups' : _getHsps selfF' = (groups, recs)).
  { rewrite <- Hgroups. apply getHsps_again; [done |]. by rewrite Hgroups. }
  rewrite Hgroups'.
  rewrite (forM_ext groups (addGroup p selfF' fa) (addGroup p selfF fa))
    by (intros g s; by apply addGroup_titles).
  rewrite Hwalk.
  change (titles (set_records recs selfF')) with (titles self).
  rewrite Hfinish. done.
Qed.

Lemma computePlotInfo_again_witness :
  @computePlotInfo specEnv plotDefaults (plainRun1.2.1, plainRun1.2.2)
    = (inr tt, (plainRun1.2.1, plainRun1.2.2))
  ∧ (∀ t, plotInfoOf plainRun1.2.1
            (@resetPlotInfo plainRun1.2.1 plainRun1.2.2).2 t = None).
Proof.
  apply (@computePlotInfo_again specEnv plotDefaults
           hitsOfThreeReads plainRun1.2.1 passOfThreeReads.2 plainRun1.2.2).
  - left. reflexivity.
  - vm_compute. reflexivity.
Defined.

(** * Further properties *)

(** ** BlastRecords.records and __len__ *)

(** X1: run to its end, [records] yields the records of the file, or the
    first [limit] of them when a limit is set; afterwards [len(self)] is
    the number of records yielded, and a second run yields the same records
    and leaves the instance as it is. *)
Theorem records_yields_first_limit (self : BlastRecords) :
  (BlastRecords_records self).1
    = match limit self with
      | Some lim => take lim (blastFile self)
      | None => blastFile self
      end
  ∧ BlastRecords_len (BlastRecords_records self).2
    = length (BlastRecords_records self).1
  ∧ blastFile (BlastRecords_records self).2 = blastFile self
  ∧ fastaFile (BlastRecords_records self).2 = fastaFile self
  ∧ limit (BlastRecords_records self).2 = limit self
  ∧ BlastRecords_records (BlastRecords_records self).2 = BlastRecords_records self.
Proof.
  assert (Hrun : BlastRecords_records self
                 = (match limit self with
                    | Some lim => take lim (blastFile self)
                    | None => blastFile self
                    end,
                    set_length
                      match limit self with
                      | Some lim => Nat.min lim (length (blastFile self))
                      | None => length (blastFile self)
                      end self)).
  { unfold BlastRecords_records. destruct (limit self) as [lim |]; [| done].
    rewrite records_upto_count by lia. by rewrite Nat.sub_0_r. }
  split; [by rewrite Hrun |].
  split.
  { rewrite Hrun. unfold BlastRecords_len. simpl.
    destruct (limit self) as [lim |]; [| done]. by rewrite length_take. }
  split; [by rewrite Hrun |]. split; [by rewrite Hrun |].
  split; [by rewrite Hrun |]. apply BlastRecords_records_again.
Qed.

(** ** BlastHits.filterHits: the titles kept *)

Section RefilterKept.
Context `{Env}.

(** The title filter and the titles of [result] after the loop over
    [entries], from a filter [f] and a [result] that has none of their
    titles. *)
Lemma keepTitle_kept (hitInfoFilter : HitInfoFilter) (w : World)
    (entries : list (string * nat)) :
  NoDup entries.*1 →
  (∀ t l, (t, l) ∈ entries → is_Some (heap w !! l)) →
  ∀ (f : TitleFilter) (result : BlastHits),
    (∀ t, is_Some (titles result !! t) → t ∉ entries.*1) →
    ∃ result',
      forM entries (keepTitle hitInfoFilter w) (f, result)
        = (inr tt, (askedAll entries.*1 f, result'))
      ∧ ∀ t l, titles result' !! t = Some l ↔
          titles result !! t = Some l
          ∨ ∃ before after hitInfo,
              entries = before ++ (t, l) :: after
              ∧ heap w !! l = Some hitInfo
              ∧ (TitleFilter_decide (askedAll before.*1 f) t = WHITELIST_ACCEPT
                 ∨ (TitleFilter_decide (askedAll before.*1 f) t = DEFAULT_ACCEPT
                    ∧ HitInfoFilter_accept hitInfoFilter hitInfo = true)).
Proof.
  induction entries as [| [t0 l0] entries IH]; intros Hnodup Hstore f result Hfresh.
  - exists result. split; [done |]. intros t l. split; [by left |].
    intros [Hin | (before & after & h & Heq & _)]; [done |].
    by destruct before.
  - simpl in Hnodup. apply NoDup_cons in Hnodup as [Hnotin Hnodup].
    assert (Hrest : ∀ t' l', (t', l') ∈ entries → is_Some (heap w !! l')).
    { intros t' l' Hin. apply (Hstore t' l'). by right. }
    destruct (Hstore t0 l0) as [d Hd]; [left |].
    assert (Hnew : titles result !! t0 = None).
    { destruct (titles result !! t0) eqn:Ht; [| done].
      exfalso. apply (Hfresh t0); [by eexists | simpl; left]. }
    set (kept := set_titles (<[t0 := l0]> (titles result)) result).
    assert (Hadd : addHit t0 l0 result = (inr tt, kept)).
    { unfold addHit, bind, get, put, raise.
      destruct (decide (is_Some (titles result !! t0))) as [[x Hx] | _];
        [congruence | done]. }
    set (keep := bool_decide (TitleFilter_decide f t0 = WHITELIST_ACCEPT)
                 || bool_decide (TitleFilter_decide f t0 = DEFAULT_ACCEPT)
                    && HitInfoFilter_accept hitInfoFilter d).
    set (next := if keep then kept else result).
    assert (Hstep : keepTitle hitInfoFilter w (t0, l0) (f, result)
                    = (inr tt, (TitleFilter_asked t0 f, next))).
    { unfold keepTitle, TitleFilter_accept, bind, get, put, ret, deref, next, keep.
      simpl. rewrite Hd.
      destruct (decide (TitleFilter_decide f t0 = WHITELIST_ACCEPT)) as [Hw | Hw].
      { rewrite bool_decide_eq_true_2 by done. simpl. by rewrite Hadd. }
      rewrite (bool_decide_eq_false_2 _ Hw). simpl.
      destruct (decide (TitleFilter_decide f t0 = DEFAULT_ACCEPT)) as [Hd' | Hd'].
      - rewrite bool_decide_eq_true_2 by done. simpl.
        destruct (HitInfoFilter_accept hitInfoFilter d); [by rewrite Hadd | done].
      - by rewrite (bool_decide_eq_false_2 _ Hd'). }
    assert (Hnext : ∀ t, is_Some (titles next !! t) → t ∉ entries.*1).
    { intros t [x Hx] Hin. unfold next in Hx.
      assert (Hcases : t = t0 ∨ is_Some (titles result !! t)).
      { destruct keep; [| right; by eexists]. unfold kept in Hx. simpl in Hx.
        destruct (decide (t0 = t)) as [-> | Hne]; [by left |].
        rewrite lookup_insert_ne in Hx by done. right. by eexists. }
      destruct Hcases as [-> | Hsome]; [done |].
      apply (Hfresh t Hsome). simpl. by right. }
    destruct (IH Hnodup Hrest (TitleFilter_asked t0 f) next Hnext)
      as (result' & Hrun & Hiff).
    exists result'. split.
    { simpl. unfold bind. by rewrite Hstep. }
    assert (Hkeep : keep = true ↔
              TitleFilter_decide f t0 = WHITELIST_ACCEPT
              ∨ (TitleFilter_decide f t0 = DEFAULT_ACCEPT
                 ∧ HitInfoFilter_accept hitInfoFilter d = true)).
    { unfold keep. rewrite orb_true_iff, andb_true_iff, !bool_decide_eq_true. done. }
    intros t l. rewrite Hiff. split.
    + intros [Hin | (before & after & h & Heq & Hh & Hdec)].
      * unfold next in Hin. destruct keep eqn:Hk.
        -- unfold kept in Hin. simpl in Hin.
           destruct (decide (t0 = t)) as [<- | Hne].
           ++ rewrite lookup_insert_eq in Hin. inversion Hin; subst l.
              right. exists [], entries, d. split; [done |]. split; [done |].
              by apply Hkeep.
           ++ rewrite lookup_insert_ne in Hin by done. by left.
        -- by left.
      * right. exists ((t0, l0) :: before), after, h. rewrite Heq.
        split; [done |]. split; [done |]. exact Hdec.
    + intros [Hin | (before & after & h & Heq & Hh & Hdec)].
      * left. unfold next. destruct keep; [| done]. unfold kept. simpl.
        destruct (decide (t0 = t)) as [<- | Hne]; [congruence |].
        by rewrite lookup_insert_ne.
      * destruct before as [| [t1 l1] before].
        -- simpl in Heq. inversion Heq; subst t0 l0 after.
           rewrite Hd in Hh. inversion Hh; subst h.
           left. unfold next. simpl in Hdec. apply Hkeep in Hdec. rewrite Hdec.
           unfold kept. simpl. apply lookup_insert_eq.
        -- simpl in Heq. inversion Heq; subst t1 l1 entries.
           right. exists before, after, h. split; [done |]. split; [done |].
           exact Hdec.
Qed.

End RefilterKept.

(** X2: [BlastHits.filterHits] asks the title filter about every title of
    [self], in the order of iteration, and keeps a title exactly when the
    filter answers [WHITELIST_ACCEPT], or answers [DEFAULT_ACCEPT] and the
    hit-info filter (with the length bounds) accepts the dict of the title:
    a whitelisted title is kept whatever its hit info, and a rejected one
    is dropped whatever its hit info. *)
Theorem BlastHits_filterHits_keeps `{Env} (p : FilterParams)
    (self : BlastHits) (w : World) :
  wellFormed self w →
  ∃ result,
    BlastHits_filterHits p self w = (inr result, w)
    ∧ ∀ t l, titles result !! t = Some l ↔
        ∃ before after hitInfo,
          map_to_list (titles self) = before ++ (t, l) :: after
          ∧ heap w !! l = Some hitInfo
          ∧ (TitleFilter_decide (askedAll before.*1 (TitleFilter_new p)) t
               = WHITELIST_ACCEPT
             ∨ (TitleFilter_decide (askedAll before.*1 (TitleFilter_new p)) t
                  = DEFAULT_ACCEPT
                ∧ HitInfoFilter_accept (mkHitInfoFilter true p) hitInfo = true)).
Proof.
  intros Hwf. unfold BlastHits_filterHits.
  destruct (keepTitle_kept (mkHitInfoFilter true p) w (map_to_list (titles self)))
    with (f := TitleFilter_new p) (result := BlastHits_new (records self))
    as (result' & Hrun & Hiff).
  - apply NoDup_fst_map_to_list.
  - intros t l Hin. apply elem_of_map_to_list in Hin. by apply (Hwf t l).
  - intros t [x Hx]. simpl in Hx. by rewrite lookup_empty in Hx.
  - rewrite Hrun. exists result'. split; [done |].
    intros t l. rewrite Hiff. split.
    + intros [Hin | Hex]; [| done]. simpl in Hin. by rewrite lookup_empty in Hin.
    + intros Hex. by right.
Qed.

Lemma BlastHits_filterHits_keeps_witness :
  ∃ result,
    @BlastHits_filterHits specEnv atLeast10 hitsOfTwoReads worldOfTwoReads
      = (inr result, worldOfTwoReads)
    ∧ titles result !! "T" = Some 0.
Proof.
  destruct (@BlastHits_filterHits_keeps specEnv atLeast10
              hitsOfTwoReads worldOfTwoReads) as (result & Hrun & Hiff).
  - assert (Htitles : titles hitsOfTwoReads = {[ "T" := 0 ]})
      by (vm_compute; reflexivity).
    intros t l Hl. rewrite Htitles in Hl.
    apply lookup_singleton_Some in Hl as [<- <-].
    vm_compute. eexists. reflexivity.
  - exists result. split; [exact Hrun |]. apply Hiff.
    exists [], [].
    eexists. split; [vm_compute; reflexivity |].
    split; [vm_compute; reflexivity |].
    right. split; vm_compute; reflexivity.
Defined.

(** X3: the instance that [BlastHits.filterHits] returns has no more hits
    than [self]. *)
Theorem BlastHits_filterHits_len `{Env} (p : FilterParams)
    (self result : BlastHits) (w w' : World) :
  BlastHits_filterHits p self w = (inr result, w') →
  wellFormed self w →
  BlastHits_len result <= BlastHits_len self.
Proof.
  intros Hrun Hwf.
  destruct (keepTitle_loop (mkHitInfoFilter true p) w (map_to_list (titles self)))
    with (f := TitleFilter_new p) (result := BlastHits_new (records self))
    as (f' & result' & Hloop & Hsub & _).
  - apply NoDup_fst_map_to_list.
  - intros t l Hin. apply elem_of_map_to_list in Hin. by apply (Hwf t l).
  - intros t [x Hx]. simpl in Hx. by rewrite lookup_empty in Hx.
  - unfold BlastHits_filterHits in Hrun. rewrite Hloop in Hrun.
    inversion Hrun; subst result' w'. unfold BlastHits_len.
    apply map_subseteq_size. apply map_subseteq_spec. intros t l Hl.
    destruct (Hsub t l Hl) as [Hin | Hin].
    + simpl in Hin. by rewrite lookup_empty in Hin.
    + by apply elem_of_map_to_list in Hin.
Qed.

Lemma BlastHits_filterHits_len_witness :
  BlastHits_len
    (match (@BlastHits_filterHits specEnv atLeast10 hitsOfTwoReads worldOfTwoReads).1 with
     | inr result => result
     | inl _ => hitsOfTwoReads
     end) <= BlastHits_len hitsOfTwoReads.
Proof.
  apply (@BlastHits_filterHits_len specEnv atLeast10 hitsOfTwoReads _
           worldOfTwoReads worldOfTwoReads).
  - vm_compute. reflexivity.
  - assert (Htitles : titles hitsOfTwoReads = {[ "T" := 0 ]})
      by (vm_compute; reflexivity).
    intros t l Hl. rewrite Htitles in Hl.
    apply lookup_singleton_Some in Hl as [<- <-].
    vm_compute. eexists. reflexivity.
Defined.

(** ** BlastHits.sortTitles *)

Lemma decorate_titles {K} (attr : HitInfo → Error + K) (w : World)
    (entries : list (string * nat)) (ks : list (K * string)) :
  decorate attr w entries = inr ks →
  ks.*2 = entries.*1
  ∧ ∀ k t, (k, t) ∈ ks →
      ∃ l h, (t, l) ∈ entries ∧ heap w !! l = Some h ∧ attr h = inr k.
Proof.
  revert ks. induction entries as [| [t0 l0] entries IH]; intros ks Hdec.
  - inversion Hdec; subst. split; [done |]. intros k t Hin.
    by apply elem_of_nil in Hin.
  - simpl in Hdec. unfold deref in Hdec.
    destruct (heap w !! l0) as [h0 |] eqn:Hl0; [| done].
    destruct (attr h0) as [e | k0] eqn:Hk0; [done |].
    destruct (decorate attr w entries) as [e | ks0]; [done |].
    inversion Hdec; subst ks. destruct (IH ks0 eq_refl) as [Htitles Hattr].
    split; [simpl; f_equal; exact Htitles |].
    intros k t Hin. apply elem_of_cons in Hin as [Heq | Hin].
    + inversion Heq; subst. exists l0, h0. split; [left | done].
    + destruct (Hattr k t Hin) as (l & h & Hin' & Hrest).
      exists l, h. split; [by right | done].
Qed.

Lemma decorate_returns {K} (attr : HitInfo → Error + K) (w : World)
    (entries : list (string * nat)) :
  (∀ t l, (t, l) ∈ entries → ∃ h k, heap w !! l = Some h ∧ attr h = inr k) →
  ∃ ks, decorate attr w entries = inr ks.
Proof.
  induction entries as [| [t0 l0] entries IH]; intros Hall; [by eexists |].
  destruct (Hall t0 l0) as (h & k & Hh & Hk); [left |].
  destruct IH as [ks Hks]. { intros t l Hin. apply (Hall t l). by right. }
  simpl. unfold deref. rewrite Hh, Hk, Hks. by eexists.
Qed.

Lemma sortedOn_titles {K} (le : K * string → K * string → bool)
    (attr : HitInfo → Error + K) (self : BlastHits) (w : World)
    (ts : list string) :
  sortedOn le attr self w = inr ts →
  ts ≡ₚ (map_to_list (titles self)).*1.
Proof.
  unfold sortedOn.
  destruct (decorate attr w (map_to_list (titles self))) as [e | ks] eqn:Hdec;
    [done |].
  intros Hts. inversion Hts; subst ts.
  destruct (decorate_titles attr w _ ks Hdec) as [<- _].
  apply fmap_Permutation, sort_Permutation.
Qed.

(** X4: the list that [sortTitles] returns has every title of [self], once
    each. *)
Theorem sortTitles_lists_titles (by_ : string) (self : BlastHits) (w : World)
    (ts : list string) :
  sortTitles by_ self w = inr ts →
  NoDup ts
  ∧ (∀ t, t ∈ ts ↔ is_Some (titles self !! t))
  ∧ length ts = BlastHits_len self.
Proof.
  intros Hsort.
  assert (Hperm : ts ≡ₚ (map_to_list (titles self)).*1).
  { unfold sortTitles in Hsort.
    repeat match type of Hsort with
           | (if ?d then _ else _) = _ => destruct d
           end;
      try (by apply sortedOn_titles in Hsort); [| done].
    inversion Hsort. apply sort_Permutation. }
  split; [rewrite Hperm; apply NoDup_fst_map_to_list |].
  split.
  - intros t. rewrite Hperm, list_elem_of_fmap. split.
    + intros ([t' l] & -> & Hin). apply elem_of_map_to_list in Hin. by eexists.
    + intros [l Hl]. exists (t, l). split; [done |]. by apply elem_of_map_to_list.
  - rewrite Hperm, length_fmap. unfold BlastHits_len. apply length_map_to_list.
Qed.

Lemma sortTitles_lists_titles_witness :
  NoDup ["A"; "B"]
  ∧ (∀ t, t ∈ ["A"; "B"] ↔ is_Some (titles hitsOfTwoTitles !! t))
  ∧ length ["A"; "B"] = BlastHits_len hitsOfTwoTitles.
Proof.
  apply (sortTitles_lists_titles "eMin" hitsOfTwoTitles passOfTwoTitles.2).
  vm_compute. reflexivity.
Defined.

(** X5: [sortTitles] sorts on [eMin], [eMean], [eMedian], [readCount],
    [length] and [title], and raises [ValueError] for any other attribute;
    on [readCount], [length] and [title] it returns for every instance, on
    a statistic it returns when every dict has that statistic and raises
    [KeyError] when the dict of some title has not. *)
Theorem sortTitles_attributes (by_ : string) (self : BlastHits) (w : World) :
  wellFormed self w →
  (by_ ∉ ["eMin"; "eMean"; "eMedian"; "readCount"; "length"; "title"] →
     sortTitles by_ self w = inl ValueError)
  ∧ (by_ ∈ ["readCount"; "length"; "title"] →
     ∃ ts, sortTitles by_ self w = inr ts)
  ∧ (by_ ∈ ["eMin"; "eMean"; "eMedian"] →
     (∀ t l h, titles self !! t = Some l → heap w !! l = Some h →
        is_Some (statNamed by_ h)) →
     ∃ ts, sortTitles by_ self w = inr ts)
  ∧ (by_ ∈ ["eMin"; "eMean"; "eMedian"] →
     (∃ t l h, titles self !! t = Some l ∧ heap w !! l = Some h
        ∧ statNamed by_ h = None) →
     sortTitles by_ self w = inl (KeyError by_)).
Proof.
  intros Hwf.
  assert (Hcount : ∀ (attr : HitInfo → Z),
            ∃ ks, decorate (λ h, inr (attr h)) w (map_to_list (titles self)) = inr ks).
  { intros attr. apply decorate_returns. intros t l Hin.
    apply elem_of_map_to_list in Hin. destruct (Hwf t l Hin) as [h Hh].
    by exists h, (attr h). }
  assert (Hstat : ∀ name (proj : HitInfo → option Qc),
            (∀ t l h, titles self !! t = Some l → heap w !! l = Some h →
               is_Some (proj h)) →
            ∃ ts, sortedOn keyed_le (λ h, statOf name (proj h)) self w = inr ts).
  { intros name proj Hall. unfold sortedOn.
    destruct (decorate_returns (λ h, statOf name (proj h)) w
                (map_to_list (titles self))) as [ks ->]; [| by eexists].
    intros t l Hin. apply elem_of_map_to_list in Hin.
    destruct (Hwf t l Hin) as [h Hh]. destruct (Hall t l h Hin Hh) as [v Hv].
    exists h, v. by rewrite Hv. }
  assert (Hmissing : ∀ name (proj : HitInfo → option Qc) entries,
            (∀ t l, (t, l) ∈ entries → is_Some (heap w !! l)) →
            (∃ t l h, (t, l) ∈ entries ∧ heap w !! l = Some h ∧ proj h = None) →
            decorate (λ h, statOf name (proj h)) w entries = inl (KeyError name)).
  { intros name proj entries. induction entries as [| [t0 l0] entries IH];
      intros Hstore (t & l & h & Hin & Hh & Hnone).
    { by apply elem_of_nil in Hin. }
    destruct (Hstore t0 l0) as [h0 Hh0]; [left |].
    simpl. unfold deref. rewrite Hh0.
    destruct (proj h0) as [v0 |] eqn:Hv0; [| done]. simpl.
    rewrite IH; [done | |].
    - intros t' l' Hin'. apply (Hstore t' l'). by right.
    - apply elem_of_cons in Hin as [Heq | Hin].
      + inversion Heq; subst. congruence.
      + by exists t, l, h. }
  assert (Hstore : ∀ t l, (t, l) ∈ map_to_list (titles self) → is_Some (heap w !! l)).
  { intros t l Hin. apply elem_of_map_to_list in Hin. by apply (Hwf t l). }
  unfold sortTitles. repeat split.
  - intros Hnot.
    repeat match goal with
           | |- (if ?d then _ else _) = _ =>
               destruct d as [-> | ?]; [exfalso; apply Hnot; set_solver |]
           end.
    done.
  - intros Hin.
    repeat (apply elem_of_cons in Hin as [-> | Hin]); [| | | by apply elem_of_nil in Hin].
    + simpl. unfold sortedOn. destruct (Hcount (λ h, Z.of_nat (readCount h))) as [ks ->].
      by eexists.
    + simpl. unfold sortedOn. destruct (Hcount hi_length) as [ks ->]. by eexists.
    + simpl. by eexists.
  - intros Hin Hall.
    repeat (apply elem_of_cons in Hin as [-> | Hin]); [| | | by apply elem_of_nil in Hin];
      simpl; apply Hstat; exact Hall.
  - intros Hin (t & l & h & Ht & Hh & Hnone).
    assert (Hex : ∀ proj : HitInfo → option Qc, proj h = None →
              ∃ t l h, (t, l) ∈ map_to_list (titles self)
                ∧ heap w !! l = Some h ∧ proj h = None).
    { intros proj Hp. exists t, l, h. split; [by apply elem_of_map_to_list | done]. }
    repeat (apply elem_of_cons in Hin as [-> | Hin]); [| | | by apply elem_of_nil in Hin];
      simpl; unfold sortedOn;
      (rewrite Hmissing; [done | exact Hstore | by apply Hex]).
Qed.

Lemma sortTitles_attributes_witness :
  sortTitles "bitScore" hitsOfTwoTitles passOfTwoTitles.2 = inl ValueError
  ∧ (∃ ts, sortTitles "length" hitsOfTwoTitles passOfTwoTitles.2 = inr ts).
Proof.
  destruct (sortTitles_attributes "bitScore" hitsOfTwoTitles passOfTwoTitles.2)
    as (Herr & _).
  { assert (Htitles : titles hitsOfTwoTitles = {[ "A" := 0; "B" := 1 ]})
      by (vm_compute; reflexivity).
    intros t l Hl. rewrite Htitles in Hl.
    apply lookup_insert_Some in Hl as [[<- <-] | [_ Hl]];
      [vm_compute; by eexists |].
    apply lookup_singleton_Some in Hl as [<- <-]. vm_compute. by eexists. }
  destruct (sortTitles_attributes "length" hitsOfTwoTitles passOfTwoTitles.2)
    as (_ & Hok & _).
  { assert (Htitles : titles hitsOfTwoTitles = {[ "A" := 0; "B" := 1 ]})
      by (vm_compute; reflexivity).
    intros t l Hl. rewrite Htitles in Hl.
    apply lookup_insert_Some in Hl as [[<- <-] | [_ Hl]];
      [vm_compute; by eexists |].
    apply lookup_singleton_Some in Hl as [<- <-]. vm_compute. by eexists. }
  split.
  - apply Herr. intros Hin.
    repeat (apply elem_of_cons in Hin as [Heq | Hin]; [discriminate |]).
    by apply elem_of_nil in Hin.
  - apply Hok. right. left.
Defined.

Lemma leb_String_le (a b : string) : String.leb a b = true ↔ String.le a b.
Proof. unfold String.le. symmetry. apply Is_true_true. Qed.

Lemma String_leb_total (a b : string) : String.leb a b = false → String.leb b a = true.
Proof.
  intros Hab. destruct (String.leb_total a b) as [H1 | H1]; [congruence | done].
Qed.

Lemma String_leb_trans (a b c : string) :
  String.leb a b = true → String.leb b c = true → String.leb a c = true.
Proof. rewrite !leb_String_le. intros Hab Hbc. by etrans. Qed.

Lemma keyed_le_cases (a b : Qc * string) :
  keyed_le a b = true ↔ (a.1 < b.1)%Qc ∨ (a.1 = b.1 ∧ String.leb a.2 b.2 = true).
Proof.
  unfold keyed_le. rewrite orb_true_iff, andb_true_iff, !bool_decide_eq_true. done.
Qed.

Lemma keyed_le_total (a b : Qc * string) : keyed_le a b = false → keyed_le b a = true.
Proof.
  intros Hab. apply keyed_le_cases.
  destruct (Qclt_le_dec b.1 a.1) as [Hlt | Hle]; [by left |].
  apply Qcle_lt_or_eq in Hle as [Hlt | Heq].
  - assert (keyed_le a b = true) by (apply keyed_le_cases; by left). congruence.
  - right. split; [done |]. apply String_leb_total.
    destruct (String.leb a.2 b.2) eqn:Hs; [| done].
    assert (keyed_le a b = true) by (apply keyed_le_cases; by right). congruence.
Qed.

Lemma keyed_le_trans (a b c : Qc * string) :
  keyed_le a b = true → keyed_le b c = true → keyed_le a c = true.
Proof.
  rewrite !keyed_le_cases.
  intros [Hab | [Hab Hs1]] [Hbc | [Hbc Hs2]].
  - left. by eapply Qclt_trans.
  - left. by rewrite <- Hbc.
  - left. by rewrite Hab.
  - right. split; [congruence | by eapply String_leb_trans].
Qed.

Lemma makeCmp_le_cases (a b : Z * string) :
  makeCmp_le a b = true ↔ (b.1 < a.1)%Z ∨ (a.1 = b.1 ∧ String.leb a.2 b.2 = true).
Proof.
  unfold makeCmp_le. rewrite orb_true_iff, andb_true_iff, !bool_decide_eq_true. done.
Qed.

Lemma makeCmp_le_total (a b : Z * string) :
  makeCmp_le a b = false → makeCmp_le b a = true.
Proof.
  intros Hab. apply makeCmp_le_cases.
  destruct (Z.lt_trichotomy a.1 b.1) as [Hlt | [Heq | Hgt]].
  - by left.
  - right. split; [done |]. apply String_leb_total.
    destruct (String.leb a.2 b.2) eqn:Hs; [| done].
    assert (makeCmp_le a b = true) by (apply makeCmp_le_cases; by right). congruence.
  - assert (makeCmp_le a b = true) by (apply makeCmp_le_cases; left; lia). congruence.
Qed.

Lemma makeCmp_le_trans (a b c : Z * string) :
  makeCmp_le a b = true → makeCmp_le b c = true → makeCmp_le a c = true.
Proof.
  rewrite !makeCmp_le_cases.
  intros [Hab | [Hab Hs1]] [Hbc | [Hbc Hs2]].
  - left. lia.
  - left. lia.
  - left. lia.
  - right. split; [congruence | by eapply String_leb_trans].
Qed.

Lemma sort_StronglySorted {A} (le : A → A → bool) (l : list A) :
  (∀ x y, le x y = false → le y x = true) →
  (∀ x y z, le x y = true → le y z = true → le x z = true) →
  StronglySorted (λ a b, le a b = true) (sort le l).
Proof.
  intros Htotal Htrans. apply Sorted_StronglySorted.
  - intros x y z. apply Htrans.
  - by apply sort_Sorted.
Qed.

Lemma StronglySorted_lookup {A} (R : A → A → Prop) (l : list A) (i j : nat)
    (x y : A) :
  StronglySorted R l → i < j → l !! i = Some x → l !! j = Some y → R x y.
Proof.
  intros Hs. revert i j. induction Hs as [| a l Hs IH Hall]; intros i j Hij Hi Hj.
  - done.
  - destruct j as [| j]; [lia |]. simpl in Hj. destruct i as [| i].
    + simpl in Hi. inversion Hi; subst a.
      rewrite Forall_forall in Hall. apply Hall.
      apply list_elem_of_lookup. by exists j.
    + simpl in Hi. apply (IH i j); [lia | done | done].
Qed.

(** The titles that [sortedOn] returns are in the order of their keys. *)
Lemma sortedOn_ordered {K} (le : K * string → K * string → bool)
    (attr : HitInfo → Error + K) (self : BlastHits) (w : World)
    (ts : list string) :
  (∀ x y, le x y = false → le y x = true) →
  (∀ x y z, le x y = true → le y z = true → le x z = true) →
  sortedOn le attr self w = inr ts →
  ∀ i j t1 t2, i < j → ts !! i = Some t1 → ts !! j = Some t2 →
    ∃ l1 l2 h1 h2 k1 k2,
      titles self !! t1 = Some l1 ∧ heap w !! l1 = Some h1 ∧ attr h1 = inr k1
      ∧ titles self !! t2 = Some l2 ∧ heap w !! l2 = Some h2 ∧ attr h2 = inr k2
      ∧ le (k1, t1) (k2, t2) = true.
Proof.
  intros Htotal Htrans. unfold sortedOn.
  destruct (decorate attr w (map_to_list (titles self))) as [e | ks] eqn:Hdec;
    [done |].
  intros Hts. inversion Hts; subst ts. clear Hts.
  destruct (decorate_titles attr w _ ks Hdec) as [_ Hattr].
  intros i j t1 t2 Hij Hi Hj.
  apply list_lookup_fmap_Some in Hi as ([k1 t1'] & -> & Hi).
  apply list_lookup_fmap_Some in Hj as ([k2 t2'] & -> & Hj).
  simpl.
  assert (Hin : ∀ k t n, sort le ks !! n = Some (k, t) → (k, t) ∈ ks).
  { intros k t n Hn. rewrite <- (sort_Permutation le ks).
    apply list_elem_of_lookup. by exists n. }
  destruct (Hattr k1 t1' (Hin _ _ _ Hi)) as (l1 & h1 & Hl1 & Hh1 & Hk1).
  destruct (Hattr k2 t2' (Hin _ _ _ Hj)) as (l2 & h2 & Hl2 & Hh2 & Hk2).
  apply elem_of_map_to_list in Hl1, Hl2.
  exists l1, l2, h1, h2, k1, k2. repeat split; try done.
  apply (StronglySorted_lookup (λ a b, le a b = true) (sort le ks) i j
           (k1, t1') (k2, t2')); [| done | done | done].
  by apply sort_StronglySorted.
Qed.

(** X6: on [eMin], [eMean] or [eMedian], [sortTitles] returns the titles
    in ascending order of the statistic, and titles with the same value in
    ascending order of title. *)
Theorem sortTitles_by_statistic (by_ : string) (self : BlastHits) (w : World)
    (ts : list string) :
  by_ ∈ ["eMin"; "eMean"; "eMedian"] →
  sortTitles by_ self w = inr ts →
  ∀ i j t1 t2, i < j → ts !! i = Some t1 → ts !! j = Some t2 →
    ∃ l1 l2 h1 h2 v1 v2,
      titles self !! t1 = Some l1 ∧ heap w !! l1 = Some h1
      ∧ statNamed by_ h1 = Some v1
      ∧ titles self !! t2 = Some l2 ∧ heap w !! l2 = Some h2
      ∧ statNamed by_ h2 = Some v2
      ∧ ((v1 < v2)%Qc ∨ (v1 = v2 ∧ String.le t1 t2)).
Proof.
  intros Hby Hsort i j t1 t2 Hij Hi Hj.
  assert (Hgen : ∃ proj : HitInfo → option Qc,
            (∀ h, statNamed by_ h = proj h)
            ∧ sortedOn keyed_le (λ h, statOf by_ (proj h)) self w = inr ts).
  { repeat (apply elem_of_cons in Hby as [-> | Hby]); [| | | by apply elem_of_nil in Hby].
    - by exists eMin.
    - by exists eMean.
    - by exists eMedian. }
  destruct Hgen as (proj & Hproj & Hsorted).
  destruct (sortedOn_ordered keyed_le _ self w ts keyed_le_total keyed_le_trans
              Hsorted i j t1 t2 Hij Hi Hj)
    as (l1 & l2 & h1 & h2 & k1 & k2 & Hl1 & Hh1 & Hk1 & Hl2 & Hh2 & Hk2 & Hle).
  exists l1, l2, h1, h2, k1, k2. rewrite !Hproj.
  unfold statOf in Hk1, Hk2.
  destruct (proj h1) as [v1 |]; [| done]. destruct (proj h2) as [v2 |]; [| done].
  inversion Hk1; inversion Hk2; subst. repeat split; try done.
  apply keyed_le_cases in Hle as [Hlt | [Heq Hs]]; [by left |].
  right. split; [done |]. by apply leb_String_le.
Qed.

Lemma sortTitles_by_statistic_witness :
  ∃ l1 l2 h1 h2 v1 v2,
    titles hitsOfTwoTitles !! "A" = Some l1 ∧ heap passOfTwoTitles.2 !! l1 = Some h1
    ∧ statNamed "eMin" h1 = Some v1
    ∧ titles hitsOfTwoTitles !! "B" = Some l2 ∧ heap passOfTwoTitles.2 !! l2 = Some h2
    ∧ statNamed "eMin" h2 = Some v2
    ∧ ((v1 < v2)%Qc ∨ (v1 = v2 ∧ String.le "A" "B")).
Proof.
  apply (sortTitles_by_statistic "eMin" hitsOfTwoTitles passOfTwoTitles.2
           ["A"; "B"] ltac:(left) ltac:(vm_compute; reflexivity) 0 1);
    [lia | reflexivity | reflexivity].
Defined.

(** X7: on [readCount] or [length], [sortTitles] returns the titles in
    descending order of the attribute, and titles with the same value in
    ascending order of title; on [title] it returns them in ascending
    order. *)
Theorem sortTitles_by_count (by_ : string) (self : BlastHits) (w : World)
    (ts : list string) :
  sortTitles by_ self w = inr ts →
  (by_ ∈ ["readCount"; "length"] →
   ∀ i j t1 t2, i < j → ts !! i = Some t1 → ts !! j = Some t2 →
     ∃ l1 l2 h1 h2,
       titles self !! t1 = Some l1 ∧ heap w !! l1 = Some h1
       ∧ titles self !! t2 = Some l2 ∧ heap w !! l2 = Some h2
       ∧ ((countNamed by_ h2 < countNamed by_ h1)%Z
          ∨ (countNamed by_ h1 = countNamed by_ h2 ∧ String.le t1 t2)))
  ∧ (by_ = "title" →
     ∀ i j t1 t2, i < j → ts !! i = Some t1 → ts !! j = Some t2 →
       String.le t1 t2).
Proof.
  intros Hsort. split.
  - intros Hby i j t1 t2 Hij Hi Hj.
    assert (Hgen : sortedOn makeCmp_le (λ h, inr (countNamed by_ h)) self w = inr ts).
    { repeat (apply elem_of_cons in Hby as [-> | Hby]); [| | by apply elem_of_nil in Hby];
        exact Hsort. }
    destruct (sortedOn_ordered makeCmp_le _ self w ts makeCmp_le_total
                makeCmp_le_trans Hgen i j t1 t2 Hij Hi Hj)
      as (l1 & l2 & h1 & h2 & k1 & k2 & Hl1 & Hh1 & Hk1 & Hl2 & Hh2 & Hk2 & Hle).
    exists l1, l2, h1, h2. inversion Hk1; inversion Hk2; subst.
    repeat split; try done.
    apply makeCmp_le_cases in Hle as [Hlt | [Heq Hs]]; [by left |].
    right. split; [done |]. by apply leb_String_le.
  - intros -> i j t1 t2 Hij Hi Hj. inversion Hsort; subst ts.
    apply leb_String_le.
    apply (StronglySorted_lookup (λ a b, String.leb a b = true)
             (sort String.leb (map_to_list (titles self)).*1) i j t1 t2);
      [| done | done | done].
    apply sort_StronglySorted; [apply String_leb_total | apply String_leb_trans].
Qed.

Lemma sortTitles_by_count_witness :
  ∃ l1 l2 h1 h2,
    titles hitsOfTwoTitles !! "B" = Some l1 ∧ heap passOfTwoTitles.2 !! l1 = Some h1
    ∧ titles hitsOfTwoTitles !! "A" = Some l2 ∧ heap passOfTwoTitles.2 !! l2 = Some h2
    ∧ ((countNamed "readCount" h2 < countNamed "readCount" h1)%Z
       ∨ (countNamed "readCount" h1 = countNamed "readCount" h2 ∧ String.le "B" "A")).
Proof.
  destruct (sortTitles_by_count "readCount" hitsOfTwoTitles passOfTwoTitles.2
              ["B"; "A"] ltac:(vm_compute; reflexivity)) as [Hcount _].
  apply (Hcount ltac:(left) 0 1); [lia | reflexivity | reflexivity].
Defined.

(** ** BlastRecords.filterHits: what it raises, and the store *)

Lemma enumerate_elem {A} (l : list A) (n : nat) (x : A) :
  (n, x) ∈ enumerate l ↔ l !! n = Some x.
Proof.
  unfold enumerate. rewrite list_elem_of_lookup. split.
  - intros [i Hi]. apply lookup_zip_with_Some in Hi as (k & y & Heq & Hk & Hy).
    inversion Heq; subst. apply lookup_seq in Hk as [-> _]. done.
  - intros Hn. exists n. apply lookup_zip_with_Some. exists n, x.
    split; [done |]. split; [| done]. apply lookup_seq. split; [done |].
    by apply lookup_lt_Some in Hn.
Qed.

Lemma alignmentsOf_elem (rs : list BlastRecord) (n : nat) (a : Alignment) :
  (n, a) ∈ alignmentsOf rs
  ↔ ∃ record, rs !! n = Some record ∧ a ∈ alignments record.
Proof.
  unfold alignmentsOf. rewrite list_elem_of_In, in_flat_map. split.
  - intros ([m record] & Hin & Ha). apply list_elem_of_In in Hin, Ha.
    apply list_elem_of_fmap in Ha as (a' & Heq & Ha). inversion Heq; subst.
    exists record. split; [by apply enumerate_elem | done].
  - intros (record & Hn & Ha). exists (n, record).
    split; apply list_elem_of_In; [by apply enumerate_elem |].
    apply list_elem_of_fmap. by exists a.
Qed.

Section RaiseFacts.
Context `{Env}.

(** The body of the first loop raises only at [alignment.hsps[0]]. *)
Lemma addAlignment_raises (p : FilterParams) (n : nat) (a : Alignment)
    (st st' : Aggregation) (e : Error) :
  accumulating p (result st) →
  addAlignment p n a st = (inl e, st') →
  e = IndexError ∧ hsps a = [].
Proof.
  intros Hinv.
  unfold addAlignment, TitleFilter_accept, bind, get, put, ret. simpl.
  destruct (decide (TitleFilter_decide (titleFilter st) (title a) = REJECT));
    [done |].
  destruct (result st !! title a) as [hitInfo |] eqn:Hlook.
  - destruct (Hinv _ _ Hlook) as (evs & Hevs & _).
    rewrite Hevs. destruct (hsps a); [| done].
    intros Hrun. by inversion Hrun.
  - destruct (lengthElided p (al_length a)); [done |].
    destruct (hsps a); [| done]. intros Hrun. by inversion Hrun.
Qed.

Lemma addAlignments_raises (p : FilterParams) (l : list (nat * Alignment))
    (st st' : Aggregation) (e : Error) :
  accumulating p (result st) →
  addAlignments p l st = (inl e, st') →
  e = IndexError ∧ ∃ n a, (n, a) ∈ l ∧ hsps a = [].
Proof.
  revert st. induction l as [| [n a] l IH]; intros st Hinv Hrun.
  - unfold addAlignments in Hrun. simpl in Hrun. done.
  - unfold addAlignments in Hrun. simpl in Hrun. unfold bind in Hrun.
    destruct (addAlignment p n a st) as [[e1 | []] st1] eqn:Hstep.
    + inversion Hrun; subst e1 st1.
      destruct (addAlignment_raises p n a st st' e Hinv Hstep) as [-> Hnone].
      split; [done |]. exists n, a. split; [left | done].
    + destruct (IH st1) as [-> (n' & a' & Hin & Hnone)];
        [by apply (accumulating_step p n a st) | exact Hrun |].
      split; [done |]. exists n', a'. split; [by right | done].
Qed.

Lemma finishTitle_inr (hitInfoFilter : HitInfoFilter) (t : string)
    (hitInfo : HitInfo) (blastHits blastHits' : BlastHits) (w w' : World) :
  finishTitle hitInfoFilter (t, hitInfo) (blastHits, w)
    = (inr tt, (blastHits', w')) →
  (blastHits' = blastHits ∧ w' = w)
  ∨ ∃ summary,
      titles blastHits !! t = None
      ∧ blastHits' = set_titles (<[t := fresh (dom (heap w))]> (titles blastHits))
                       blastHits
      ∧ w' = {| heap := <[fresh (dom (heap w)) := forget summary]> (heap w);
                draws := draws w |}.
Proof.
  unfold finishTitle. destruct (summarize hitInfo) as [e | summary]; [done |].
  destruct (_ || _).
  - unfold alloc, addHit, bind, get, put, raise.
    destruct (decide (is_Some (titles blastHits !! t))) as [Hsome | Hnone]; [done |].
    intros Hrun. inversion Hrun; subst. right. exists summary.
    split; [| done]. destruct (titles blastHits !! t) eqn:Ht; [| done].
    exfalso. apply Hnone. by eexists.
  - intros Hrun. inversion Hrun; subst. by left.
Qed.

(** The second loop keeps the references apart: every title names a dict
    of the store, no two titles name the same dict, and every dict that
    enters the store is named by a title. *)
Lemma finishTitle_refs (hitInfoFilter : HitInfoFilter)
    (entries : list (string * HitInfo)) :
  ∀ (blastHits blastHits' : BlastHits) (w w' : World),
    forM entries (finishTitle hitInfoFilter) (blastHits, w)
      = (inr tt, (blastHits', w')) →
    (∀ t l, titles blastHits !! t = Some l → is_Some (heap w !! l)) →
    (∀ t1 t2 l, titles blastHits !! t1 = Some l → titles blastHits !! t2 = Some l →
       t1 = t2) →
    (∀ t l, titles blastHits !! t = Some l → titles blastHits' !! t = Some l)
    ∧ (∀ t l, titles blastHits' !! t = Some l → is_Some (heap w' !! l))
    ∧ (∀ t1 t2 l, titles blastHits' !! t1 = Some l →
         titles blastHits' !! t2 = Some l → t1 = t2)
    ∧ (∀ l, is_Some (heap w' !! l) →
         is_Some (heap w !! l) ∨ ∃ t, titles blastHits' !! t = Some l).
Proof.
  induction entries as [| [t hitInfo] entries IH];
    intros bh bh' w w' Hrun Hwf Hinj.
  - inversion Hrun; subst. repeat split; try done. intros l Hl. by left.
  - simpl in Hrun. unfold bind in Hrun.
    destruct (finishTitle hitInfoFilter (t, hitInfo) (bh, w))
      as [[e | []] [bh1 w1]] eqn:Hstep; [done |].
    apply finishTitle_inr in Hstep as [[-> ->] | (summary & Hnone & -> & ->)].
    { by apply IH. }
    set (l := fresh (dom (heap w))) in *.
    assert (Hl : heap w !! l = None).
    { apply not_elem_of_dom. apply is_fresh. }
    destruct (IH _ _ _ _ Hrun) as (Hmono & Hwf' & Hinj' & Hnew).
    + intros t' l' Hl'. simpl in Hl'. simpl.
      destruct (decide (t = t')) as [<- | Hne].
      * rewrite lookup_insert_eq in Hl'. inversion Hl'; subst l'.
        rewrite lookup_insert_eq. by eexists.
      * rewrite lookup_insert_ne in Hl' by done.
        destruct (decide (l = l')) as [<- | Hne'].
        -- rewrite lookup_insert_eq. by eexists.
        -- rewrite lookup_insert_ne by done. by apply (Hwf t').
    + intros t1 t2 l' H1 H2. simpl in H1, H2.
      destruct (decide (t = t1)) as [<- | Hne1], (decide (t = t2)) as [<- | Hne2];
        try done.
      * rewrite lookup_insert_eq in H1. inversion H1; subst l'.
        rewrite lookup_insert_ne in H2 by done.
        destruct (Hwf _ _ H2) as [x Hx]. congruence.
      * rewrite lookup_insert_eq in H2. inversion H2; subst l'.
        rewrite lookup_insert_ne in H1 by done.
        destruct (Hwf _ _ H1) as [x Hx]. congruence.
      * rewrite lookup_insert_ne in H1, H2 by done. by apply (Hinj t1 t2 l').
    + split; [| split; [done | split; [done |]]].
      * intros t' l' Hl'. apply Hmono. simpl.
        destruct (decide (t = t')) as [<- | Hne]; [congruence |].
        by rewrite lookup_insert_ne.
      * intros l' Hl'. destruct (Hnew l' Hl') as [Hold | Hnamed]; [| by right].
        simpl in Hold. destruct (decide (l = l')) as [<- | Hne].
        -- right. exists t. apply Hmono. simpl. apply lookup_insert_eq.
        -- rewrite lookup_insert_ne in Hold by done. by left.
Qed.

(** A run of [BlastRecords.filterHits] that returns is a first loop that
    returned followed by a second loop that returned. *)
Lemma BlastRecords_filterHits_inr (p : FilterParams) (self : BlastRecords)
    (w w' : World) (blastHits : BlastHits) :
  BlastRecords_filterHits p self w = (inr blastHits, w') →
  ∃ st,
    aggregate p (BlastRecords_records self).1 (startOf p) = (inr tt, st)
    ∧ forM (map_to_list (result st)) (finishTitle (mkHitInfoFilter false p))
        (BlastHits_new (BlastRecords_records self).2, w)
      = (inr tt, (blastHits, w')).
Proof.
  unfold BlastRecords_filterHits, startOf.
  destruct (BlastRecords_records self) as [rs self']. simpl.
  destruct (aggregate p rs _) as [[e | []] st]; [discriminate |].
  destruct (forM (map_to_list (result st)) _ _) as [[e | []] [bh w1]] eqn:Hloop;
    [discriminate |].
  intros Hrun. inversion Hrun; subst. by exists st.
Qed.

End RaiseFacts.

(** X8: on the records that [records] yields, the two loops of
    [BlastRecords.filterHits] raise nothing but the [IndexError] of
    [alignment.hsps[0]]: the first loop completes whenever every alignment
    of the records has an HSP, and when it raises, some alignment has none;
    the second loop never raises, as every list of e-values is non-empty,
    the entries it deletes are there and no title is added twice. What
    [records] raises before it yields a record, the [ValueError] of an
    unknown file type, comes before the loops. *)
Theorem filterHits_loops_raise `{Env} (p : FilterParams) (rs : list BlastRecord) :
  ((∀ record a, record ∈ rs → a ∈ alignments record → hsps a ≠ []) →
   ∃ st, aggregate p rs (startOf p) = (inr tt, st))
  ∧ (∀ e st, aggregate p rs (startOf p) = (inl e, st) →
       e = IndexError
       ∧ ∃ record a, record ∈ rs ∧ a ∈ alignments record ∧ hsps a = [])
  ∧ (∀ st recs w, aggregate p rs (startOf p) = (inr tt, st) →
       ∃ blastHits w',
         forM (map_to_list (result st)) (finishTitle (mkHitInfoFilter false p))
           (BlastHits_new recs, w) = (inr tt, (blastHits, w'))).
Proof.
  assert (Hraise : ∀ e st, aggregate p rs (startOf p) = (inl e, st) →
            e = IndexError
            ∧ ∃ record a, record ∈ rs ∧ a ∈ alignments record ∧ hsps a = []).
  { intros e st Hagg. rewrite aggregate_alignmentsOf in Hagg.
    destruct (addAlignments_raises p _ _ _ _ (accumulating_start p) Hagg)
      as [-> (n & a & Hin & Hnone)].
    split; [done |]. apply alignmentsOf_elem in Hin as (record & Hn & Ha).
    exists record, a. split; [| done]. apply list_elem_of_lookup. by exists n. }
  split; [| split; [exact Hraise |]].
  - intros Hall.
    destruct (aggregate p rs (startOf p)) as [[e | []] st] eqn:Hagg;
      [| by exists st].
    destruct (Hraise e st eq_refl) as [_ (record & a & Hin & Ha & Hnone)].
    by destruct (Hall record a Hin Ha).
  - intros st recs w Hagg.
    assert (Hinv : accumulating p (result st)).
    { rewrite aggregate_alignmentsOf in Hagg.
      eapply accumulating_pass; [apply accumulating_start | exact Hagg]. }
    destruct (finishTitle_loop (mkHitInfoFilter false p) (map_to_list (result st)))
      with (blastHits := BlastHits_new recs) (w := w)
      as (bh' & w' & Hloop & _).
    + apply NoDup_fst_map_to_list.
    + intros t hitInfo Hin. apply elem_of_map_to_list in Hin.
      destruct (summarize_accumulating p _ t hitInfo Hinv Hin)
        as (evs & m & Hevs & _ & Hm & _).
      rewrite Hevs. simpl. rewrite Hm. by eexists.
    + intros t [x Hx]. simpl in Hx. by rewrite lookup_empty in Hx.
    + by exists bh', w'.
Qed.

Lemma filterHits_loops_raise_witness :
  ∃ st,
    @aggregate specEnv noFilter (BlastRecords_records twoReads).1 (startOf noFilter)
      = (inr tt, st).
Proof.
  destruct (@filterHits_loops_raise specEnv noFilter
              (BlastRecords_records twoReads).1) as [Hreturns _].
  apply Hreturns. intros record a Hin Ha.
  apply list_elem_of_In in Hin. simpl in Hin.
  destruct Hin as [<- | [<- | []]]; apply list_elem_of_In in Ha; simpl in Ha;
    destruct Ha as [<- | []]; discriminate.
Defined.

(** X9: when [BlastRecords.filterHits] returns, the store has grown by one
    new dict for every title of the returned instance and by nothing else:
    the dicts that were in the store are as they were, no random draw is
    made, every title names a dict that was not in the store before, no two
    titles name the same dict, and the instance holds the records with
    their length set, no FASTA sequences and no plot parameters. *)
Theorem BlastRecords_filterHits_allocates `{Env} (p : FilterParams)
    (self : BlastRecords) (w w' : World) (blastHits : BlastHits) :
  BlastRecords_filterHits p self w = (inr blastHits, w') →
  heap w ⊆ heap w'
  ∧ draws w' = draws w
  ∧ records blastHits = (BlastRecords_records self).2
  ∧ fasta blastHits = None
  ∧ plotParams blastHits = None
  ∧ (∀ t l, titles blastHits !! t = Some l →
       is_Some (heap w' !! l) ∧ heap w !! l = None)
  ∧ (∀ t1 t2 l, titles blastHits !! t1 = Some l →
       titles blastHits !! t2 = Some l → t1 = t2)
  ∧ (∀ l, is_Some (heap w' !! l) →
       is_Some (heap w !! l) ∨ ∃ t, titles blastHits !! t = Some l).
Proof.
  intros Hrun.
  destruct (BlastRecords_filterHits_inr p self w w' blastHits Hrun)
    as (st & Hagg & Hloop).
  destruct (BlastRecords_filterHits_run p self w st Hagg)
    as (bh & w1 & Hrun' & Hinv & Hsub & Hrec & Hback & _).
  rewrite Hrun in Hrun'. inversion Hrun'; subst bh w1. clear Hrun'.
  destruct (finishTitle_refs _ _ _ _ _ _ Hloop) as (_ & Hwf & Hinj & Hnew).
  { intros t l Hl. simpl in Hl. by rewrite lookup_empty in Hl. }
  { intros t1 t2 l Hl. simpl in Hl. by rewrite lookup_empty in Hl. }
  destruct (finishTitle_loop (mkHitInfoFilter false p) (map_to_list (result st)))
    with (blastHits := BlastHits_new (BlastRecords_records self).2) (w := w)
    as (bh' & w2 & Hloop' & _ & Hdraws & _ & Hfa & Hpp & _).
  { apply NoDup_fst_map_to_list. }
  { intros t hitInfo Hin. apply elem_of_map_to_list in Hin.
    destruct (summarize_accumulating p _ t hitInfo Hinv Hin)
      as (evs & m & Hevs & _ & Hm & _).
    rewrite Hevs. simpl. rewrite Hm. by eexists. }
  { intros t [x Hx]. simpl in Hx. by rewrite lookup_empty in Hx. }
  rewrite Hloop in Hloop'. inversion Hloop'; subst bh' w2. clear Hloop'.
  repeat split; try done.
  - by apply (Hwf t).
  - by destruct (Hback t l) as (h & s & _ & _ & _ & _ & Hnone).
Qed.

Lemma BlastRecords_filterHits_allocates_witness :
  heap emptyWorld ⊆ heap firstPass.2 ∧ draws firstPass.2 = draws emptyWorld.
Proof.
  destruct (@BlastRecords_filterHits_allocates specEnv noFilter twoReads
              emptyWorld firstPass.2 hitsOfTwoReads ltac:(vm_compute; reflexivity))
    as (Hsub & Hdraws & _).
  split; [exact Hsub | exact Hdraws].
Defined.

(** ** BlastRecords.filterHits: where the dict of a title comes from *)

Lemma BlastRecords_records_counted (self : BlastRecords) :
  _length (BlastRecords_records self).2 = length (BlastRecords_records self).1.
Proof.
  unfold BlastRecords_records. destruct (limit self) as [lim |]; [| done].
  rewrite records_upto_count by lia. simpl.
  rewrite length_take, Nat.sub_0_r. done.
Qed.

Section SourceFacts.
Context `{Env}.

Lemma sourced_mono (l l' : list (nat * Alignment)) (r : gmap string HitInfo) :
  (∀ x, x ∈ l → x ∈ l') → sourced l r → sourced l' r.
Proof.
  intros Hsub Hsrc t h Hlook.
  destruct (Hsrc t h Hlook) as (Hne & Hsize & Hnums & Hlen & Hevs).
  split; [done |]. split; [done |]. split; [| split].
  - intros n Hn. destruct (Hnums n Hn) as (a & Hin & Ht). exists a.
    split; [by apply Hsub | done].
  - destruct Hlen as (n & a & Hin & Ht & Hl). exists n, a.
    split; [by apply Hsub | done].
  - intros evs e He Hin.
    destruct (Hevs evs e He Hin) as (n & a & best & rest & Hin' & Hrest).
    exists n, a, best, rest. split; [by apply Hsub | done].
Qed.

Lemma sourced_step (p : FilterParams) (n : nat) (a : Alignment)
    (st st' : Aggregation) (l : list (nat * Alignment)) :
  sourced l (result st) →
  addAlignment p n a st = (inr tt, st') →
  sourced (l ++ [(n, a)]) (result st').
Proof.
  intros Hsrc Hrun.
  assert (Hold : sourced (l ++ [(n, a)]) (result st)).
  { apply (sourced_mono l); [| done]. intros x Hx. apply elem_of_app. by left. }
  assert (Hlast : (n, a) ∈ l ++ [(n, a)]).
  { apply elem_of_app. right. left. }
  destruct (addAlignment_inr p n a st st' Hrun) as [_ [[-> _] | [Hr Hrec]]]; [done |].
  destruct Hrec as (hitInfo & best & rest & evs & Hfound & Hhsps & Hevs & ->).
  intros t h Hlook.
  destruct (decide (title a = t)) as [<- | Hne];
    [| rewrite lookup_insert_ne in Hlook by done; by apply (Hold t h)].
  rewrite lookup_insert_eq in Hlook. inversion Hlook; subst h. clear Hlook.
  simpl. split.
  { intros Heq. apply (not_elem_of_empty (C := gset nat) n). rewrite <- Heq.
    apply elem_of_union_l. by apply elem_of_singleton. }
  destruct Hfound as [Hin | (Hnone & Hel & ->)].
  - destruct (Hold _ _ Hin) as (Hne & Hsize & Hnums & Hlen & Hes).
    split; [| split; [| split]].
    + rewrite size_union_alt, size_singleton.
      assert (size (readNums hitInfo ∖ {[n]}) ≤ size (readNums hitInfo));
        [by apply subseteq_size, subseteq_difference_l | lia].
    + intros m Hm. apply elem_of_union in Hm as [Hm | Hm].
      * apply elem_of_singleton in Hm as ->. by exists a.
      * by apply Hnums.
    + done.
    + intros evs' e He Hine. inversion He; subst evs'.
      apply elem_of_app in Hine as [Hine | Hine].
      * by apply (Hes evs e).
      * apply list_elem_of_singleton in Hine as ->. by exists n, a, best, rest.
  - simpl in Hevs. inversion Hevs; subst evs.
    cbn [readNums readCount hi_length eValues newHitInfo app].
    split; [| split; [| split]].
    + rewrite (union_empty_r_L (C := gset nat)), size_singleton. lia.
    + intros m Hm. apply elem_of_union in Hm as [Hm | Hm];
        [| by apply not_elem_of_empty in Hm].
      apply elem_of_singleton in Hm as ->. by exists a.
    + by exists n, a.
    + intros evs' e He Hine. inversion He; subst evs'.
      apply list_elem_of_singleton in Hine as ->. by exists n, a, best, rest.
Qed.

Lemma sourced_pass (p : FilterParams) (l : list (nat * Alignment)) :
  ∀ (l0 : list (nat * Alignment)) (st st' : Aggregation),
    sourced l0 (result st) →
    addAlignments p l st = (inr tt, st') →
    sourced (l0 ++ l) (result st').
Proof.
  induction l as [| [n a] l IH]; intros l0 st st' Hsrc Hrun.
  - unfold addAlignments in Hrun. simpl in Hrun. inversion Hrun; subst.
    by rewrite app_nil_r.
  - unfold addAlignments in Hrun. simpl in Hrun. unfold bind in Hrun.
    destruct (addAlignment p n a st) as [[e | []] st1] eqn:Hstep; [done |].
    rewrite (cons_middle (n, a) l0 l), app_assoc.
    apply (IH _ st1); [| done]. by apply (sourced_step p n a st).
Qed.

End SourceFacts.

(** X10: when [BlastRecords.filterHits] returns, the dict of a title holds
    only what the alignments with that title gave it: every read number is
    the index, below [len] of the records, of a record read that has an
    alignment with the title; there is at least one read number and there
    are at most [readCount] of them; the length is the length of such an
    alignment; and [eMin] is the e-value of the first HSP of such an
    alignment. *)
Theorem BlastRecords_filterHits_sources `{Env} (p : FilterParams)
    (self : BlastRecords) (w w' : World) (blastHits : BlastHits) :
  BlastRecords_filterHits p self w = (inr blastHits, w') →
  ∀ t l, titles blastHits !! t = Some l →
    ∃ stored,
      heap w' !! l = Some stored
      ∧ readNums stored ≠ ∅
      ∧ size (readNums stored) ≤ readCount stored
      ∧ (∀ n, n ∈ readNums stored →
           n < BlastRecords_len (records blastHits)
           ∧ ∃ record a,
               (BlastRecords_records self).1 !! n = Some record
               ∧ a ∈ alignments record ∧ title a = t)
      ∧ (∃ n record a,
           (BlastRecords_records self).1 !! n = Some record
           ∧ a ∈ alignments record ∧ title a = t
           ∧ hi_length stored = al_length a)
      ∧ (∃ n record a best rest,
           (BlastRecords_records self).1 !! n = Some record
           ∧ a ∈ alignments record ∧ title a = t
           ∧ hsps a = best :: rest
           ∧ eMin stored = Some (expect best)).
Proof.
  intros Hrun t l Hl.
  destruct (BlastRecords_filterHits_inr p self w w' blastHits Hrun)
    as (st & Hagg & _).
  destruct (BlastRecords_filterHits_run p self w st Hagg)
    as (bh & w1 & Hrun' & Hinv & _ & Hrec & Hback & _).
  rewrite Hrun in Hrun'. inversion Hrun'; subst bh w1. clear Hrun'.
  assert (Hsrc : sourced (alignmentsOf (BlastRecords_records self).1) (result st)).
  { rewrite aggregate_alignmentsOf in Hagg.
    apply (sourced_pass p _ [] (startOf p) st); [| done].
    intros t' h Hlook. simpl in Hlook. by rewrite lookup_empty in Hlook. }
  destruct (Hback t l Hl) as (h & s & Hin & Hs & _ & Hst & _).
  destruct (summarize_accumulating p _ t h Hinv Hin)
    as (evs & m & Hevs & _ & Hm & _ & _ & _ & Hsum).
  rewrite Hsum in Hs. inversion Hs; subst s. clear Hs.
  destruct (Hsrc t h Hin) as (Hne & Hsize & Hnums & Hlen & Hes).
  eexists. split; [exact Hst |]. simpl.
  split; [done |]. split; [done |]. split; [| split].
  - intros n Hn. destruct (Hnums n Hn) as (a & Ha & Ht).
    apply alignmentsOf_elem in Ha as (record & Hn' & Ha). split.
    + unfold BlastRecords_len. rewrite Hrec, BlastRecords_records_counted.
      by apply lookup_lt_Some in Hn'.
    + by exists record, a.
  - destruct Hlen as (n & a & Ha & Ht & Hlen).
    apply alignmentsOf_elem in Ha as (record & Hn' & Ha).
    by exists n, record, a.
  - destruct (py_min_least evs m Hm) as [Hmin _].
    destruct (Hes evs m Hevs Hmin) as (n & a & best & rest & Ha & Ht & Hh & ->).
    apply alignmentsOf_elem in Ha as (record & Hn' & Ha).
    by exists n, record, a, best, rest.
Qed.

Lemma BlastRecords_filterHits_sources_witness :
  ∃ stored,
    heap firstPass.2 !! 0 = Some stored
    ∧ readNums stored ≠ ∅
    ∧ size (readNums stored) ≤ readCount stored.
Proof.
  destruct (@BlastRecords_filterHits_sources specEnv noFilter twoReads
              emptyWorld firstPass.2 hitsOfTwoReads ltac:(vm_compute; reflexivity)
              "T" 0 ltac:(vm_compute; reflexivity))
    as (stored & Hst & Hne & Hsize & _).
  exists stored. split; [exact Hst |]. split; [exact Hne | exact Hsize].
Defined.

(** ** computePlotInfo: the HSPs of one alignment *)

Lemma addHsps_upto `{Env} (p : PlotParams) (firstItem : bool)
    (queryLen readNum : nat) (hsps : list HSP) :
  ∀ (hspCount : nat) (pi : PlotInfo),
    addHsps p firstItem queryLen readNum hspCount hsps pi
      = forM (match maxHspsPerHit p with
              | Some m => take (S m - hspCount) hsps
              | None => hsps
              end) (addHsp p firstItem queryLen readNum) pi.
Proof.
  induction hsps as [| hsp hsps IH]; intros hspCount pi.
  - simpl. by destruct (maxHspsPerHit p); [rewrite take_nil |].
  - cbn [addHsps]. destruct (maxHspsPerHit p) as [m |] eqn:Hmax.
    + destruct (bool_decide (m < hspCount)) eqn:Hlt.
      * apply bool_decide_eq_true in Hlt.
        by replace (S m - hspCount) with 0 by lia.
      * apply bool_decide_eq_false in Hlt.
        replace (S m - hspCount) with (S (S m - S hspCount)) by lia.
        cbn [take forM]. unfold bind.
        destruct (addHsp p firstItem queryLen readNum hsp pi) as [[e | []] pi1];
          [done |].
        apply IH.
    + cbn [forM]. unfold bind.
      destruct (addHsp p firstItem queryLen readNum hsp pi) as [[e | []] pi1];
        [done |].
      apply IH.
Qed.

(** X11: the loop over the HSPs of an alignment runs its body on the first
    [maxHspsPerHit] HSPs and on no other, and on all of them when
    [maxHspsPerHit] is [None]: an HSP beyond the limit is not normalized
    and cannot make the loop raise. *)
Theorem addHsps_first_maxHspsPerHit `{Env} (p : PlotParams) (firstItem : bool)
    (queryLen readNum : nat) (hsps : list HSP) (pi : PlotInfo) :
  addHsps p firstItem queryLen readNum 1 hsps pi
    = forM (match maxHspsPerHit p with
            | Some m => take m hsps
            | None => hsps
            end) (addHsp p firstItem queryLen readNum) pi.
Proof.
  rewrite addHsps_upto. destruct (maxHspsPerHit p) as [m |]; [| done].
  by replace (S m - 1) with m by lia.
Qed.

(** ** computePlotInfo: the shape of a run *)

Lemma forM_inr {S A} (I : S → Prop) (l : list A) (body : A → M S unit) :
  (∀ x s s', x ∈ l → I s → body x s = (inr tt, s') → I s') →
  ∀ s s', I s → forM l body s = (inr tt, s') → I s'.
Proof.
  induction l as [| x l IH]; intros Hstep s s' Hs Hrun.
  - by inversion Hrun; subst.
  - simpl in Hrun. unfold bind in Hrun.
    destruct (body x s) as [[e | []] s1] eqn:Hx; [done |].
    apply (IH (λ y t t' Hy, Hstep y t t' (list_elem_of_further _ _ _ Hy)) s1 s');
      [| done].
    apply (Hstep x s s1); [left | done | done].
Qed.


Lemma store_plotInfo_lookup (l l0 : nat) (pi : option PlotInfo) (w : World) :
  heap (store_plotInfo l pi w) !! l0
    = if decide (l0 = l) then set_plotInfo pi <$> heap w !! l0 else heap w !! l0.
Proof.
  unfold store_plotInfo. simpl. destruct (decide (l0 = l)) as [-> | Hne].
  - apply lookup_alter_eq.
  - by apply lookup_alter_ne.
Qed.

Section RunFacts.
Context `{Env}.

(** A round of the loop over the tuples of [_getHsps] that does not
    raise. *)
Lemma addGroup_inr (p : PlotParams) (self : BlastHits) (fa : list string)
    (t : string) (n : nat) (hs : list HSP) (w w' : World) :
  addGroup p self fa (t, n, hs) w = (inr tt, w') →
  ∃ l hitInfo read pi0 firstItem pi1,
    titles self !! t = Some l
    ∧ heap w !! l = Some hitInfo
    ∧ fa !! n = Some read
    ∧ ((plotInfo hitInfo = None ∧ pi0 = plotInfoDict p (hi_length hitInfo)
        ∧ firstItem = true)
       ∨ (plotInfo hitInfo = Some pi0 ∧ firstItem = false))
    ∧ addHsps p firstItem (String.length read) n 1 hs
        (set_hspTotal (hspTotal pi0 + length hs) pi0) = (inr tt, pi1)
    ∧ heap w' !! l = Some (set_plotInfo (Some pi1) hitInfo)
    ∧ (∀ l0, l0 ≠ l → heap w' !! l0 = heap w !! l0)
    ∧ draws w' = draws w.
Proof.
  unfold addGroup. destruct (titles self !! t) as [l |] eqn:Ht; [| done].
  unfold bind, deref, modify, raise, lift.
  destruct (heap w !! l) as [hitInfo |] eqn:Hl; [| done].
  destruct (match plotInfo hitInfo with
            | Some plotInfo => (plotInfo, false)
            | None => (plotInfoDict p (hi_length hitInfo), true)
            end) as [pi0 firstItem] eqn:Hfirst.
  destruct (fa !! n) as [read |] eqn:Hread; [| done].
  destruct (addHsps p firstItem (String.length read) n 1 hs
              (set_hspTotal (hspTotal pi0 + length hs) pi0)) as [r pi1] eqn:Hadd.
  intros Hrun. inversion Hrun; subst r w'. clear Hrun.
  exists l, hitInfo, read, pi0, firstItem, pi1.
  split; [done |]. split; [done |]. split; [done |]. split.
  { destruct (plotInfo hitInfo) as [pi |]; inversion Hfirst; subst.
    - by right.
    - by left. }
  split; [done |]. split; [| split; [| done]].
  - rewrite !store_plotInfo_lookup.
    destruct (decide (l = l)) as [_ | Hn]; [| done]. by rewrite Hl.
  - intros l0 Hne. rewrite !store_plotInfo_lookup.
    by destruct (decide (l0 = l)).
Qed.

(** What holds of a new plot info and is kept by the HSPs of every
    alignment, holds of every plot info after the loop. *)
Lemma addGroups_holds (P : PlotInfo → Prop) (p : PlotParams) (self : BlastHits)
    (fa : list string) (gs : list (string * nat * list HSP)) (w w' : World)
    (l0 : nat) :
  (∀ len, P (plotInfoDict p len)) →
  (∀ t n hs firstItem read pi pi',
     (t, n, hs) ∈ gs → fa !! n = Some read → P pi →
     addHsps p firstItem (String.length read) n 1 hs
       (set_hspTotal (hspTotal pi + length hs) pi) = (inr tt, pi') →
     P pi') →
  forM gs (addGroup p self fa) w = (inr tt, w') →
  holds P w l0 → holds P w' l0.
Proof.
  intros Hnew Hstep Hrun Hw.
  apply (forM_inr (λ w, holds P w l0) gs (addGroup p self fa)) with (s := w);
    [| done | done].
  intros [[t n] hs] s s' Hin Hs Hg.
  apply addGroup_inr in Hg
    as (l & hitInfo & read & pi0 & firstItem & pi1 & Ht & Hl & Hread & Hfirst
        & Hadd & Hl' & Hframe & _).
  intros h pi Hh Hpi. destruct (decide (l0 = l)) as [-> | Hne].
  - rewrite Hl' in Hh. inversion Hh; subst h. simpl in Hpi.
    inversion Hpi; subst pi.
    apply (Hstep t n hs firstItem read pi0 pi1); [done | done | | done].
    destruct Hfirst as [(_ & -> & _) | [Hsome _]]; [apply Hnew |].
    by apply (Hs hitInfo).
  - rewrite Hframe in Hh by done. by apply (Hs h).
Qed.

(** A round of the last loop that does not raise. *)
Lemma finishTitlePlot_inr (p : PlotParams) (l : nat) (w w' : World) :
  finishTitlePlot p l w = (inr tt, w') →
  ∃ hitInfo,
    heap w !! l = Some hitInfo
    ∧ ((plotInfo hitInfo = None ∧ w' = w)
       ∨ ∃ pi pi',
           plotInfo hitInfo = Some pi
           ∧ finishPlotInfo p (draws w) pi = inr (pi', draws w')
           ∧ heap w' !! l = Some (set_plotInfo (Some pi') hitInfo)
           ∧ ∀ l0, l0 ≠ l → heap w' !! l0 = heap w !! l0).
Proof.
  unfold finishTitlePlot, bind, deref, get, put, raise, ret. intros Hrun.
  destruct (heap w !! l) as [hitInfo |] eqn:Hl; [| done].
  exists hitInfo. split; [done |].
  destruct (plotInfo hitInfo) as [pi |] eqn:Hpi.
  - destruct (finishPlotInfo p (draws w) pi) as [e | [pi' d]] eqn:Hfin; [done |].
    inversion Hrun; subst w'. right. exists pi, pi'. simpl.
    split; [done |]. split; [done |]. split.
    + by rewrite lookup_alter_eq, Hl.
    + intros l0 Hne. by apply lookup_alter_ne.
  - inversion Hrun; subst w'. by left.
Qed.

(** What the finishing of a plot info establishes holds of every plot
    info after the last loop. *)
Lemma finishTitlePlots_establish (P Q : PlotInfo → Prop) (p : PlotParams)
    (entries : list (string * nat)) :
  (∀ d pi pi' d', P pi → finishPlotInfo p d pi = inr (pi', d') → Q pi') →
  (∀ pi, Q pi → P pi) →
  ∀ w w',
    forM entries (λ '(title, l), finishTitlePlot p l) w = (inr tt, w') →
    (∀ l, l ∈ entries.*2 → holds P w l) →
    ∀ l0, holds Q w l0 ∨ l0 ∈ entries.*2 → holds Q w' l0.
Proof.
  intros Hfin HQP. induction entries as [| [t l] entries IH];
    intros w w' Hrun HP l0 Hl0.
  - inversion Hrun; subst w'. destruct Hl0 as [Hok | Hin]; [done |].
    by apply elem_of_nil in Hin.
  - simpl in Hrun. unfold bind in Hrun.
    destruct (finishTitlePlot p l w) as [[e | []] w1] eqn:Hstep; [done |].
    apply finishTitlePlot_inr in Hstep as (hitInfo & Hl & Hstep).
    assert (Hnow : holds Q w1 l ∧ ∀ l1, l1 ≠ l → heap w1 !! l1 = heap w !! l1).
    { destruct Hstep as [[Hnone ->] | (pi & pi' & Hpi & Hf & Hl' & Hframe)].
      - split; [| done]. intros h pi Hh Hpi. congruence.
      - split; [| done]. intros h pi1 Hh Hpi1. rewrite Hl' in Hh.
        inversion Hh; subst h. simpl in Hpi1. inversion Hpi1; subst pi1.
        apply (Hfin _ _ _ _ (HP l ltac:(simpl; left) hitInfo pi Hl Hpi) Hf). }
    destruct Hnow as [HQl Hframe].
    apply (IH w1 w' Hrun).
    + intros l1 Hl1. destruct (decide (l1 = l)) as [-> | Hne].
      * intros h pi Hh Hpi. apply HQP. by apply (HQl h).
      * intros h pi Hh Hpi. rewrite Hframe in Hh by done.
        apply (HP l1 ltac:(simpl; by right) h pi Hh Hpi).
    + destruct (decide (l0 = l)) as [-> | Hne]; [by left |].
      destruct Hl0 as [Hok | Hin].
      * left. intros h pi Hh Hpi. rewrite Hframe in Hh by done. by apply (Hok h).
      * right. simpl in Hin. apply elem_of_cons in Hin as [-> | Hin]; done.
Qed.

(** A run of [computePlotInfo] that returns: the reset, the FASTA
    sequences, the loop over the tuples of [_getHsps] and the last loop. *)
Lemma computePlotInfo_inr (p : PlotParams) (self self' : BlastHits)
    (w w' : World) :
  computePlotInfo p (self, w) = (inr tt, (self', w')) →
  ∃ w0 fa wa,
    resetPlotInfo self w = (inr tt, w0)
    ∧ match fasta self with
      | Some fasta => fasta = fa
      | None => _readFASTA self = inr fa
      end
    ∧ forM (_getHsps self).1
        (addGroup p self fa) w0 = (inr tt, wa)
    ∧ forM (map_to_list (titles self)) (λ '(title, l), finishTitlePlot p l) wa
      = (inr tt, w')
    ∧ self' = {| records := (_getHsps self).2; titles := titles self;
                 fasta := Some fa; plotParams := Some p |}.
Proof.
  unfold computePlotInfo.
  destruct (resetPlotInfo_lookup (map_to_list (titles self)) w)
    as (w0 & Hreset & _).
  unfold resetPlotInfo. rewrite Hreset.
  set (selfP := set_plotParams (Some p) self).
  assert (Hread : match fasta selfP with
                  | Some fasta => inr fasta
                  | None => _readFASTA selfP
                  end
                  = match fasta self with
                    | Some fasta => inr fasta
                    | None => _readFASTA self
                    end) by done.
  rewrite Hread. clear Hread.
  destruct (match fasta self with
            | Some fasta => inr fasta
            | None => _readFASTA self
            end) as [e | fa] eqn:Hfa; [done |].
  set (selfF := set_fasta (Some fa) selfP).
  assert (Hget : _getHsps selfF = _getHsps self) by done.
  rewrite Hget.
  destruct (_getHsps self) as [groups recs] eqn:Hgroups.
  rewrite (forM_ext groups (addGroup p selfF fa) (addGroup p self fa))
    by (intros g s; by apply addGroup_titles).
  destruct (forM groups (addGroup p self fa) w0) as [[e | []] wa] eqn:Hwalk;
    [done |].
  change (titles (set_records recs selfF)) with (titles self).
  destruct (forM (map_to_list (titles self)) (λ '(_, l), finishTitlePlot p l) wa)
    as [r wb] eqn:Hfinish.
  intros Hrun. inversion Hrun; subst r self' wb. clear Hrun.
  exists w0, fa, wa. split; [done |]. split.
  { destruct (fasta self); [by inversion Hfa | done]. }
  done.
Qed.

(** What holds of a new plot info, is kept by the HSPs of every alignment
    and is established by the finishing of a plot info, holds of the plot
    info of every title when [computePlotInfo] returns. *)
Lemma computePlotInfo_establishes (P Q : list string → PlotInfo → Prop)
    (p : PlotParams) (self self' : BlastHits) (w w' : World) :
  (∀ fa len, P fa (plotInfoDict p len)) →
  (∀ fa n hs firstItem read pi pi',
     fa !! n = Some read → P fa pi →
     addHsps p firstItem (String.length read) n 1 hs
       (set_hspTotal (hspTotal pi + length hs) pi) = (inr tt, pi') →
     P fa pi') →
  (∀ fa d pi pi' d', P fa pi → finishPlotInfo p d pi = inr (pi', d') → Q fa pi') →
  (∀ fa pi, Q fa pi → P fa pi) →
  computePlotInfo p (self, w) = (inr tt, (self', w')) →
  ∃ fa, fasta self' = Some fa
    ∧ ∀ t pi, plotInfoOf self' w' t = Some pi → Q fa pi.
Proof.
  intros Hnew Hstep Hfin HQP Hrun.
  apply computePlotInfo_inr in Hrun
    as (w0 & fa & wa & Hreset & _ & Hwalk & Hfinish & ->).
  exists fa. split; [done |]. intros t pi Hpi.
  unfold plotInfoOf in Hpi. simpl in Hpi.
  destruct (titles self !! t) as [l |] eqn:Ht; [| done]. simpl in Hpi.
  destruct (heap w' !! l) as [hitInfo |] eqn:Hl; [| done]. simpl in Hpi.
  assert (Hreset0 : ∀ l1, l1 ∈ refsOf self → holds (P fa) w0 l1).
  { intros l1 Hl1 h pi1 Hh Hpi1. unfold resetPlotInfo in Hreset.
    destruct (resetPlotInfo_lookup (map_to_list (titles self)) w)
      as (w0' & Hreset' & _ & Hheap).
    rewrite Hreset in Hreset'. inversion Hreset'; subst w0'.
    rewrite Hheap in Hh. destruct (decide (l1 ∈ (map_to_list (titles self)).*2));
      [| done].
    destruct (heap w !! l1); [| done]. simpl in Hh. inversion Hh; subst h.
    done. }
  assert (Hwalked : ∀ l1, l1 ∈ refsOf self → holds (P fa) wa l1).
  { intros l1 Hl1.
    apply (addGroups_holds (P fa) p self fa (_getHsps self).1 w0 wa l1);
      [apply Hnew | | done | by apply Hreset0].
    intros t1 n hs firstItem read pi1 pi1' _. apply Hstep. }
  apply (finishTitlePlots_establish (P fa) (Q fa) p (map_to_list (titles self))
           (Hfin fa) (HQP fa) wa w' Hfinish Hwalked l)
    with (hitInfo := hitInfo); [| done | done].
  right. by apply (refsOf_lookup self t l).
Qed.

End RunFacts.

(** ** computePlotInfo: the items of a plot info *)

Section WalkedFacts.
Context `{Env}.

Lemma trackE_fields (firstItem : bool) (c : Qc) (pi : PlotInfo) :
  hspTotal (trackE firstItem c pi) = hspTotal pi
  ∧ zeroEValueFound (trackE firstItem c pi) = zeroEValueFound pi
  ∧ minX (trackE firstItem c pi) = minX pi
  ∧ maxX (trackE firstItem c pi) = maxX pi.
Proof.
  unfold trackE.
  by repeat match goal with
            | |- context [if ?b then _ else _] => destruct b
            end.
Qed.

Lemma trackX_fields (normalized : NormalizedHSP) (pi : PlotInfo) :
  hspTotal (trackX normalized pi) = hspTotal pi
  ∧ zeroEValueFound (trackX normalized pi) = zeroEValueFound pi
  ∧ (minX (trackX normalized pi) <= minX pi)%Qc
  ∧ (minX (trackX normalized pi) <= queryStart normalized)%Qc
  ∧ (maxX pi <= maxX (trackX normalized pi))%Qc
  ∧ (queryEnd normalized <= maxX (trackX normalized pi))%Qc.
Proof.
  unfold trackX.
  destruct (bool_decide (queryStart normalized < minX pi)%Qc) eqn:Hmin.
  - apply bool_decide_eq_true in Hmin.
    destruct (bool_decide (maxX (set_minX (queryStart normalized) pi)
                           < queryEnd normalized)%Qc) eqn:Hmax.
    + apply bool_decide_eq_true in Hmax. simpl in *.
      repeat split; try done; try apply Qcle_refl; by apply Qclt_le_weak.
    + apply bool_decide_eq_false in Hmax. simpl in *.
      repeat split; try done; try apply Qcle_refl;
        [by apply Qclt_le_weak | by apply Qcnot_lt_le].
  - apply bool_decide_eq_false in Hmin.
    destruct (bool_decide (maxX pi < queryEnd normalized)%Qc) eqn:Hmax.
    + apply bool_decide_eq_true in Hmax. simpl in *.
      repeat split; try done; try apply Qcle_refl;
        [by apply Qcnot_lt_le | by apply Qclt_le_weak].
    + apply bool_decide_eq_false in Hmax. simpl in *.
      repeat split; try done; try apply Qcle_refl; by apply Qcnot_lt_le.
Qed.

(** An HSP that the loop body does not skip adds one item, made of the
    HSP, its normalized form and the read. *)
Lemma addHsp_kept (p : PlotParams) (firstItem : bool) (queryLen readNum : nat)
    (hsp : HSP) (pi pi' : PlotInfo) :
  addHsp p firstItem queryLen readNum hsp pi = (inr tt, pi') →
  hspTotal pi' = hspTotal pi
  ∧ ((items pi' = items pi ∧ zeroEValueFound pi' = zeroEValueFound pi
      ∧ minX pi' = minX pi ∧ maxX pi' = maxX pi)
     ∨ ∃ normalized c,
         normalizeHSP hsp queryLen = Some normalized
         ∧ (∀ m, minStart p = Some m → (m <= queryStart normalized)%Qc)
         ∧ (∀ m, maxStop p = Some m → (queryEnd normalized <= m)%Qc)
         ∧ (∀ c0, eCutoff p = Some c0 → (expect hsp < c0)%Qc)
         ∧ items pi'
           = items pi ++ [{| convertedE := c; hsp := normalized; origHsp := hsp;
                             queryLen := queryLen; readNum := readNum;
                             item_frame := frame hsp |}]
         ∧ (minX pi' <= minX pi)%Qc
         ∧ (minX pi' <= queryStart normalized)%Qc
         ∧ (maxX pi <= maxX pi')%Qc
         ∧ (queryEnd normalized <= maxX pi')%Qc
         ∧ ((c = None ∧ expect hsp = Q2Qc 0 ∧ zeroEValueFound pi' = true)
            ∨ (∃ l, expect hsp ≠ Q2Qc 0 ∧ log10 (expect hsp) = Some l
                 ∧ c = Some (qc (-1) 1 * l)%Qc
                 ∧ zeroEValueFound pi' = zeroEValueFound pi))).
Proof.
  unfold addHsp.
  destruct (normalizeHSP hsp queryLen) as [normalized |] eqn:Hnorm; [| done].
  destruct (match minStart p with
            | Some m => bool_decide (queryStart normalized < m)%Qc
            | None => false
            end) eqn:Hstart.
  { simpl. intros Hrun. inversion Hrun; subst. split; [done |]. by left. }
  destruct (match maxStop p with
            | Some m => bool_decide (m < queryEnd normalized)%Qc
            | None => false
            end) eqn:Hstop.
  { simpl. intros Hrun. inversion Hrun; subst. split; [done |]. by left. }
  assert (Hs : ∀ m, minStart p = Some m → (m <= queryStart normalized)%Qc).
  { intros m Hm. rewrite Hm in Hstart. apply bool_decide_eq_false in Hstart.
    by apply Qcnot_lt_le. }
  assert (He : ∀ m, maxStop p = Some m → (queryEnd normalized <= m)%Qc).
  { intros m Hm. rewrite Hm in Hstop. apply bool_decide_eq_false in Hstop.
    by apply Qcnot_lt_le. }
  cbn [orb]. unfold bind at 1.
  destruct ((if logLinearXAxis p
             then addInterval (queryStart normalized) (queryEnd normalized)
             else ret tt) pi) as [[e | []] pi1] eqn:Hadd; [done |].
  assert (Hpi1 : hspTotal pi1 = hspTotal pi ∧ items pi1 = items pi
                 ∧ zeroEValueFound pi1 = zeroEValueFound pi
                 ∧ minX pi1 = minX pi ∧ maxX pi1 = maxX pi).
  { destruct (logLinearXAxis p).
    - unfold addInterval, bind, get, put, raise in Hadd.
      destruct (readIntervals pi); inversion Hadd; by subst.
    - by inversion Hadd; subst. }
  destruct Hpi1 as (Ht1 & Hi1 & Hz1 & Hmin1 & Hmax1).
  destruct (match eCutoff p with
            | Some c => bool_decide (c <= expect hsp)%Qc
            | None => false
            end) eqn:Hcut.
  { intros Hrun. inversion Hrun; subst. split; [done |]. by left. }
  assert (Hc : ∀ c0, eCutoff p = Some c0 → (expect hsp < c0)%Qc).
  { intros c0 Hc0. rewrite Hc0 in Hcut. apply bool_decide_eq_false in Hcut.
    by apply Qcnot_le_lt. }
  unfold bind, modify, ret, raise.
  destruct (decide (expect hsp = Q2Qc 0)) as [Hzero | Hnz].
  - intros Hrun. inversion Hrun; subst pi'. clear Hrun.
    destruct (trackX_fields normalized (set_zeroEValueFound true pi1))
      as (Ht & Hz & Hmn & Hmn' & Hmx & Hmx').
    simpl in Ht, Hz, Hmn, Hmx. simpl.
    split; [congruence |]. right. exists normalized, None.
    rewrite trackX_items. simpl. rewrite Hi1, <- Hmin1, <- Hmax1.
    repeat split; try done. by left.
  - destruct (log10 (expect hsp)) as [l |] eqn:Hlog; [| done].
    intros Hrun. inversion Hrun; subst pi'. clear Hrun.
    destruct (trackE_fields firstItem (qc (-1) 1 * l)%Qc pi1)
      as (HtE & HzE & HmnE & HmxE).
    destruct (trackX_fields normalized (trackE firstItem (qc (-1) 1 * l)%Qc pi1))
      as (Ht & Hz & Hmn & Hmn' & Hmx & Hmx').
    simpl. split; [congruence |]. right. exists normalized, (Some (qc (-1) 1 * l)%Qc).
    rewrite trackX_items, trackE_items, Hi1, <- Hmin1, <- Hmax1, <- HmnE, <- HmxE.
    repeat split; try done. right. exists l. repeat split; try done. congruence.
Qed.

End WalkedFacts.

Section WalkedLoop.
Context `{Env}.

Lemma inExtent_wider (pi pi' : PlotInfo) (item : Item) :
  (minX pi' <= minX pi)%Qc → (maxX pi <= maxX pi')%Qc →
  inExtent pi item → inExtent pi' item.
Proof.
  intros Hmin Hmax [Hs He]. split.
  - by eapply Qcle_trans.
  - by eapply Qcle_trans.
Qed.

Lemma addHsp_walkedItems (p : PlotParams) (fa : list string) (firstItem : bool)
    (n : nat) (read : string) (hsp : HSP) (pi pi' : PlotInfo) :
  fa !! n = Some read →
  walkedItems p fa pi →
  addHsp p firstItem (String.length read) n hsp pi = (inr tt, pi') →
  walkedItems p fa pi'.
Proof.
  intros Hread (Hfrom & Hscored & Hsome & Hext) Hrun.
  destruct (addHsp_kept p firstItem (String.length read) n hsp pi pi' Hrun)
    as [_ [(Hi & Hz & Hmn & Hmx) | Hkept]].
  - unfold walkedItems. rewrite Hi, Hz. repeat split; try done.
    intros Hlin. eapply Forall_impl; [by apply Hext |].
    intros item. apply inExtent_wider; rewrite ?Hmn, ?Hmx; apply Qcle_refl.
  - destruct Hkept as (normalized & c & Hnorm & Hs & He & Hc & Hi & Hmn & Hmn'
                       & Hmx & Hmx' & Hconv).
    unfold walkedItems. rewrite Hi. repeat split.
    + apply Forall_app. split; [done |]. apply Forall_singleton.
      split; [by exists read |]. split; [done |]. split; [done |].
      by exists normalized.
    + intros Hrank. apply Forall_app. split; [by apply Hscored |].
      apply Forall_singleton. intros Hnz. simpl in Hnz. simpl.
      destruct Hconv as [(_ & Hzero & _) | (l & _ & Hlog & -> & _)]; [done |].
      by exists l.
    + intros Hz. apply Forall_app.
      destruct Hconv as [(_ & _ & Hz') | (l & _ & _ & -> & Hz')]; [congruence |].
      split; [apply Hsome; congruence |]. apply Forall_singleton. by eexists.
    + intros Hlin. apply Forall_app. split.
      * eapply Forall_impl; [by apply Hext |].
        intros item. by apply inExtent_wider.
      * apply Forall_singleton. by split.
Qed.

Lemma addHsps_count (p : PlotParams) (firstItem : bool) (queryLen readNum : nat)
    (l : list HSP) :
  ∀ pi pi',
    forM l (addHsp p firstItem queryLen readNum) pi = (inr tt, pi') →
    hspTotal pi' = hspTotal pi
    ∧ length (items pi') ≤ length (items pi) + length l.
Proof.
  induction l as [| hsp l IH]; intros pi pi' Hrun.
  - inversion Hrun; subst. split; [done | lia].
  - simpl in Hrun. unfold bind in Hrun.
    destruct (addHsp p firstItem queryLen readNum hsp pi) as [[e | []] pi1] eqn:Hstep;
      [done |].
    destruct (IH pi1 pi' Hrun) as [Ht Hlen].
    destruct (addHsp_kept p firstItem queryLen readNum hsp pi pi1 Hstep)
      as [Ht1 [(Hi & _) | (nz & c & _ & _ & _ & _ & Hi & _)]].
    + rewrite Hi in Hlen. split; [congruence | simpl; lia].
    + rewrite Hi, length_app in Hlen. simpl in Hlen.
      split; [congruence | simpl; lia].
Qed.

(** The HSPs of one alignment keep what holds of the plot info. *)
Lemma addHsps_walked (p : PlotParams) (fa : list string) (n : nat)
    (hs : list HSP) (firstItem : bool) (read : string) (pi pi' : PlotInfo) :
  fa !! n = Some read →
  walked p fa pi →
  addHsps p firstItem (String.length read) n 1 hs
    (set_hspTotal (hspTotal pi + length hs) pi) = (inr tt, pi') →
  walked p fa pi'.
Proof.
  intros Hread [Hitems Hcount]. rewrite addHsps_upto.
  set (l := match maxHspsPerHit p with
            | Some m => take (S m - 1) hs
            | None => hs
            end).
  assert (Hl : length l ≤ length hs).
  { unfold l. destruct (maxHspsPerHit p); [| done]. rewrite length_take. lia. }
  intros Hrun. split.
  - apply (forM_inr (walkedItems p fa) l
             (addHsp p firstItem (String.length read) n))
      with (s := set_hspTotal (hspTotal pi + length hs) pi); [| done | done].
    intros hsp s s' _. by apply addHsp_walkedItems.
  - destruct (addHsps_count p firstItem (String.length read) n l _ _ Hrun)
      as [Ht Hlen].
    simpl in Ht, Hlen. lia.
Qed.

Lemma walked_new (p : PlotParams) (fa : list string) (len : Z) :
  walked p fa (plotInfoDict p len).
Proof.
  split; [| done]. unfold walkedItems. simpl. repeat split; intros; constructor.
Qed.

End WalkedLoop.

Section FinishedFacts.
Context `{Env}.

Lemma numberZeros_resolves (its : list Item) :
  ∀ m its' m', numberZeros m its = inr (its', m') → Forall2 resolves its its'.
Proof.
  induction its as [| item its IH]; intros m its' m' Hrun.
  - inversion Hrun; subst. constructor.
  - cbn [numberZeros] in Hrun. destruct (convertedE item) as [c |] eqn:Hc.
    + destruct (numberZeros m its) as [e | [its1 m1]] eqn:Hrest; [done |].
      inversion Hrun; subst. constructor; [| by eapply IH].
      left. split; [by eexists | done].
    + destruct m as [m |]; [| done].
      destruct (numberZeros (Some (m + qc 1 1)%Qc) its) as [e | [its1 m1]] eqn:Hrest;
        [done |].
      inversion Hrun; subst. constructor; [| by eapply IH].
      right. split; [done | by eexists].
Qed.

Lemma randomizeZeros_resolves (mx : option Qc) (its : list Item) :
  ∀ m d its' m' d',
    randomizeZeros mx m d its = inr (its', m', d') → Forall2 resolves its its'.
Proof.
  induction its as [| item its IH]; intros m d its' m' d' Hrun.
  - inversion Hrun; subst. constructor.
  - cbn [randomizeZeros] in Hrun. destruct (convertedE item) as [c |] eqn:Hc.
    + destruct (randomizeZeros mx m d its) as [e | [[its1 m1] d1]] eqn:Hrest;
        [done |].
      inversion Hrun; subst. constructor; [| by eapply IH].
      left. split; [by eexists | done].
    + destruct mx as [x |]; [| done].
      match type of Hrun with
      | context [randomizeZeros (Some x) ?m2 (S d) its] =>
          destruct (randomizeZeros (Some x) m2 (S d) its)
            as [e | [[its1 m1] d1]] eqn:Hrest; [done |]
      end.
      inversion Hrun; subst. constructor; [| by eapply IH].
      right. split; [done | by eexists].
Qed.

Lemma resolves_refl (its : list Item) :
  Forall (λ item, is_Some (convertedE item)) its → Forall2 resolves its its.
Proof.
  induction 1 as [| item its Hsome _ IH]; constructor; [| done].
  left. by split.
Qed.

Lemma resolves_Forall (P : Item → Prop) (its its' : list Item) :
  (∀ a c, convertedE a = None → P a → P (set_convertedE (Some c) a)) →
  Forall2 resolves its its' → Forall P its → Forall P its'.
Proof.
  intros HP Hres. induction Hres as [| a b its its' Hab _ IH]; intros Hall.
  - constructor.
  - apply Forall_cons in Hall as [Ha Hall]. constructor; [| by apply IH].
    destruct Hab as [[_ ->] | [Hnone [c ->]]]; [done | by apply HP].
Qed.

Lemma resolves_some (its its' : list Item) :
  Forall2 resolves its its' → Forall (λ item, is_Some (convertedE item)) its'.
Proof.
  induction 1 as [| a b its its' Hab _ IH]; constructor; [| done].
  destruct Hab as [[Hsome ->] | [_ [c ->]]]; [done | by eexists].
Qed.

Lemma assignRanks_Forall (P : Item → Prop) (its : list Item) :
  (∀ a c, P a → P (set_convertedE c a)) →
  ∀ rank, Forall P its → Forall P (assignRanks rank its).
Proof.
  intros HP. induction its as [| item its IH]; intros rank Hall; [constructor |].
  apply Forall_cons in Hall as [Ha Hall]. simpl. constructor; [by apply HP |].
  by apply IH.
Qed.

Lemma assignRanks_some (its : list Item) :
  ∀ rank, Forall (λ item, is_Some (convertedE item)) (assignRanks rank its).
Proof.
  induction its as [| item its IH]; intros rank; simpl; constructor; [| apply IH].
  by eexists.
Qed.

Lemma sort_Forall {A} (le : A → A → bool) (P : A → Prop) (l : list A) :
  Forall P l → Forall P (sort le l).
Proof.
  rewrite !Forall_forall. intros Hall x Hx. apply Hall.
  by rewrite <- (sort_Permutation le l).
Qed.

Lemma runningMin (x : Qc) (mn : option Qc) :
  ∃ a1,
    (if match mn with None => true | Some _ => false end || lt_py2 x mn
     then Some x else mn) = Some a1
    ∧ (a1 <= x)%Qc ∧ ∀ a, mn = Some a → (a1 <= a)%Qc.
Proof.
  destruct mn as [a |]; simpl.
  - destruct (bool_decide (x < a)%Qc) eqn:Hlt.
    + apply bool_decide_eq_true in Hlt. exists x.
      split; [done |]. split; [apply Qcle_refl |].
      intros a0 [= <-]. by apply Qclt_le_weak.
    + apply bool_decide_eq_false in Hlt. exists a.
      split; [done |]. split; [by apply Qcnot_lt_le |].
      intros a0 [= <-]. apply Qcle_refl.
  - exists x. split; [done |]. split; [apply Qcle_refl | done].
Qed.

Lemma runningMax (x : Qc) (mx : option Qc) :
  ∃ b1,
    (if match mx with None => true | Some _ => false end || gt_py2 x mx
     then Some x else mx) = Some b1
    ∧ (x <= b1)%Qc ∧ ∀ b, mx = Some b → (b <= b1)%Qc.
Proof.
  destruct mx as [b |]; simpl.
  - destruct (bool_decide (b < x)%Qc) eqn:Hlt.
    + apply bool_decide_eq_true in Hlt. exists x.
      split; [done |]. split; [apply Qcle_refl |].
      intros b0 [= <-]. by apply Qclt_le_weak.
    + apply bool_decide_eq_false in Hlt. exists b.
      split; [done |]. split; [by apply Qcnot_lt_le |].
      intros b0 [= <-]. apply Qcle_refl.
  - exists x. split; [done |]. split; [apply Qcle_refl | done].
Qed.

(** The loop that adjusts the HSPs leaves in [minX] and [maxX] the least
    start and the greatest end of the adjusted HSPs. *)
Lemma adjustItems_extent (adjuster : OffsetAdjuster) (its : list Item) :
  ∀ mn mx its' mn' mx',
    adjustItems adjuster mn mx its = (its', mn', mx') →
    its' = (λ item, set_hsp (adjustNormalizedHSP adjuster (hsp item)) item) <$> its
    ∧ (its = [] → mn' = mn ∧ mx' = mx)
    ∧ (is_Some mn → is_Some mn')
    ∧ (is_Some mx → is_Some mx')
    ∧ (its ≠ [] → is_Some mn' ∧ is_Some mx')
    ∧ (∀ a a', mn = Some a → mn' = Some a' → (a' <= a)%Qc)
    ∧ (∀ b b', mx = Some b → mx' = Some b' → (b <= b')%Qc)
    ∧ (∀ a' b', mn' = Some a' → mx' = Some b' →
         Forall (λ item, (a' <= queryStart (hsp item))%Qc
                         ∧ (queryEnd (hsp item) <= b')%Qc) its').
Proof.
  induction its as [| item its IH]; intros mn mx its' mn' mx' Hrun.
  - inversion Hrun; subst. repeat split; try done.
    + intros a a' Ha Ha'. rewrite Ha in Ha'. inversion Ha'. apply Qcle_refl.
    + intros b b' Hb Hb'. rewrite Hb in Hb'. inversion Hb'. apply Qcle_refl.
  - cbn [adjustItems] in Hrun.
    set (adj := adjustNormalizedHSP adjuster (hsp item)) in *.
    destruct (runningMin (queryStart adj) mn) as (a1 & Hmn1 & Ha1 & Hmono1).
    destruct (runningMax (queryEnd adj) mx) as (b1 & Hmx1 & Hb1 & Hmonob1).
    rewrite Hmn1, Hmx1 in Hrun.
    destruct (adjustItems adjuster (Some a1) (Some b1) its) as [[its1 mn2] mx2]
      eqn:Hrest.
    inversion Hrun; subst its' mn' mx'. clear Hrun.
    destruct (IH _ _ _ _ _ Hrest)
      as (Hits & _ & Hsmn & Hsmx & _ & Hlo & Hhi & Hall).
    split; [simpl; by rewrite Hits |]. split; [done |].
    split; [intros _; apply Hsmn; by eexists |].
    split; [intros _; apply Hsmx; by eexists |].
    split; [intros _; split; [apply Hsmn | apply Hsmx]; by eexists |].
    split; [| split].
    + intros a a' Ha Ha'. eapply Qcle_trans; [by apply (Hlo a1 a') | by apply Hmono1].
    + intros b b' Hb Hb'. eapply Qcle_trans; [by apply Hmonob1 | by apply (Hhi b1 b')].
    + intros a' b' Ha' Hb'. constructor; [| by apply Hall].
      simpl. split.
      * eapply Qcle_trans; [by apply (Hlo a1 a') | done].
      * eapply Qcle_trans; [exact Hb1 | by apply (Hhi b1 b')].
Qed.

End FinishedFacts.

Section FinishedPlot.
Context `{Env}.

Ltac bound_by_test :=
  first
    [ apply Qcle_refl
    | match goal with
      | Hb : bool_decide (?x < ?y)%Qc = true |- (?x <= ?y)%Qc =>
          apply Qclt_le_weak; by apply bool_decide_eq_true in Hb
      end ].

(** The block under [if logLinearXAxis] replaces the HSP of every item by
    its adjusted form, and leaves [minX] and [maxX] around all of them. *)
Lemma adjustXAxis_extent (p : PlotParams) (pi pi' : PlotInfo) :
  adjustXAxis p pi = inr pi' →
  hspTotal pi' = hspTotal pi
  ∧ (∃ adjuster,
       items pi'
       = (λ item, set_hsp (adjustNormalizedHSP adjuster (hsp item)) item)
           <$> items pi)
  ∧ Forall (inExtent pi') (items pi').
Proof.
  unfold adjustXAxis. destruct (readIntervals pi) as [intervals |]; [| done].
  set (adjuster := {| oa_intervals := intervals; oa_base := logBase p |}).
  destruct (adjustItems adjuster None None (items pi)) as [[its mn] mx] eqn:Hadj.
  destruct (adjustItems_extent adjuster (items pi) None None its mn mx Hadj)
    as (Hits & Hnil & _ & _ & Hcons & _ & _ & Hall).
  destruct (items pi) as [| item0 rest] eqn:Hitems.
  - destruct (Hnil eq_refl) as [-> ->]. simpl in Hits. subst its.
    intros Hrun.
    assert (Hempty : items pi' = [] ∧ hspTotal pi' = hspTotal pi).
    { destruct (head (walk intervals)) as [[[] [s1 e1]] |];
        destruct (last (walk intervals)) as [[[] [s2 e2]] |];
        simpl in Hrun; inversion Hrun; by subst. }
    destruct Hempty as [Hi Ht]. rewrite Hi. split; [done |].
    split; [by exists adjuster | constructor].
  - destruct Hcons as [[a Ha] [b Hb]]; [done |]. subst mn mx.
    specialize (Hall a b eq_refl eq_refl).
    intros Hrun.
    destruct (head (walk intervals)) as [[[] [s1 e1]] |];
      destruct (last (walk intervals)) as [[[] [s2 e2]] |];
      simpl in Hrun;
      repeat match type of Hrun with
             | context [bool_decide ?P] =>
                 let Hb := fresh "Hb" in destruct (bool_decide P) eqn:Hb
             end;
      inversion Hrun; subst pi'; simpl;
      (split; [done |]); (split; [by exists adjuster |]);
      (eapply Forall_impl; [exact Hall |]);
      intros item [Hs He];
      (split; simpl;
       [ eapply Qcle_trans; [| exact Hs]; bound_by_test
       | eapply Qcle_trans; [exact He |]; bound_by_test ]).
Qed.

End FinishedPlot.

Section FinishedRun.
Context `{Env}.

Lemma convertEValuesToRanks_walked (p : PlotParams) (fa : list string)
    (pi : PlotInfo) :
  rankEValues p = true → walked p fa pi → walked p fa (_convertEValuesToRanks pi).
Proof.
  intros Hrank [(Hfrom & Hscored & Hsome & Hext) Hcount]. split.
  - unfold walkedItems. simpl. repeat split.
    + apply assignRanks_Forall; [by intros a c Ha |]. by apply sort_Forall.
    + intros Hno. congruence.
    + intros _. apply assignRanks_some.
    + intros Hlin. apply assignRanks_Forall; [by intros a c Ha |].
      apply sort_Forall. by apply Hext.
  - simpl. by rewrite assignRanks_length, sort_length.
Qed.

(** The finishing of a plot info. *)
Lemma finishPlotInfo_finished (p : PlotParams) (fa : list string) (d d' : nat)
    (pi pi' : PlotInfo) :
  walked p fa pi → finishPlotInfo p d pi = inr (pi', d') → finished p fa pi'.
Proof.
  intros Hwalked. unfold finishPlotInfo.
  set (pi1 := if rankEValues p then _convertEValuesToRanks pi else pi).
  assert (H1 : walked p fa pi1).
  { unfold pi1. destruct (rankEValues p) eqn:Hrank; [| done].
    by apply convertEValuesToRanks_walked. }
  clearbody pi1. clear Hwalked pi.
  destruct H1 as [(Hfrom & Hscored & Hsome & Hext) Hcount].
  destruct (if zeroEValueFound pi1
            then if randomizeZeroEValues p
                 then randomizeZeros (maxE pi1) (maxE pi1) d (items pi1)
                 else match numberZeros (maxE pi1) (items pi1) with
                      | inl e => inl e
                      | inr (items, m) => inr (items, m, d)
                      end
            else inr (items pi1, maxE pi1, d)) as [e | [[its m] d1]] eqn:Hres;
    [done |].
  assert (Hresolved : Forall2 resolves (items pi1) its).
  { destruct (zeroEValueFound pi1) eqn:Hz.
    - destruct (randomizeZeroEValues p).
      + by apply (randomizeZeros_resolves _ _ _ _ _ _ _ Hres).
      + destruct (numberZeros (maxE pi1) (items pi1)) as [e | [its' m']] eqn:Hnum;
          [done |].
        inversion Hres; subst. by apply (numberZeros_resolves _ _ _ _ Hnum).
    - inversion Hres; subst. apply resolves_refl. by apply Hsome. }
  assert (Hfrom' : Forall (fromRead p fa) its).
  { apply (resolves_Forall (fromRead p fa) (items pi1) its); [| done | done].
    by intros a c _ Ha. }
  assert (Hscored' : rankEValues p = false → Forall scored its).
  { intros Hrank. apply (resolves_Forall scored (items pi1)); [| done | by apply Hscored].
    intros a c Hnone Ha Hnz. destruct (Ha Hnz) as (l & _ & Hc). congruence. }
  assert (Hsome' : Forall (λ item, is_Some (convertedE item)) its).
  { by apply (resolves_some (items pi1)). }
  assert (Hext' : logLinearXAxis p = false → Forall (inExtent pi1) its).
  { intros Hlin.
    apply (resolves_Forall (inExtent pi1) (items pi1) its);
      [| done | by apply Hext].
    by intros a c _ Ha. }
  assert (Hlen : length its = length (items pi1)).
  { symmetry. by apply Forall2_length in Hresolved. }
  destruct (logLinearXAxis p) eqn:Hlin.
  - destruct (adjustXAxis p _) as [e | pi2] eqn:Hadj; [done |].
    intros Hrun. inversion Hrun; subst pi' d'. clear Hrun.
    destruct (adjustXAxis_extent p _ _ Hadj) as (Ht & [adjuster Hi] & Hin).
    simpl in Ht, Hi. unfold finished. rewrite Hi in *. repeat split.
    + apply Forall_fmap. eapply Forall_impl; [exact Hfrom' |].
      intros item (Hread & Hframe & Hcut & nz & Hnorm & Hs & He & _).
      split; [done |]. split; [done |]. split; [done |].
      exists nz. repeat split; try done. intros Hno. simpl in Hno. congruence.
    + intros Hrank. apply Forall_fmap. eapply Forall_impl; [by apply Hscored' |].
      by intros item Ha.
    + apply Forall_fmap. eapply Forall_impl; [exact Hsome' |]. by intros item Ha.
    + done.
    + rewrite length_fmap, Ht. lia.
  - intros Hrun. inversion Hrun; subst pi' d'. clear Hrun.
    unfold finished. simpl. repeat split; try done.
    + by apply Hext'.
    + lia.
Qed.

Lemma finished_walked (p : PlotParams) (fa : list string) (pi : PlotInfo) :
  finished p fa pi → walked p fa pi.
Proof.
  intros (Hfrom & Hscored & Hsome & Hext & Hcount). by repeat split.
Qed.

(** When [computePlotInfo] returns, the plot info of every title is
    finished. *)
Lemma computePlotInfo_finished (p : PlotParams) (self self' : BlastHits)
    (w w' : World) :
  computePlotInfo p (self, w) = (inr tt, (self', w')) →
  ∃ fa, fasta self' = Some fa
    ∧ ∀ t pi, plotInfoOf self' w' t = Some pi → finished p fa pi.
Proof.
  apply (computePlotInfo_establishes (walked p) (finished p)).
  - intros fa len. apply walked_new.
  - intros fa n hs firstItem read pi pi' Hread Hpi. by apply addHsps_walked.
  - intros fa d pi pi' d'. apply finishPlotInfo_finished.
  - intros fa pi. apply finished_walked.
Qed.

End FinishedRun.

(** X12: when [computePlotInfo] returns, no item of any title is left
    without a converted e-value; and with [rankEValues=False], the
    converted e-value of an item whose e-value is not zero is
    [-1.0 * log10(e)]. *)
Theorem computePlotInfo_scores `{Env} (p : PlotParams) (self self' : BlastHits)
    (w w' : World) :
  computePlotInfo p (self, w) = (inr tt, (self', w')) →
  ∀ t pi item, plotInfoOf self' w' t = Some pi → item ∈ items pi →
    is_Some (convertedE item)
    ∧ (rankEValues p = false → expect (origHsp item) ≠ Q2Qc 0 →
       ∃ l, log10 (expect (origHsp item)) = Some l
            ∧ convertedE item = Some (qc (-1) 1 * l)%Qc).
Proof.
  intros Hrun t pi item Hpi Hin.
  destruct (computePlotInfo_finished p self self' w w' Hrun) as (fa & _ & Hfin).
  destruct (Hfin t pi Hpi) as (_ & Hscored & Hsome & _).
  rewrite Forall_forall in Hsome. split; [by apply Hsome |].
  intros Hrank. specialize (Hscored Hrank). rewrite Forall_forall in Hscored.
  by apply Hscored.
Qed.

Lemma computePlotInfo_scores_witness :
  Forall (λ item, is_Some (convertedE item)) (items (plotInfoAfter plainRun1 "T")).
Proof.
  apply Forall_forall. intros item Hin.
  apply (@computePlotInfo_scores specEnv plotDefaults hitsOfThreeReads
           plainRun1.2.1 passOfThreeReads.2 plainRun1.2.2
           ltac:(vm_compute; reflexivity) "T" (plotInfoAfter plainRun1 "T") item
           ltac:(vm_compute; reflexivity) Hin).
Defined.

(** X13: when [computePlotInfo] returns, [minX] and [maxX] of the plot
    info of every title lie around the HSP of every item, with a linear
    and with a log-linear X axis. *)
Theorem computePlotInfo_extent `{Env} (p : PlotParams) (self self' : BlastHits)
    (w w' : World) :
  computePlotInfo p (self, w) = (inr tt, (self', w')) →
  ∀ t pi item, plotInfoOf self' w' t = Some pi → item ∈ items pi →
    (minX pi <= queryStart (hsp item))%Qc ∧ (queryEnd (hsp item) <= maxX pi)%Qc.
Proof.
  intros Hrun t pi item Hpi Hin.
  destruct (computePlotInfo_finished p self self' w w' Hrun) as (fa & _ & Hfin).
  destruct (Hfin t pi Hpi) as (_ & _ & _ & Hext & _).
  rewrite Forall_forall in Hext. by apply (Hext item).
Qed.

Lemma computePlotInfo_extent_witness :
  Forall (λ item,
            (minX (plotInfoAfter logLinearRun "T") <= queryStart (hsp item))%Qc
            ∧ (queryEnd (hsp item) <= maxX (plotInfoAfter logLinearRun "T"))%Qc)
    (items (plotInfoAfter logLinearRun "T")).
Proof.
  apply Forall_forall. intros item Hin.
  apply (@computePlotInfo_extent specEnv plotLogLinear hitsOfThreeReads
           logLinearRun.2.1 passOfThreeReads.2 logLinearRun.2.2
           ltac:(vm_compute; reflexivity) "T" (plotInfoAfter logLinearRun "T") item
           ltac:(vm_compute; reflexivity) Hin).
Defined.

(** X14: when [computePlotInfo] returns, the plot info of a title has no
    more items than [hspTotal], and every item is made of an HSP and of the
    read of its read number: the query length is the length of that read,
    the frame is the frame of the HSP, the e-value of the HSP is below
    [eCutoff], the HSP normalizes for that query length to offsets within
    [minStart] and [maxStop], and with a linear X axis the stored HSP is
    that normalized form. *)
Theorem computePlotInfo_items `{Env} (p : PlotParams) (self self' : BlastHits)
    (w w' : World) :
  computePlotInfo p (self, w) = (inr tt, (self', w')) →
  ∃ fa, fasta self' = Some fa
    ∧ ∀ t pi, plotInfoOf self' w' t = Some pi →
        length (items pi) ≤ hspTotal pi
        ∧ ∀ item, item ∈ items pi →
            (∃ read, fa !! readNum item = Some read
                     ∧ queryLen item = String.length read)
            ∧ item_frame item = frame (origHsp item)
            ∧ (∀ c, eCutoff p = Some c → (expect (origHsp item) < c)%Qc)
            ∧ ∃ normalized,
                normalizeHSP (origHsp item) (queryLen item) = Some normalized
                ∧ (∀ m, minStart p = Some m → (m <= queryStart normalized)%Qc)
                ∧ (∀ m, maxStop p = Some m → (queryEnd normalized <= m)%Qc)
                ∧ (logLinearXAxis p = false → hsp item = normalized).
Proof.
  intros Hrun.
  destruct (computePlotInfo_finished p self self' w w' Hrun) as (fa & Hfa & Hfin).
  exists fa. split; [done |]. intros t pi Hpi.
  destruct (Hfin t pi Hpi) as (Hfrom & _ & _ & _ & Hcount).
  split; [done |]. intros item Hin. rewrite Forall_forall in Hfrom.
  by apply (Hfrom item).
Qed.

Lemma computePlotInfo_items_witness :
  ∃ fa, fasta logLinearRun.2.1 = Some fa
    ∧ length (items (plotInfoAfter logLinearRun "T"))
      ≤ hspTotal (plotInfoAfter logLinearRun "T").
Proof.
  destruct (@computePlotInfo_items specEnv plotLogLinear hitsOfThreeReads
              logLinearRun.2.1 passOfThreeReads.2 logLinearRun.2.2
              ltac:(vm_compute; reflexivity)) as (fa & Hfa & Hall).
  exists fa. split; [exact Hfa |].
  apply (Hall "T" (plotInfoAfter logLinearRun "T") ltac:(vm_compute; reflexivity)).
Defined.

(** ** computePlotInfo: what it raises *)

Lemma getHsps_elem (self : BlastHits) (t : string) (n : nat) (hs : list HSP) :
  (t, n, hs) ∈ (_getHsps self).1 →
  is_Some (titles self !! t)
  ∧ ∃ record a,
      (BlastRecords_records (records self)).1 !! n = Some record
      ∧ a ∈ alignments record ∧ title a = t ∧ hsps a = hs.
Proof.
  unfold _getHsps. destruct (BlastRecords_records (records self)) as [rs recs].
  simpl. rewrite list_elem_of_In, in_flat_map.
  intros ([m record] & Hin & Ha). apply list_elem_of_In, enumerate_elem in Hin.
  apply in_flat_map in Ha as (a & Ha & Hg). apply list_elem_of_In in Ha.
  destruct (decide (is_Some (titles self !! title a))) as [Hsome | Hnone];
    [| by destruct Hg].
  destruct Hg as [Heq | []]. inversion Heq; subst.
  split; [done |]. by exists record, a.
Qed.


Section RaisesFacts.
Context `{Env}.








End RaisesFacts.

Section RaisesRun.
Context `{Env}.




End RaisesRun.



(** ** computePlotInfo: what it leaves alone *)

Section FrameFacts.
Context `{Env}.

Lemma randomizeZeros_draws (mx : option Qc) (its : list Item) :
  ∀ m d its' m' d', randomizeZeros mx m d its = inr (its', m', d') → d ≤ d'.
Proof.
  induction its as [| item its IH]; intros m d its' m' d' Hrun.
  - by inversion Hrun; subst.
  - cbn [randomizeZeros] in Hrun. destruct (convertedE item) as [c |].
    + destruct (randomizeZeros mx m d its) as [e | [[its1 m1] d1]] eqn:Hrest;
        [done |].
      inversion Hrun; subst. by apply (IH _ _ _ _ _ Hrest).
    + destruct mx as [x |]; [| done].
      match type of Hrun with
      | context [randomizeZeros (Some x) ?m2 (S d) its] =>
          destruct (randomizeZeros (Some x) m2 (S d) its)
            as [e | [[its1 m1] d1]] eqn:Hrest; [done |]
      end.
      inversion Hrun; subst. apply IH in Hrest. lia.
Qed.

Lemma finishPlotInfo_draws_le (p : PlotParams) (d d' : nat) (pi pi' : PlotInfo) :
  finishPlotInfo p d pi = inr (pi', d') → d ≤ d'.
Proof.
  unfold finishPlotInfo.
  set (pi1 := if rankEValues p then _convertEValuesToRanks pi else pi).
  clearbody pi1.
  destruct (if zeroEValueFound pi1
            then if randomizeZeroEValues p
                 then randomizeZeros (maxE pi1) (maxE pi1) d (items pi1)
                 else match numberZeros (maxE pi1) (items pi1) with
                      | inl e => inl e
                      | inr (items, m) => inr (items, m, d)
                      end
            else inr (items pi1, maxE pi1, d)) as [e | [[its m] d1]] eqn:Hres;
    [done |].
  assert (Hd : d ≤ d1).
  { destruct (zeroEValueFound pi1).
    - destruct (randomizeZeroEValues p).
      + by apply (randomizeZeros_draws _ _ _ _ _ _ _ Hres).
      + destruct (numberZeros (maxE pi1) (items pi1)) as [e1 | [its' m']];
          [done |]. by inversion Hres; subst.
    - by inversion Hres; subst. }
  destruct (logLinearXAxis p).
  - destruct (adjustXAxis p _) as [e | pi2]; [done |].
    intros Hrun. by inversion Hrun; subst.
  - intros Hrun. by inversion Hrun; subst.
Qed.

(** The last loop changes the plot info of the dicts it is run on, and
    makes random draws; it changes nothing else. *)
Lemma finishTitlePlots_frame (p : PlotParams) (L : list nat)
    (entries : list (string * nat)) :
  (∀ l, l ∈ entries.*2 → l ∈ L) →
  ∀ w w',
    forM entries (λ '(title, l), finishTitlePlot p l) w = (inr tt, w') →
    draws w ≤ draws w'
    ∧ ∀ l, heap w' !! l = heap w !! l
           ∨ (l ∈ L
              ∧ set_plotInfo None <$> heap w' !! l
                = set_plotInfo None <$> heap w !! l).
Proof.
  induction entries as [| [t l] entries IH]; intros Hsub w w' Hrun.
  - inversion Hrun; subst. split; [done |]. intros l. by left.
  - simpl in Hrun. unfold bind in Hrun.
    destruct (finishTitlePlot p l w) as [[e | []] w1] eqn:Hstep; [done |].
    destruct (IH (λ l0 Hl0, Hsub l0 (list_elem_of_further _ _ _ Hl0)) w1 w' Hrun)
      as [Hd Hh].
    apply finishTitlePlot_inr in Hstep as (hitInfo & Hl & Hstep).
    destruct Hstep as [[_ ->] | (pi & pi' & Hpi & Hfin & Hl' & Hframe)]; [done |].
    apply finishPlotInfo_draws_le in Hfin. split; [lia |].
    assert (HlL : l ∈ L) by (apply Hsub; simpl; left).
    intros l0. destruct (decide (l0 = l)) as [-> | Hne].
    + right. split; [done |].
      destruct (Hh l) as [E | [_ E]]; rewrite E, Hl', Hl; done.
    + destruct (Hh l0) as [E | [Hin E]].
      * left. rewrite E. by apply Hframe.
      * right. split; [done |]. rewrite E. by rewrite Hframe.
Qed.

End FrameFacts.

(** X16: when [computePlotInfo] returns, the instance has the titles it
    had, the plot parameters of the call, the records with their length
    set and the FASTA sequences (those it had, or those just read); in the
    store, only the plot info of the dicts named by the titles has changed,
    so every dict has the statistics, read numbers and length it had; and
    random draws are made only with [randomizeZeroEValues=True] and
    [rankEValues=False]. *)
Theorem computePlotInfo_frame `{Env} (p : PlotParams) (self self' : BlastHits)
    (w w' : World) :
  computePlotInfo p (self, w) = (inr tt, (self', w')) →
  titles self' = titles self
  ∧ plotParams self' = Some p
  ∧ records self' = (BlastRecords_records (records self)).2
  ∧ match fasta self with
    | Some fa => fasta self' = Some fa
    | None => ∃ fa, _readFASTA self = inr fa ∧ fasta self' = Some fa
    end
  ∧ draws w ≤ draws w'
  ∧ (randomizeZeroEValues p = false ∨ rankEValues p = true → draws w' = draws w)
  ∧ (∀ l, set_plotInfo None <$> heap w' !! l = set_plotInfo None <$> heap w !! l)
  ∧ (∀ l, (∀ t, titles self !! t ≠ Some l) → heap w' !! l = heap w !! l).
Proof.
  intros Hrun.
  apply computePlotInfo_inr in Hrun
    as (w0 & fa & wa & Hreset & Hfa & Hwalk & Hfinish & ->).
  unfold resetPlotInfo in Hreset.
  destruct (resetPlotInfo_lookup (map_to_list (titles self)) w)
    as (w0' & Hreset' & Hd0 & Hh0).
  rewrite Hreset in Hreset'. inversion Hreset'; subst w0'. clear Hreset'.
  destruct (addGroups_plotInfoOnly p self fa _ w0 wa Hwalk) as [Hda Hha].
  destruct (finishTitlePlots_frame p (refsOf self) (map_to_list (titles self))
              ltac:(done) wa w' Hfinish) as [Hdb Hhb].
  assert (Hrefs : ∀ l, l ∈ refsOf self → ∃ t, titles self !! t = Some l).
  { intros l Hl. apply list_elem_of_fmap in Hl as ([t l'] & -> & Hin).
    exists t. by apply elem_of_map_to_list. }
  assert (Hreset0 : ∀ l, set_plotInfo None <$> heap w0 !! l
                         = set_plotInfo None <$> heap w !! l).
  { intros l. rewrite Hh0.
    destruct (decide (l ∈ (map_to_list (titles self)).*2)); [| done].
    by destruct (heap w !! l). }
  split; [done |]. split; [done |]. split.
  { simpl. unfold _getHsps. by destruct (BlastRecords_records (records self)). }
  split.
  { destruct (fasta self) as [fa0 |]; [by subst | by exists fa]. }
  split; [lia |]. split.
  { intros Hmode.
    destruct (finishTitlePlots_plotInfoOnly p (refsOf self)
                (map_to_list (titles self)) Hmode ltac:(done) wa w' Hfinish)
      as [Hdb' _]. lia. }
  split.
  - intros l. rewrite <- Hreset0.
    destruct (Hhb l) as [E | [_ E]], (Hha l) as [E' | [_ E']]; congruence.
  - intros l Hno.
    assert (Hnotin : l ∉ refsOf self).
    { intros Hin. destruct (Hrefs l Hin) as [t Ht]. by apply (Hno t). }
    destruct (Hhb l) as [E | [Hin _]]; [| done].
    destruct (Hha l) as [E' | [Hin _]]; [| done].
    rewrite E, E', Hh0.
    by destruct (decide (l ∈ (map_to_list (titles self)).*2)).
Qed.

Lemma computePlotInfo_frame_witness :
  titles randomRun1.2.1 = titles hitsOfThreeReads
  ∧ plotParams randomRun1.2.1 = Some plotRandomized
  ∧ draws passOfThreeReads.2 ≤ draws randomRun1.2.2.
Proof.
  destruct (@computePlotInfo_frame specEnv plotRandomized hitsOfThreeReads
              randomRun1.2.1 passOfThreeReads.2 randomRun1.2.2
              ltac:(vm_compute; reflexivity))
    as (Ht & Hp & _ & _ & Hd & _).
  split; [exact Ht |]. split; [exact Hp | exact Hd].
Defined.

(** ** computePlotInfo: the titles that get a plot info *)

Lemma forM_inr_reaches {S A} (I : S → Prop) (l : list A) (body : A → M S unit)
    (x : A) :
  x ∈ l →
  (∀ y s s', I s → body y s = (inr tt, s') → I s') →
  (∀ s s', body x s = (inr tt, s') → I s') →
  ∀ s s', forM l body s = (inr tt, s') → I s'.
Proof.
  intros Hin Hkeep Hset. induction l as [| y l IH]; intros s s' Hrun.
  - by apply elem_of_nil in Hin.
  - simpl in Hrun. unfold bind in Hrun.
    destruct (body y s) as [[e | []] s1] eqn:Hy; [done |].
    apply elem_of_cons in Hin as [<- | Hin].
    + apply (forM_inr I l body) with (s := s1); [| by apply (Hset s) | done].
      intros z t t' _. apply Hkeep.
    + by apply (IH Hin s1).
Qed.

Lemma getHsps_elem_of (self : BlastHits) (n : nat) (record : BlastRecord)
    (a : Alignment) :
  (BlastRecords_records (records self)).1 !! n = Some record →
  a ∈ alignments record →
  is_Some (titles self !! title a) →
  (title a, n, hsps a) ∈ (_getHsps self).1.
Proof.
  unfold _getHsps. destruct (BlastRecords_records (records self)) as [rs recs].
  simpl. intros Hn Ha Hsome. rewrite list_elem_of_In, in_flat_map.
  exists (n, record). split; [by apply list_elem_of_In, enumerate_elem |].
  apply in_flat_map. exists a. split; [by apply list_elem_of_In |].
  destruct (decide (is_Some (titles self !! title a))); [by left | done].
Qed.

Section PlottedFacts.
Context `{Env}.

Lemma addGroup_plotted (p : PlotParams) (self : BlastHits) (fa : list string)
    (t : string) (n : nat) (hs : list HSP) (w w' : World) :
  addGroup p self fa (t, n, hs) w = (inr tt, w') →
  ∃ l, titles self !! t = Some l
    ∧ plotted w' l
    ∧ ∀ l0, l0 ≠ l → heap w' !! l0 = heap w !! l0.
Proof.
  intros Hrun. apply addGroup_inr in Hrun
    as (l & hitInfo & read & pi0 & firstItem & pi1 & Ht & Hl & _ & _ & _ & Hl'
        & Hframe & _).
  exists l. split; [done |]. split; [| done]. by eexists _, pi1.
Qed.

Lemma finishTitlePlot_plotted (p : PlotParams) (l l0 : nat) (w w' : World) :
  finishTitlePlot p l w = (inr tt, w') → plotted w' l0 ↔ plotted w l0.
Proof.
  intros Hrun. apply finishTitlePlot_inr in Hrun as (hitInfo & Hl & Hstep).
  destruct Hstep as [[_ ->] | (pi & pi' & Hpi & _ & Hl' & Hframe)]; [done |].
  destruct (decide (l0 = l)) as [-> | Hne].
  - split; intros _; [by exists hitInfo, pi | by eexists _, pi'].
  - unfold plotted. by rewrite Hframe.
Qed.

End PlottedFacts.

(** X17: when [computePlotInfo] returns, a title has a plot info exactly
    when some record read has an alignment with that title, or with a
    title that names the same dict; the other titles have [None]. *)
Theorem computePlotInfo_plotted `{Env} (p : PlotParams) (self self' : BlastHits)
    (w w' : World) :
  computePlotInfo p (self, w) = (inr tt, (self', w')) →
  ∀ t l, titles self !! t = Some l →
    is_Some (plotInfoOf self' w' t)
    ↔ ∃ t' n record a,
        titles self !! t' = Some l
        ∧ (BlastRecords_records (records self)).1 !! n = Some record
        ∧ a ∈ alignments record ∧ title a = t'.
Proof.
  intros Hrun t l Ht.
  apply computePlotInfo_inr in Hrun
    as (w0 & fa & wa & Hreset & _ & Hwalk & Hfinish & ->).
  assert (Hof : is_Some (plotInfoOf
                  {| records := (_getHsps self).2; titles := titles self;
                     fasta := Some fa; plotParams := Some p |} w' t)
                ↔ plotted w' l).
  { unfold plotInfoOf, plotted. simpl. rewrite Ht. simpl. split.
    - intros [pi Hpi]. destruct (heap w' !! l) as [h |]; [| done].
      by exists h, pi.
    - intros (h & pi & -> & Hpi). by exists pi. }
  rewrite Hof. clear Hof.
  assert (Hlast : plotted w' l ↔ plotted wa l).
  { split.
    - apply (forM_inr (λ w1, plotted w1 l → plotted wa l)
               (map_to_list (titles self)) (λ '(_, l1), finishTitlePlot p l1))
        with (s := wa); [| done | done].
      intros [t1 l1] s s' _ Hs Hstep Hp. apply Hs.
      by apply (finishTitlePlot_plotted p l1 l s s' Hstep).
    - intros Hp.
      apply (forM_inr (λ w1, plotted w1 l)
               (map_to_list (titles self)) (λ '(_, l1), finishTitlePlot p l1))
        with (s := wa); [| done | done].
      intros [t1 l1] s s' _ Hs Hstep.
      by apply (finishTitlePlot_plotted p l1 l s s' Hstep). }
  rewrite Hlast. clear Hlast.
  assert (Hnone : ¬ plotted w0 l).
  { intros (h & pi & Hh & Hpi). unfold resetPlotInfo in Hreset.
    destruct (resetPlotInfo_lookup (map_to_list (titles self)) w)
      as (w0' & Hreset' & _ & Hheap).
    rewrite Hreset in Hreset'. inversion Hreset'; subst w0'.
    rewrite Hheap in Hh.
    destruct (decide (l ∈ (map_to_list (titles self)).*2)) as [_ | Hn].
    - destruct (heap w !! l); [| done]. simpl in Hh. inversion Hh; subst h. done.
    - apply Hn. by apply (refsOf_lookup self t l). }
  split.
  - intros Hp.
    assert (Hgroup : ∃ t' n hs, (t', n, hs) ∈ (_getHsps self).1
                                ∧ titles self !! t' = Some l).
    { revert Hp.
      apply (forM_inr
               (λ w1, plotted w1 l →
                      ∃ t' n hs, (t', n, hs) ∈ (_getHsps self).1
                                 ∧ titles self !! t' = Some l)
               (_getHsps self).1 (addGroup p self fa)) with (s := w0);
        [| done | done].
      intros [[t1 n1] hs1] s s' Hin Hs Hstep Hp.
      destruct (addGroup_plotted p self fa t1 n1 hs1 s s' Hstep)
        as (l1 & Ht1 & _ & Hframe).
      destruct (decide (l = l1)) as [<- | Hne]; [by exists t1, n1, hs1 |].
      apply Hs. destruct Hp as (h & pi & Hh & Hpi).
      rewrite Hframe in Hh by done. by exists h, pi. }
    destruct Hgroup as (t' & n & hs & Hin & Ht').
    destruct (getHsps_elem self t' n hs Hin) as (_ & record & a & Hn & Ha & Hta & _).
    by exists t', n, record, a.
  - intros (t' & n & record & a & Ht' & Hn & Ha & Hta). subst t'.
    assert (Hin : (title a, n, hsps a) ∈ (_getHsps self).1).
    { apply (getHsps_elem_of self n record a); [done | done | by eexists]. }
    apply (forM_inr_reaches (λ w1, plotted w1 l) (_getHsps self).1
             (addGroup p self fa) (title a, n, hsps a) Hin)
      with (s := w0); [| | done].
    + intros [[t1 n1] hs1] s s' (h & pi & Hh & Hpi) Hstep.
      destruct (addGroup_plotted p self fa t1 n1 hs1 s s' Hstep)
        as (l1 & Ht1 & Hp1 & Hframe).
      destruct (decide (l = l1)) as [<- | Hne]; [done |].
      exists h, pi. by rewrite Hframe.
    + intros s s' Hstep.
      destruct (addGroup_plotted p self fa (title a) n (hsps a) s s' Hstep)
        as (l1 & Ht1 & Hp1 & _).
      rewrite Ht' in Ht1. by inversion Ht1; subst.
Qed.

Lemma computePlotInfo_plotted_witness :
  is_Some (plotInfoOf plainRun1.2.1 plainRun1.2.2 "T").
Proof.
  apply (@computePlotInfo_plotted specEnv plotDefaults hitsOfThreeReads
           plainRun1.2.1 passOfThreeReads.2 plainRun1.2.2
           ltac:(vm_compute; reflexivity) "T" 0 ltac:(vm_compute; reflexivity)).
  exists "T", 0, {| alignments := [hit "T" 100 [qc 1 1000]] |},
    (hit "T" 100 [qc 1 1000]).
  split; [vm_compute; reflexivity |]. split; [reflexivity |].
  split; [left | reflexivity].
Defined.

(** ** computePlotInfo: [hspTotal] *)

Lemma hspsFor_app (self : BlastHits) (l : nat)
    (gs1 gs2 : list (string * nat * list HSP)) :
  hspsFor self l (gs1 ++ gs2) = hspsFor self l gs1 + hspsFor self l gs2.
Proof.
  induction gs1 as [| [[t n] hs] gs1 IH]; [done |]. simpl. rewrite IH. lia.
Qed.

Section TotalFacts.
Context `{Env}.

Lemma addHsps_hspTotal (p : PlotParams) (firstItem : bool) (queryLen readNum : nat)
    (hs : list HSP) (pi pi' : PlotInfo) :
  addHsps p firstItem queryLen readNum 1 hs pi = (inr tt, pi') →
  hspTotal pi' = hspTotal pi.
Proof.
  rewrite addHsps_upto. intros Hrun.
  by destruct (addHsps_count p firstItem queryLen readNum _ _ _ Hrun).
Qed.

Lemma finishPlotInfo_hspTotal (p : PlotParams) (d d' : nat) (pi pi' : PlotInfo) :
  finishPlotInfo p d pi = inr (pi', d') → hspTotal pi' = hspTotal pi.
Proof.
  unfold finishPlotInfo.
  set (pi1 := if rankEValues p then _convertEValuesToRanks pi else pi).
  assert (H1 : hspTotal pi1 = hspTotal pi).
  { unfold pi1. by destruct (rankEValues p). }
  clearbody pi1.
  destruct (if zeroEValueFound pi1 then _ else _) as [e | [[its m] d1]];
    [done |].
  destruct (logLinearXAxis p).
  - destruct (adjustXAxis p _) as [e | pi2] eqn:Hadj; [done |].
    intros Hrun. inversion Hrun; subst.
    destruct (adjustXAxis_extent p _ _ Hadj) as (Ht & _). simpl in Ht. congruence.
  - intros Hrun. by inversion Hrun; subst.
Qed.

(** During the loop over the tuples of [_getHsps], [hspTotal] is the
    number of HSPs of the tuples met so far. *)
Lemma addGroups_hspTotal (p : PlotParams) (self : BlastHits) (fa : list string)
    (l : nat) (gs : list (string * nat * list HSP)) :
  ∀ (met : list (string * nat * list HSP)) (w w' : World),
    (∀ h, heap w !! l = Some h →
       match plotInfo h with
       | Some pi => hspTotal pi = hspsFor self l met
       | None => hspsFor self l met = 0
       end) →
    forM gs (addGroup p self fa) w = (inr tt, w') →
    ∀ h, heap w' !! l = Some h →
      match plotInfo h with
      | Some pi => hspTotal pi = hspsFor self l (met ++ gs)
      | None => hspsFor self l (met ++ gs) = 0
      end.
Proof.
  induction gs as [| [[t n] hs] gs IH]; intros met w w' Hmet Hrun.
  - inversion Hrun; subst. by rewrite app_nil_r.
  - cbn [forM] in Hrun. unfold bind in Hrun.
    destruct (addGroup p self fa (t, n, hs) w) as [[e | []] w1] eqn:Hstep; [done |].
    rewrite (cons_middle (t, n, hs) met gs), app_assoc.
    apply (IH (met ++ [(t, n, hs)]) w1 w'); [| done].
    apply addGroup_inr in Hstep
      as (l1 & hitInfo & read & pi0 & firstItem & pi1 & Ht & Hl & _ & Hfirst
          & Hadd & Hl' & Hframe & _).
    apply addHsps_hspTotal in Hadd. simpl in Hadd.
    rewrite hspsFor_app. simpl.
    intros h Hh. destruct (decide (l = l1)) as [<- | Hne].
    + rewrite Hl' in Hh. inversion Hh; subst h. simpl.
      destruct (decide (titles self !! t = Some l)) as [_ | Hn]; [| done].
      specialize (Hmet hitInfo Hl).
      destruct Hfirst as [(Hnone & -> & _) | [Hsome _]].
      * rewrite Hnone in Hmet. simpl in Hadd. lia.
      * rewrite Hsome in Hmet. lia.
    + rewrite Hframe in Hh by done.
      destruct (decide (titles self !! t = Some l)) as [Heq | _]; [congruence |].
      specialize (Hmet h Hh). destruct (plotInfo h); lia.
Qed.

End TotalFacts.

(** X18: when [computePlotInfo] returns, [hspTotal] of the plot info of a
    title is the number of HSPs of all the tuples of [_getHsps] for that
    title (or for a title that names the same dict), whether or not the
    HSPs were kept as items. *)
Theorem computePlotInfo_hspTotal `{Env} (p : PlotParams) (self self' : BlastHits)
    (w w' : World) :
  computePlotInfo p (self, w) = (inr tt, (self', w')) →
  ∀ t l pi, titles self !! t = Some l → plotInfoOf self' w' t = Some pi →
    hspTotal pi = hspsFor self l (_getHsps self).1.
Proof.
  intros Hrun t l pi Ht Hpi.
  apply computePlotInfo_inr in Hrun
    as (w0 & fa & wa & Hreset & _ & Hwalk & Hfinish & ->).
  unfold plotInfoOf in Hpi. simpl in Hpi. rewrite Ht in Hpi. simpl in Hpi.
  destruct (heap w' !! l) as [h' |] eqn:Hl'; [| done]. simpl in Hpi.
  assert (Hwalked : holds (λ pi, hspTotal pi = hspsFor self l (_getHsps self).1)
                      wa l).
  { intros h pi1 Hh Hpi1.
    pose proof (addGroups_hspTotal p self fa l (_getHsps self).1 [] w0 wa) as Htot.
    simpl in Htot.
    assert (Hstart : ∀ h0, heap w0 !! l = Some h0 →
              match plotInfo h0 with
              | Some pi => hspTotal pi = 0
              | None => 0 = 0
              end).
    { intros h0 Hh0. unfold resetPlotInfo in Hreset.
      destruct (resetPlotInfo_lookup (map_to_list (titles self)) w)
        as (w0' & Hreset' & _ & Hheap).
      rewrite Hreset in Hreset'. inversion Hreset'; subst w0'.
      rewrite Hheap in Hh0.
      destruct (decide (l ∈ (map_to_list (titles self)).*2)) as [_ | Hn].
      - destruct (heap w !! l); [| done]. simpl in Hh0.
        by inversion Hh0; subst h0.
      - exfalso. apply Hn. by apply (refsOf_lookup self t l). }
    specialize (Htot Hstart Hwalk h Hh). by rewrite Hpi1 in Htot. }
  apply (forM_inr
           (λ w1, holds (λ pi, hspTotal pi = hspsFor self l (_getHsps self).1) w1 l)
           (map_to_list (titles self)) (λ '(_, l1), finishTitlePlot p l1))
    with (s := wa) (s' := w') (hitInfo := h'); [| done | done | done | done].
  intros [t1 l1] s s' _ Hs Hstep h pi1 Hh Hpi1.
  apply finishTitlePlot_inr in Hstep as (hitInfo & Hl1 & Hstep).
  destruct Hstep as [[_ ->] | (pi2 & pi2' & Hpi2 & Hfin & Hl1' & Hframe)];
    [by apply (Hs h) |].
  destruct (decide (l = l1)) as [<- | Hne].
  - rewrite Hl1' in Hh. inversion Hh; subst h. simpl in Hpi1.
    inversion Hpi1; subst pi1.
    rewrite (finishPlotInfo_hspTotal p _ _ _ _ Hfin). by apply (Hs hitInfo).
  - rewrite Hframe in Hh by done. by apply (Hs h).
Qed.

Lemma computePlotInfo_hspTotal_witness :
  hspTotal (plotInfoAfter plainRun1 "T") = 3.
Proof.
  apply (@computePlotInfo_hspTotal specEnv plotDefaults hitsOfThreeReads
           plainRun1.2.1 passOfThreeReads.2 plainRun1.2.2
           ltac:(vm_compute; reflexivity) "T" 0 (plotInfoAfter plainRun1 "T")
           ltac:(vm_compute; reflexivity) ltac:(vm_compute; reflexivity)).
Defined.

(** ** The two passes together *)

Section TogetherFacts.
Context `{Env}.

(** What [BlastRecords.filterHits] returns is what [computePlotInfo] and
    [sortTitles] need: every title names a dict of the store, the dict has
    its statistics, and some record read has an alignment with the title. *)
Lemma BlastRecords_filterHits_ready (fp : FilterParams) (recs : BlastRecords)
    (w w1 : World) (hits : BlastHits) :
  BlastRecords_filterHits fp recs w = (inr hits, w1) →
  records hits = (BlastRecords_records recs).2
  ∧ fasta hits = None
  ∧ ∀ t l, titles hits !! t = Some l →
      (∃ stored mean median least,
         heap w1 !! l = Some stored
         ∧ eMean stored = Some mean ∧ eMedian stored = Some median
         ∧ eMin stored = Some least)
      ∧ ∃ n record a,
          (BlastRecords_records recs).1 !! n = Some record
          ∧ a ∈ alignments record ∧ title a = t.
Proof.
  intros Hrun.
  destruct (BlastRecords_filterHits_inr fp recs w w1 hits Hrun)
    as (st & Hagg & Hloop).
  destruct (BlastRecords_filterHits_run fp recs w st Hagg)
    as (bh & w2 & Hrun' & Hinv & _ & Hrec & Hback & _).
  rewrite Hrun in Hrun'. inversion Hrun'; subst bh w2. clear Hrun'.
  destruct (finishTitle_loop (mkHitInfoFilter false fp) (map_to_list (result st)))
    with (blastHits := BlastHits_new (BlastRecords_records recs).2) (w := w)
    as (bh' & w2 & Hloop' & _ & _ & _ & Hfa & _).
  { apply NoDup_fst_map_to_list. }
  { intros t hitInfo Hin. apply elem_of_map_to_list in Hin.
    destruct (summarize_accumulating fp _ t hitInfo Hinv Hin)
      as (evs & m & Hevs & _ & Hm & _).
    rewrite Hevs. simpl. rewrite Hm. by eexists. }
  { intros t [x Hx]. simpl in Hx. by rewrite lookup_empty in Hx. }
  rewrite Hloop in Hloop'. inversion Hloop'; subst bh' w2. clear Hloop'.
  split; [done |]. split; [done |].
  intros t l Hl. destruct (Hback t l Hl) as (h & s & Hin & Hs & _ & Hst & _).
  destruct (summarize_accumulating fp _ t h Hinv Hin)
    as (evs & m & Hevs & _ & Hm & _ & _ & _ & Hsum).
  rewrite Hsum in Hs. inversion Hs; subst s. clear Hs. split.
  - eexists _, _, _, _. split; [exact Hst |]. done.
  - assert (Hsrc : sourced (alignmentsOf (BlastRecords_records recs).1) (result st)).
    { rewrite aggregate_alignmentsOf in Hagg.
      apply (sourced_pass fp _ [] (startOf fp) st); [| done].
      intros t' h' Hlook. simpl in Hlook. by rewrite lookup_empty in Hlook. }
    destruct (Hsrc t h Hin) as (_ & _ & _ & (n & a & Ha & Ht & _) & _).
    apply alignmentsOf_elem in Ha as (record & Hn & Ha).
    by exists n, record, a.
Qed.

(** A title with an alignment in the records read has a plot info when
    [computePlotInfo] returns. *)
Lemma computePlotInfo_reaches (p : PlotParams) (self self' : BlastHits)
    (w w' : World) (t : string) (n : nat) (record : BlastRecord) (a : Alignment) :
  computePlotInfo p (self, w) = (inr tt, (self', w')) →
  is_Some (titles self !! t) →
  (BlastRecords_records (records self)).1 !! n = Some record →
  a ∈ alignments record → title a = t →
  is_Some (plotInfoOf self' w' t).
Proof.
  intros Hrun [l Ht] Hn Ha Hta. subst t.
  apply computePlotInfo_inr in Hrun
    as (w0 & fa & wa & _ & _ & Hwalk & Hfinish & ->).
  assert (Hin : (title a, n, hsps a) ∈ (_getHsps self).1).
  { apply (getHsps_elem_of self n record a); [done | done | by eexists]. }
  assert (Hwalked : plotted wa l).
  { apply (forM_inr_reaches (λ w1, plotted w1 l) (_getHsps self).1
             (addGroup p self fa) (title a, n, hsps a) Hin)
      with (s := w0); [| | done].
    - intros [[t1 n1] hs1] s s' (h & pi & Hh & Hpi) Hstep.
      destruct (addGroup_plotted p self fa t1 n1 hs1 s s' Hstep)
        as (l1 & Ht1 & Hp1 & Hframe).
      destruct (decide (l = l1)) as [<- | Hne]; [done |].
      exists h, pi. by rewrite Hframe.
    - intros s s' Hstep.
      destruct (addGroup_plotted p self fa (title a) n (hsps a) s s' Hstep)
        as (l1 & Ht1 & Hp1 & _).
      rewrite Ht in Ht1. by inversion Ht1; subst. }
  assert (Hend : plotted w' l).
  { apply (forM_inr (λ w1, plotted w1 l)
             (map_to_list (titles self)) (λ '(_, l1), finishTitlePlot p l1))
      with (s := wa); [| done | done].
    intros [t1 l1] s s' _ Hs Hstep.
    by apply (finishTitlePlot_plotted p l1 l s s' Hstep). }
  destruct Hend as (h & pi & Hh & Hpi).
  unfold plotInfoOf. simpl. rewrite Ht. simpl. rewrite Hh. simpl. by exists pi.
Qed.

End TogetherFacts.

(** X19: the instance that [BlastRecords.filterHits] returns can be handed
    to [computePlotInfo] as it is: every title names a dict of the store,
    the FASTA sequences are not yet read, and the length of the records is
    the number of records that a pass over them yields; and when
    [computePlotInfo] returns on it, every title has a plot info. *)
Theorem filterHits_then_computePlotInfo `{Env} (fp : FilterParams)
    (p : PlotParams) (recs : BlastRecords) (w w1 : World) (hits : BlastHits) :
  BlastRecords_filterHits fp recs w = (inr hits, w1) →
  wellFormed hits w1
  ∧ fasta hits = None
  ∧ _length (records hits) = length (BlastRecords_records (records hits)).1
  ∧ ∀ hits' w2,
      computePlotInfo p (hits, w1) = (inr tt, (hits', w2)) →
      titles hits' = titles hits
      ∧ ∀ t, is_Some (titles hits !! t) → is_Some (plotInfoOf hits' w2 t).
Proof.
  intros Hrun.
  destruct (BlastRecords_filterHits_ready fp recs w w1 hits Hrun)
    as (Hrec & Hfa & Hall).
  assert (Hagain : (BlastRecords_records (records hits)).1
                   = (BlastRecords_records recs).1).
  { by rewrite Hrec, BlastRecords_records_again. }
  split.
  { intros t l Hl. destruct (Hall t l Hl) as [(stored & _ & _ & _ & Hst & _) _].
    by eexists. }
  split; [done |]. split.
  { rewrite Hagain, Hrec. apply BlastRecords_records_counted. }
  intros hits' w2 Hplot. split.
  { apply computePlotInfo_inr in Hplot as (w0 & fa & wa & _ & _ & _ & _ & ->).
    done. }
  intros t [l Hl]. destruct (Hall t l Hl) as [_ (n & record & a & Hn & Ha & Hta)].
  apply (computePlotInfo_reaches p hits hits' w1 w2 t n record a);
    [done | by eexists | by rewrite Hagain | done | done].
Qed.

Lemma filterHits_then_computePlotInfo_witness :
  wellFormed hitsOfThreeReads passOfThreeReads.2
  ∧ is_Some (plotInfoOf plainRun1.2.1 plainRun1.2.2 "T").
Proof.
  destruct (@filterHits_then_computePlotInfo specEnv noFilter plotDefaults
              threeReads emptyWorld passOfThreeReads.2 hitsOfThreeReads
              ltac:(vm_compute; reflexivity)) as (Hwf & _ & _ & Hplot).
  split; [exact Hwf |].
  destruct (Hplot plainRun1.2.1 plainRun1.2.2 ltac:(vm_compute; reflexivity))
    as [_ Hall].
  apply Hall. vm_compute. eexists. reflexivity.
Defined.

(** X20: on the instance that [BlastRecords.filterHits] returns,
    [sortTitles] returns for each of its six attributes: every dict has
    the three statistics that the e-value attributes read. *)
Theorem filterHits_then_sortTitles `{Env} (fp : FilterParams)
    (recs : BlastRecords) (w w1 : World) (hits : BlastHits) (by_ : string) :
  BlastRecords_filterHits fp recs w = (inr hits, w1) →
  by_ ∈ ["eMin"; "eMean"; "eMedian"; "readCount"; "length"; "title"] →
  ∃ ts, sortTitles by_ hits w1 = inr ts ∧ length ts = BlastHits_len hits.
Proof.
  intros Hrun Hby.
  destruct (BlastRecords_filterHits_ready fp recs w w1 hits Hrun)
    as (_ & _ & Hall).
  assert (Hsorted : ∀ {K} (le : K * string → K * string → bool)
                      (attr : HitInfo → Error + K),
            (∀ t l, titles hits !! t = Some l →
               ∃ h k, heap w1 !! l = Some h ∧ attr h = inr k) →
            ∃ ts, sortedOn le attr hits w1 = inr ts
                  ∧ length ts = BlastHits_len hits).
  { intros K le attr Hattr. unfold sortedOn.
    destruct (decorate_returns attr w1 (map_to_list (titles hits))) as [ks Hks].
    { intros t l Hin. apply elem_of_map_to_list in Hin. by apply (Hattr t l). }
    rewrite Hks. eexists. split; [done |].
    destruct (decorate_titles attr w1 _ ks Hks) as [Htitles _].
    rewrite length_fmap, sort_length.
    rewrite <- (length_fmap snd ks), Htitles, length_fmap.
    unfold BlastHits_len. apply length_map_to_list. }
  unfold sortTitles.
  repeat (apply elem_of_cons in Hby as [-> | Hby]);
    [| | | | | | by apply elem_of_nil in Hby]; simpl.
  - apply Hsorted. intros t l Hl.
    destruct (Hall t l Hl) as [(h & mean & median & least & Hh & _ & _ & Hmin) _].
    exists h, least. by rewrite Hmin.
  - apply Hsorted. intros t l Hl.
    destruct (Hall t l Hl) as [(h & mean & median & least & Hh & Hmean & _) _].
    exists h, mean. by rewrite Hmean.
  - apply Hsorted. intros t l Hl.
    destruct (Hall t l Hl) as [(h & mean & median & least & Hh & _ & Hmed & _) _].
    exists h, median. by rewrite Hmed.
  - apply Hsorted. intros t l Hl.
    destruct (Hall t l Hl) as [(h & _ & _ & _ & Hh & _) _]. by eexists h, _.
  - apply Hsorted. intros t l Hl.
    destruct (Hall t l Hl) as [(h & _ & _ & _ & Hh & _) _]. by eexists h, _.
  - eexists. split; [done |].
    rewrite sort_length, length_fmap. unfold BlastHits_len.
    apply length_map_to_list.
Qed.

Lemma filterHits_then_sortTitles_witness :
  ∃ ts, sortTitles "eMedian" hitsOfTwoTitles passOfTwoTitles.2 = inr ts
        ∧ length ts = BlastHits_len hitsOfTwoTitles.
Proof.
  apply (@filterHits_then_sortTitles specEnv noFilter twoTitles emptyWorld
           passOfTwoTitles.2 hitsOfTwoTitles "eMedian"
           ltac:(vm_compute; reflexivity)).
  right. right. left.
Defined.

(** ** computePlotInfo: the order of the ranks *)

Lemma key_le_trans (x y z : option Qc) :
  key_le x y = true → key_le y z = true → key_le x z = true.
Proof.
  destruct x as [x |], y as [y |], z as [z |]; simpl; try done.
  rewrite !bool_decide_eq_true. apply Qcle_trans.
Qed.

Lemma sort_sorted {A} (le : A → A → bool) (l : list A) :
  StronglySorted (λ a b, le a b = true) l → sort le l = l.
Proof.
  induction 1 as [| x l Hs IH Hall]; [done |].
  simpl. rewrite IH. destruct l as [| y l]; [done |].
  apply Forall_cons in Hall as [Hxy _]. simpl. by rewrite Hxy.
Qed.

Lemma StronglySorted_of_lookup {A} (R : A → A → Prop) (l : list A) :
  (∀ i j x y, i < j → l !! i = Some x → l !! j = Some y → R x y) →
  StronglySorted R l.
Proof.
  induction l as [| x l IH]; intros Hall; constructor.
  - apply IH. intros i j a b Hij Ha Hb. apply (Hall (S i) (S j)); [lia | done | done].
  - apply Forall_forall. intros y Hy. apply list_elem_of_lookup in Hy as [j Hj].
    apply (Hall 0 (S j)); [lia | done | done].
Qed.

Lemma Qc_of_nat_le (n m : nat) : n ≤ m → (Qc_of_nat n <= Qc_of_nat m)%Qc.
Proof.
  intros Hle. unfold Qc_of_nat. apply (proj1 (Z2Qc_inj_le _ _)). lia.
Qed.

Lemma assignRanks_lookup_inv (rank i : nat) (its : list Item) (item' : Item) :
  assignRanks rank its !! i = Some item' →
  ∃ item, its !! i = Some item
    ∧ item' = set_convertedE (Some (Qc_of_nat (rank + i))) item.
Proof.
  intros Hi.
  assert (Hlt : i < length its).
  { apply lookup_lt_Some in Hi. by rewrite assignRanks_length in Hi. }
  destruct (lookup_lt_is_Some_2 its i Hlt) as [item Hitem].
  exists item. split; [done |].
  rewrite (assignRanks_lookup rank i its item Hitem) in Hi. by inversion Hi.
Qed.

Section RankOrder.
Context `{Env}.

(** As [computePlotInfo_establishes], when what the loop over the tuples
    keeps is not what the last loop needs. *)
Lemma computePlotInfo_establishes_from (W P Q : PlotInfo → Prop)
    (p : PlotParams) (self self' : BlastHits) (w w' : World) :
  (∀ len, W (plotInfoDict p len)) →
  (∀ n hs firstItem queryLen pi pi',
     W pi →
     addHsps p firstItem queryLen n 1 hs
       (set_hspTotal (hspTotal pi + length hs) pi) = (inr tt, pi') →
     W pi') →
  (∀ pi, W pi → P pi) →
  (∀ d pi pi' d', P pi → finishPlotInfo p d pi = inr (pi', d') → Q pi') →
  (∀ pi, Q pi → P pi) →
  computePlotInfo p (self, w) = (inr tt, (self', w')) →
  ∀ t pi, plotInfoOf self' w' t = Some pi → Q pi.
Proof.
  intros Hnew Hstep HWP Hfin HQP Hrun.
  apply computePlotInfo_inr in Hrun
    as (w0 & fa & wa & Hreset & _ & Hwalk & Hfinish & ->).
  intros t pi Hpi.
  unfold plotInfoOf in Hpi. simpl in Hpi.
  destruct (titles self !! t) as [l |] eqn:Ht; [| done]. simpl in Hpi.
  destruct (heap w' !! l) as [hitInfo |] eqn:Hl; [| done]. simpl in Hpi.
  assert (Hreset0 : ∀ l1, l1 ∈ refsOf self → holds W w0 l1).
  { intros l1 Hl1 h pi1 Hh Hpi1. unfold resetPlotInfo in Hreset.
    destruct (resetPlotInfo_lookup (map_to_list (titles self)) w)
      as (w0' & Hreset' & _ & Hheap).
    rewrite Hreset in Hreset'. inversion Hreset'; subst w0'.
    rewrite Hheap in Hh. destruct (decide (l1 ∈ (map_to_list (titles self)).*2));
      [| done].
    destruct (heap w !! l1); [| done]. simpl in Hh. inversion Hh; subst h.
    done. }
  assert (Hwalked : ∀ l1, l1 ∈ (map_to_list (titles self)).*2 → holds P wa l1).
  { intros l1 Hl1 h pi1 Hh Hpi1. apply HWP.
    apply (addGroups_holds W p self fa (_getHsps self).1 w0 wa l1)
      with (hitInfo := h); [apply Hnew | | done | by apply Hreset0 | done | done].
    intros t1 n hs firstItem read pi2 pi2' _ _. apply Hstep. }
  apply (finishTitlePlots_establish P Q p (map_to_list (titles self))
           Hfin HQP wa w' Hfinish Hwalked l)
    with (hitInfo := hitInfo); [| done | done].
  right. by apply (refsOf_lookup self t l).
Qed.

Lemma addHsps_pendingOrScored (p : PlotParams) (firstItem : bool)
    (queryLen readNum : nat) (hs : list HSP) (pi pi' : PlotInfo) :
  Forall pendingOrScored (items pi) →
  addHsps p firstItem queryLen readNum 1 hs
    (set_hspTotal (hspTotal pi + length hs) pi) = (inr tt, pi') →
  Forall pendingOrScored (items pi').
Proof.
  intros Hall. rewrite addHsps_upto.
  apply (forM_inr (λ pi, Forall pendingOrScored (items pi))); [| done].
  intros hsp s s' _ Hs Hstep.
  destruct (addHsp_kept p firstItem queryLen readNum hsp s s' Hstep)
    as [_ [(Hi & _) | (nz & c & _ & _ & _ & _ & Hi & _ & _ & _ & _ & Hconv)]].
  - by rewrite Hi.
  - rewrite Hi. apply Forall_app. split; [done |]. apply Forall_singleton.
    unfold pendingOrScored. simpl.
    destruct Hconv as [(-> & Hzero & _) | (l & Hnz & Hlog & -> & _)]; [done |].
    split; [done |]. by exists l.
Qed.

(** Ranking the items that the loop over the HSPs left puts those of
    e-value 0.0 first and the others in ascending order of score. *)
Lemma convertEValuesToRanks_order (pi : PlotInfo) :
  Forall pendingOrScored (items pi) ∨ rankOrdered pi →
  rankOrdered (_convertEValuesToRanks pi).
Proof.
  intros [Hall | [Hranks Horder]].
  - assert (Hsorted : StronglySorted (λ a b, item_le a b = true)
                        (sort item_le (items pi))).
    { apply sort_StronglySorted.
      - intros x y. apply key_le_total.
      - intros x y z. apply key_le_trans. }
    assert (Hall' : Forall pendingOrScored (sort item_le (items pi))).
    { by apply sort_Forall. }
    rewrite Forall_forall in Hall'. split.
    + intros i a' Hi. simpl in Hi.
      apply assignRanks_lookup_inv in Hi as (a & _ & ->). done.
    + intros i j a' b' Hij Hi Hj. simpl in Hi, Hj.
      apply assignRanks_lookup_inv in Hi as (a & Ha & ->).
      apply assignRanks_lookup_inv in Hj as (b & Hb & ->).
      pose proof (StronglySorted_lookup _ _ i j a b Hsorted Hij Ha Hb) as Hle.
      pose proof (Hall' a ltac:(apply list_elem_of_lookup; by exists i)) as Hpa.
      pose proof (Hall' b ltac:(apply list_elem_of_lookup; by exists j)) as Hpb.
      unfold item_le in Hle. unfold pendingOrScored in Hpa, Hpb.
      unfold rankedBefore. simpl.
      destruct (convertedE a) as [ca |]; [| by left].
      destruct (convertedE b) as [cb |]; [| done].
      simpl in Hle. apply bool_decide_eq_true in Hle.
      destruct Hpa as (Hnza & la & Hla & ->), Hpb as (Hnzb & lb & Hlb & ->).
      right. split; [done |]. split; [done |]. by exists la, lb.
  - assert (Hsame : sort item_le (items pi) = items pi).
    { apply sort_sorted, StronglySorted_of_lookup.
      intros i j a b Hij Ha Hb. unfold item_le.
      rewrite (Hranks i a Ha), (Hranks j b Hb). simpl.
      apply bool_decide_eq_true. apply Qc_of_nat_le. lia. }
    split.
    + intros i a' Hi. simpl in Hi. rewrite Hsame in Hi.
      apply assignRanks_lookup_inv in Hi as (a & _ & ->). done.
    + intros i j a' b' Hij Hi Hj. simpl in Hi, Hj. rewrite Hsame in Hi, Hj.
      apply assignRanks_lookup_inv in Hi as (a & Ha & ->).
      apply assignRanks_lookup_inv in Hj as (b & Hb & ->).
      by apply (Horder i j a b).
Qed.

Lemma finishPlotInfo_rankOrdered (p : PlotParams) (d d' : nat)
    (pi pi' : PlotInfo) :
  rankEValues p = true →
  Forall pendingOrScored (items pi) ∨ rankOrdered pi →
  finishPlotInfo p d pi = inr (pi', d') →
  rankOrdered pi'.
Proof.
  intros Hrank Hpre. unfold finishPlotInfo. rewrite Hrank.
  pose proof (convertEValuesToRanks_order pi Hpre) as Hord.
  set (pi1 := _convertEValuesToRanks pi) in *.
  assert (Hzero : zeroEValueFound pi1 = false) by done.
  rewrite Hzero. destruct (logLinearXAxis p).
  - destruct (adjustXAxis p _) as [e | pi2] eqn:Hadj; [done |].
    intros Hrun. inversion Hrun; subst pi2 d'. clear Hrun.
    destruct (adjustXAxis_extent p _ _ Hadj) as (_ & [adjuster Hi] & _).
    simpl in Hi. destruct Hord as [Hranks Horder]. split.
    + intros i a' Ha'. rewrite Hi in Ha'.
      apply list_lookup_fmap_Some in Ha' as (a & -> & Ha). simpl.
      by apply (Hranks i).
    + intros i j a' b' Hij Ha' Hb'. rewrite Hi in Ha', Hb'.
      apply list_lookup_fmap_Some in Ha' as (a & -> & Ha).
      apply list_lookup_fmap_Some in Hb' as (b & -> & Hb).
      by apply (Horder i j a b).
  - intros Hrun. by inversion Hrun; subst.
Qed.

End RankOrder.

(** X21: after [computePlotInfo] with [rankEValues=True], for every title
    with plot info the item at index i has the converted e-value i + 1,
    [minE] is 1, [maxE] and [maxEIncludingRandoms] are the number of items
    and [zeroEValueFound] is false; and the items are in this order: those
    of e-value 0.0 first, with the lowest ranks, then the others in
    ascending order of [-1.0 * log10(e)], that is from the greatest e-value
    to the least. *)
Theorem computePlotInfo_ranks_by_evalue `{Env} (p : PlotParams)
    (self self' : BlastHits) (w w' : World) :
  rankEValues p = true →
  computePlotInfo p (self, w) = (inr tt, (self', w')) →
  ∀ t pi, plotInfoOf self' w' t = Some pi →
    (∀ i a, items pi !! i = Some a → convertedE a = Some (Qc_of_nat (S i)))
    ∧ minE pi = Some (Qc_of_nat 1)
    ∧ maxE pi = Some (Qc_of_nat (length (items pi)))
    ∧ maxEIncludingRandoms pi = Some (Qc_of_nat (length (items pi)))
    ∧ zeroEValueFound pi = false
    ∧ ∀ i j a b, i < j → items pi !! i = Some a → items pi !! j = Some b →
        expect (origHsp a) = Q2Qc 0
        ∨ (expect (origHsp a) ≠ Q2Qc 0 ∧ expect (origHsp b) ≠ Q2Qc 0
           ∧ ∃ la lb,
               log10 (expect (origHsp a)) = Some la
               ∧ log10 (expect (origHsp b)) = Some lb
               ∧ (qc (-1) 1 * la <= qc (-1) 1 * lb)%Qc).
Proof.
  intros Hrank Hrun t pi Hpi.
  assert (Hord : rankOrdered pi).
  { apply (computePlotInfo_establishes_from
             (λ pi, Forall pendingOrScored (items pi))
             (λ pi, Forall pendingOrScored (items pi) ∨ rankOrdered pi)
             rankOrdered p self self' w w') with (t := t); [| | | | | done | done].
    - intros len. constructor.
    - intros n hs firstItem queryLen pi0 pi0'. apply addHsps_pendingOrScored.
    - intros pi0 Hpi0. by left.
    - intros d pi0 pi0' d'. by apply finishPlotInfo_rankOrdered.
    - intros pi0 Hpi0. by right. }
  assert (Hfields : ranked pi).
  { unfold computePlotInfo in Hrun.
    destruct (resetPlotInfo self w) as [r0 w0].
    set (self1 := set_plotParams (Some p) self) in *.
    destruct (match fasta self1 with
              | Some fasta => inr fasta
              | None => _readFASTA self1
              end) as [e | fa]; [done |].
    set (self2 := set_fasta (Some fa) self1) in *.
    destruct (_getHsps self2) as [groups recs].
    destruct (forM groups (addGroup p self2 fa) w0) as [[e | []] w1]; [done |].
    destruct (forM (map_to_list (titles (set_records recs self2)))
                (λ '(_, l), finishTitlePlot p l) w1) as [r w2] eqn:Hloop.
    inversion Hrun; subst r self' w2. clear Hrun.
    unfold plotInfoOf in Hpi. simpl in Hpi.
    destruct (titles self !! t) as [l |] eqn:Ht; [| done]. simpl in Hpi.
    destruct (heap w' !! l) as [hitInfo |] eqn:Hl; [| done]. simpl in Hpi.
    apply (finishTitlePlot_loop p _ Hrank w1 w' Hloop l) with (hitInfo := hitInfo);
      [| done | done].
    right. apply list_elem_of_fmap. exists (t, l). split; [done |].
    by apply elem_of_map_to_list. }
  destruct Hord as [Hranks Horder].
  destruct Hfields as (_ & Hmin & Hmax & Hinc & Hzero).
  split; [done |]. split; [done |]. split; [done |]. split; [done |].
  split; [done |]. intros i j a b Hij Ha Hb. by apply (Horder i j a b).
Qed.

Lemma computePlotInfo_ranks_by_evalue_witness :
  (λ item, (expect (origHsp item), convertedE item))
    <$> items (plotInfoAfter rankedRun "T")
  = [ (Q2Qc 0, Some (qc 1 1));
      (qc 1 1000, Some (qc 2 1));
      (qc 1 10000000000, Some (qc 3 1)) ]
  ∧ ∀ i a, items (plotInfoAfter rankedRun "T") !! i = Some a →
      convertedE a = Some (Qc_of_nat (S i)).
Proof.
  split; [by_evaluation |].
  apply (@computePlotInfo_ranks_by_evalue specEnv plotRanked hitsOfThreeReads
           rankedRun.2.1 passOfThreeReads.2 rankedRun.2.2 eq_refl
           ltac:(vm_compute; reflexivity) "T" (plotInfoAfter rankedRun "T")
           ltac:(vm_compute; reflexivity)).
Defined.
